(** * Shopee scraper: resilience orchestration, verified against the source

    A shallow embedding of [src/app/main.py], [src/app/api.py] and
    [src/app/extension.py].

    - Python [str] values are sequences of Unicode code points
      ([list N]); the literals of the source are written as UTF-8 text and
      decoded by [utf8_decode], so [len] and [in] count and compare code
      points exactly as Python does.
    - Calls into the browser driver are the only source of non-determinism.
      Each call site of the source reads its answer from an environment
      record: either a value or a raised exception.
    - [try]/[except], [continue] and early [return] are written with a
      small state-and-signal monad, so that the embedded functions follow
      the control flow of the Python text line by line. *)

From stdpp Require Import base list strings gmap.
From Stdlib Require Import NArith ZArith Lia Ascii.

Local Open Scope N_scope.

(** ** Python strings *)

Module PyStr.

(** A Python [str]: a sequence of code points. *)
Definition str := list N.

(** Decoder for the UTF-8 text of the source literals.  [need] counts the
    continuation bytes still expected and [acc] holds the bits read so far. *)
Fixpoint utf8_decode_bytes (bs : list N) (acc : N) (need : nat) : str :=
  match bs with
  | [] => []
  | b :: bs' =>
    match need with
    | O =>
      if b <? 128 then b :: utf8_decode_bytes bs' 0 O
      else if b <? 224 then utf8_decode_bytes bs' (b - 192) 1%nat
      else if b <? 240 then utf8_decode_bytes bs' (b - 224) 2%nat
      else utf8_decode_bytes bs' (b - 240) 3%nat
    | S O => (acc * 64 + (b - 128)) :: utf8_decode_bytes bs' 0 O
    | S n => utf8_decode_bytes bs' (acc * 64 + (b - 128)) n
    end
  end.

Fixpoint bytes_of_string (s : string) : list N :=
  match s with
  | EmptyString => []
  | String a s' => N_of_ascii a :: bytes_of_string s'
  end.

Definition lit (s : string) : str := utf8_decode_bytes (bytes_of_string s) 0 O.

(** The double quote, which the literals below splice in by code point. *)
Definition dquote : N := 34.

(** [prefix_of p s]: [s.startswith(p)]. *)
Fixpoint prefix_of (p s : str) : bool :=
  match p, s with
  | [], _ => true
  | _ :: _, [] => false
  | a :: p', b :: s' => (a =? b) && prefix_of p' s'
  end.

(** [contains sub s]: Python's [sub in s]. *)
Fixpoint contains (sub s : str) : bool :=
  prefix_of sub s ||
  match s with
  | [] => false
  | _ :: s' => contains sub s'
  end.

(** [str.isspace] on one code point: the Unicode white space of CPython. *)
Definition is_space (c : N) : bool :=
  ((9 <=? c) && (c <=? 13)) || ((28 <=? c) && (c <=? 32))
  || (c =? 133) || (c =? 160) || (c =? 5760)
  || ((8192 <=? c) && (c <=? 8202))
  || (c =? 8232) || (c =? 8233) || (c =? 8239) || (c =? 8287) || (c =? 12288).

Fixpoint lstrip (s : str) : str :=
  match s with
  | [] => []
  | c :: s' => if is_space c then lstrip s' else s
  end.

(** [s.strip()] with no argument. *)
Definition strip (s : str) : str := rev (lstrip (rev (lstrip s))).

(** [len(s)]. *)
Definition len (s : str) : Z := Z.of_nat (length s).

(** [s.replace(old, new)]: every non-overlapping occurrence of [old], found
    scanning from the left, is replaced.  [skip] counts the code points of
    an occurrence already replaced that the scan still has to pass over.
    With an empty [old] Python inserts [new] before every code point and at
    the end. *)
Fixpoint replace_scan (old new s : str) (skip : nat) : str :=
  match s with
  | [] => []
  | c :: s' =>
    match skip with
    | S n => replace_scan old new s' n
    | O =>
      if prefix_of old s
      then new ++ replace_scan old new s' (length old - 1)
      else c :: replace_scan old new s' O
    end
  end.

Definition replace (old new s : str) : str :=
  match old with
  | [] => new ++ concat (map (fun c => c :: new) s)
  | _ :: _ => replace_scan old new s O
  end.

End PyStr.

(** ** [extension.py]: the API-key patcher of the CAPTCHA extension *)

Module Extension.
Import PyStr.

(** ['var apiKey = localStorage.getItem("sadCaptchaKey");'] *)
Definition api_key_lookup : str :=
  lit "var apiKey = localStorage.getItem(" ++ [dquote] ++ lit "sadCaptchaKey"
  ++ [dquote] ++ lit ");".

(** [f'var apiKey = "{api_key}";'] *)
Definition api_key_assignment (api_key : str) : str :=
  lit "var apiKey = " ++ [dquote] ++ api_key ++ [dquote] ++ lit ";".

Definition update_js_contents (content api_key : str) : str :=
  replace api_key_lookup (api_key_assignment api_key) content.

End Extension.

(** ** Python control flow: exceptions, [return], [continue] *)

Module Py.
Import PyStr.

(** The exception classes the source tells apart.  [except Exception]
    catches all of them; [except PlaywrightTimeoutError] only the first. *)
Inductive exn_class :=
  | PlaywrightTimeoutError
  | UnboundLocalError
  | TypeError
  | HTTPException (status_code : Z)
  | OtherException.

(** An exception: its class and [str(e)]. *)
Record exn := Exn { exn_class_of : exn_class; exn_text : str }.

(** What a call into the driver or the file system answers. *)
Inductive result (A : Type) :=
  | Ok (a : A)
  | Raise (e : exn).
Arguments Ok {A} a.
Arguments Raise {A} e.

(** What the run leaves behind for an observer. *)
Inductive event :=
  | EvOpen (session : nat) (server : str)  (* a browser context was launched *)
  | EvClose (session : nat)                (* [browser.close()] returned *)
  | EvWait (lo hi : Z)                     (* [wait_for_timeout(ms)], lo <= ms <= hi *)
  | EvPrint (line : string)                (* [print], the fixed part of the line *)
  | EvExtract (session : nat)              (* product fields were read *)
  | EvPersist (file : string).             (* a result file was written *)

(** The machine state of [main]: the world (log and live browser contexts)
    and the function's local variables that outlive one loop iteration.
    [browser] and [page] are bound by one tuple assignment, so one field
    stands for both: [None] is "not yet assigned". *)
Record st := St {
  trace : list event;          (* newest first *)
  live : list nat;             (* browser contexts open now *)
  browser : option nat;
  attempts : nat;
  success : bool;
  login_success : bool
}.

(** How a block ends: normally with a value, by an exception, by [return]
    from the enclosing function, or by [continue] of the enclosing loop. *)
Inductive outcome (R A : Type) :=
  | Normal (a : A)
  | Raised (e : exn)
  | Returned (r : R)
  | Continued.
Arguments Normal {R A} a.
Arguments Raised {R A} e.
Arguments Returned {R A} r.
Arguments Continued {R A}.

Definition M (R A : Type) : Type := st -> outcome R A * st.

Definition ret {R A} (a : A) : M R A := fun s => (Normal a, s).

Definition bind {R A B} (m : M R A) (k : A -> M R B) : M R B :=
  fun s =>
    match m s with
    | (Normal a, s') => k a s'
    | (Raised e, s') => (Raised e, s')
    | (Returned r, s') => (Returned r, s')
    | (Continued, s') => (Continued, s')
    end.

Definition raise {R A} (e : exn) : M R A := fun s => (Raised e, s).
Definition return_ {R A} (r : R) : M R A := fun s => (Returned r, s).
Definition continue {R A} : M R A := fun s => (Continued, s).

(** [try: body except Exception as e: handler e].  Only exceptions are
    caught; [return] and [continue] leave the block. *)
Definition try_except {R A} (body : M R A) (handler : exn -> M R A) : M R A :=
  fun s =>
    match body s with
    | (Raised e, s') => handler e s'
    | other => other
    end.

(** [try: body except: pass]. *)
Definition try_pass {R} (body : M R unit) : M R unit :=
  try_except body (fun _ => ret tt).

Definition emit {R} (e : event) : M R unit :=
  fun s => (Normal tt,
            St (e :: trace s) (live s) (browser s) (attempts s) (success s)
               (login_success s)).

Definition print {R} (line : string) : M R unit := emit (EvPrint line).

(** A call whose value is not used: [None] completes, [Some e] raises. *)
Definition call {R} (answer : option exn) : M R unit :=
  match answer with
  | None => ret tt
  | Some e => raise e
  end.

(** A call whose value is used. *)
Definition ask {R A} (answer : result A) : M R A :=
  match answer with
  | Ok a => ret a
  | Raise e => raise e
  end.

(** [await page.wait_for_timeout(ms)] with [lo <= ms <= hi]. *)
Definition wait_for_timeout {R} (answer : option exn) (lo hi : Z) : M R unit :=
  bind (call answer) (fun _ => emit (EvWait lo hi)).

Definition set_login_success {R} (b : bool) : M R unit :=
  fun s => (Normal tt,
            St (trace s) (live s) (browser s) (attempts s) (success s) b).

Definition set_success {R} (b : bool) : M R unit :=
  fun s => (Normal tt,
            St (trace s) (live s) (browser s) (attempts s) b (login_success s)).

Definition get_login_success {R} : M R bool :=
  fun s => (Normal (login_success s), s).

(** [await browser.close()].  Reading the unassigned local raises
    [UnboundLocalError].  The call is a call into the driver like any
    other: [None] completes, and the context is closed (closing a context
    that is already closed does nothing); [Some e] raises, and the context
    is left as it was. *)
Definition close_browser {R} (answer : option exn) : M R unit :=
  fun s =>
    match browser s with
    | None => (Raised (Exn UnboundLocalError (lit "browser")), s)
    | Some b =>
      match answer with
      | Some e => (Raised e, s)
      | None =>
        (Normal tt,
         St (EvClose b :: trace s) (filter (fun x => x <> b) (live s))
            (browser s) (attempts s) (success s) (login_success s))
      end
    end.

(** [browser, page = ...]: the assignment that binds the locals. *)
Definition assign_browser {R} (b : nat) : M R unit :=
  fun s => (Normal tt,
            St (trace s) (live s) (Some b) (attempts s) (success s)
               (login_success s)).

(** The context returned by [launch_persistent_context] is open from here. *)
Definition open_context {R} (b : nat) (srv : str) : M R unit :=
  fun s => (Normal tt,
            St (EvOpen b srv :: trace s) (b :: live s) (browser s) (attempts s)
               (success s) (login_success s)).

(** [for x in xs: body x], where [body] answers [true] for [break]. *)
Fixpoint for_break {R A} (xs : list A) (body : A -> M R bool) : M R unit :=
  match xs with
  | [] => ret tt
  | x :: xs' =>
    bind (body x) (fun stop => if stop then ret tt else for_break xs' body)
  end.

(** The selector loops of the source: [locator(sel).count() > 0] for each
    selector in turn, the first hit wins.  In [first_present] a raising
    [count()] leaves the loop (no [try] around it); in
    [first_present_guarded] the [try ... except: pass] inside the loop
    skips that selector. *)
Fixpoint first_present {R} (count : str -> result nat) (sels : list str)
  : M R (option str) :=
  match sels with
  | [] => ret None
  | sel :: rest =>
    bind (ask (count sel)) (fun n =>
      if (0 <? n)%nat then ret (Some sel) else first_present count rest)
  end.

Fixpoint first_present_guarded (count : str -> result nat) (sels : list str)
  : bool :=
  match sels with
  | [] => false
  | sel :: rest =>
    match count sel with
    | Ok n => if (0 <? n)%nat then true else first_present_guarded count rest
    | Raise _ => first_present_guarded count rest
    end
  end.

(** [for t in texts: if t in content: found = True; break]. *)
Definition any_in (texts : list str) (content : str) : bool :=
  existsb (fun t => contains t content) texts.

Declare Scope py_scope.
Delimit Scope py_scope with py.
Notation "x <- y ; z" := (bind y (fun x => z))
  (at level 20, y at level 100, z at level 200, only parsing) : py_scope.
Notation "x ;; z" := (bind x (fun _ => z))
  (at level 100, z at level 200, only parsing, right associativity) : py_scope.

(** ['...("text")...']: a selector with a quoted argument. *)
Definition quoted (before inside after : string) : str :=
  lit before ++ [dquote] ++ lit inside ++ [dquote] ++ lit after.

End Py.


(** ** [main.py]: [ProxyRotator] *)

Module Rotator.
Import PyStr Py.

Record proxy := Proxy {
  server : str;
  username : option str;
  password : option str
}.

(** [self.proxies] keeps the load order; [self.tried_proxies] is a set of
    server strings. *)
Record ProxyRotator := Rotator {
  proxies : list proxy;
  tried_proxies : gset str
}.

(** [if os.getenv(name):] - set and not empty. *)
Definition truthy (v : option str) : bool :=
  match v with
  | Some (_ :: _) => true
  | _ => false
  end.

Definition proxy_from_env (getenv : string -> option str) (prefix : string)
  : list proxy :=
  if truthy (getenv (prefix +:+ "_SERVER"))
  then [Proxy (default [] (getenv (prefix +:+ "_SERVER")))
              (getenv (prefix +:+ "_USERNAME"))
              (getenv (prefix +:+ "_PASSWORD"))]
  else [].

(** [f"GEONODE_PROXY_{i}"] for one decimal digit [i]. *)
Definition numbered_prefix (i : nat) : string :=
  "GEONODE_PROXY_" +:+ String (ascii_of_nat (48 + i)) EmptyString.

Definition _load_proxies_from_env (getenv : string -> option str) : list proxy :=
  proxy_from_env getenv "CUSTOM_PROXY"
  ++ proxy_from_env getenv "GEONODE_PROXY"
  ++ flat_map (fun i => proxy_from_env getenv (numbered_prefix i)) (seq 1 9).

Definition __init__ (getenv : string -> option str) : ProxyRotator :=
  Rotator (_load_proxies_from_env getenv) ∅.

(** [random.choice(xs)] with the draw [r]: the element at a position below
    [len(xs)]; on an empty sequence it raises [IndexError]. *)
Definition choice {A} (xs : list A) (r : nat) : option A :=
  xs !! (r mod length xs)%nat.

Definition get_random_proxy (self : ProxyRotator) (r : nat)
  : result (option proxy) * ProxyRotator :=
  match proxies self with
  | [] => (Ok None, self)
  | _ :: _ =>
    let tried :=
      if decide (length (proxies self) <= size (tried_proxies self))%nat
      then ∅ else tried_proxies self in
    let available := filter (fun p => server p ∉ tried) (proxies self) in
    let '(tried, available) :=
      match available with
      | [] => (∅, proxies self)
      | _ :: _ => (tried, available)
      end in
    match choice available r with
    | Some p => (Ok (Some p), Rotator (proxies self) ({[server p]} ∪ tried))
    | None =>
      (Raise (Exn OtherException (lit "Cannot choose from an empty sequence")),
       Rotator (proxies self) tried)
    end
  end.

(** [n] calls in a row, one draw each; the answers in call order. *)
Fixpoint calls (self : ProxyRotator) (draws : list nat)
  : list (result (option proxy)) * ProxyRotator :=
  match draws with
  | [] => ([], self)
  | r :: draws' =>
    let '(a, self') := get_random_proxy self r in
    let '(rest, self'') := calls self' draws' in
    (a :: rest, self'')
  end.

End Rotator.

(** ** [main.py]: [is_shopee_blocking] *)

Module Detector.
Import PyStr Py.

(** What the detector reads from the [page] object it is given. *)
Record page := Page {
  url : result str;                      (* [page.url] *)
  content : result str;                  (* [await page.content()] *)
  query_selector : str -> result bool;   (* an element, or [None] *)
  (** [hasattr(page, 'last_response')], then the attribute ([None] or a
      response), then its [status]. *)
  last_response : option (option (result Z))
}.

Definition block_indicators : list str := [
  lit "驗證資訊失敗";
  lit "抱歉，我們無法驗證資訊，請稍等並再試一次。";
  lit "再試一次";
  lit "請登入蝦皮購物 App";
  lit "抱歉，目前發生了一些錯誤。請下載並登入蝦皮購物 App 以繼續使用。";
  lit "登出"
].

Definition google_button_selectors : list str := [
  quoted "button:has-text(" "Google" ")";
  lit ".google-login";
  lit ".social-white-google-png";
  quoted ".social-login svg[title=" "Google" "]";
  quoted "div[aria-label=" "Continue with Google" "]";
  quoted "img[alt*=" "Google" "]";
  quoted "a[href*=" "accounts.google.com" "]"
].

(** The loop over [google_button_selectors]: a raising [query_selector] is
    passed over by the [except: pass] inside the loop. *)
Fixpoint found_expected_element (probe : str -> result bool) (sels : list str)
  : bool :=
  match sels with
  | [] => false
  | sel :: rest =>
    match probe sel with
    | Ok true => true
    | Ok false => found_expected_element probe rest
    | Raise _ => found_expected_element probe rest
    end
  end.

(** The body of the [try]. *)
Definition checks (p : page) : result bool :=
  match url p with
  | Raise e => Raise e
  | Ok current_url =>
    match content p with
    | Raise e => Raise e
    | Ok page_content =>
      if (len (strip page_content) <? 100)%Z && contains (lit "shopee") current_url
      then Ok true
      else if any_in block_indicators page_content
      then Ok true
      else if negb (found_expected_element (query_selector p) google_button_selectors)
              && contains (lit "shopee") current_url
      then Ok true
      else
        match last_response p with
        | Some (Some (Raise e)) => Raise e
        | Some (Some (Ok status)) => if (400 <=? status)%Z then Ok true else Ok false
        | Some None | None => Ok false
        end
    end
  end.

(** [except Exception: return True]. *)
Definition is_shopee_blocking (p : page) : bool :=
  match checks p with
  | Ok blocked => blocked
  | Raise _ => true
  end.

End Detector.


(** ** [main.py]: [handle_google_login_process] *)

Module Login.
Import PyStr Py.

(** The awaited calls of the function whose value is not used. *)
Inductive site :=
  | InitialWait             (* wait 2000..4000 *)
  | ManualWait              (* wait 120000 *)
  | EmailSelector           (* wait_for_selector('input[type="email"]') *)
  | EmailClick
  | EmailType (i : nat)     (* email_input.type(char) *)
  | EmailPace (i : nat)     (* wait 10..50 *)
  | WaitBeforeNext          (* wait 800..1500 *)
  | NextClick (sel : str)
  | WaitPassword            (* wait 2000..4000 *)
  | PasswordClick
  | PasswordType (i : nat)
  | PasswordPace (i : nat)
  | WaitBeforePasswordNext  (* wait 800..1500 *)
  | PasswordNextClick (sel : str)
  | WaitConsent             (* wait 2000..3000 *)
  | WaitAfterConsent        (* wait 5000 *)
  | ConsentScreenshot
  | LoginErrorScreenshot.

Inductive counted := NextButton | PasswordField | PasswordNextButton.

Record env := Env {
  GOOGLE_EMAIL : option str;
  GOOGLE_PASSWORD : option str;
  step : site -> option exn;
  count : counted -> str -> result nat;   (* [locator(sel).count()] *)
  evaluate_consent : result bool          (* [popup_page.evaluate(consent_js)] *)
}.

Definition next_button_selectors : list str := [
  quoted "div[id=" "identifierNext" "]";
  quoted "button:has-text(" "Next" ")";
  quoted "//div[contains(text(), " "Next" ")]"
].

Definition password_selectors : list str := [
  quoted "input[type=" "password" "]" ++ quoted "[name=" "password" "]";
  quoted "input[aria-label=" "Enter your password" "]";
  quoted "input[type=" "password" "]"
].

Definition password_next_selectors : list str := [
  quoted "div[id=" "passwordNext" "]";
  quoted "button:has-text(" "Next" ")";
  quoted "//div[contains(text(), " "Next" ")]"
].

(** [not GOOGLE_EMAIL]: unset or empty. *)
Definition missing (v : option str) : bool :=
  match v with
  | Some (_ :: _) => false
  | _ => true
  end.

Section Body.
Variable e : env.
Local Open Scope py_scope.

(** [for char in text: await field.type(char, ...); await wait(10..50)] *)
Fixpoint type_chars (typ pace : nat -> site) (text : str) (i : nat)
  : M bool unit :=
  match text with
  | [] => ret tt
  | _ :: rest =>
    call (step e (typ i)) ;;
    wait_for_timeout (step e (pace i)) 10 50 ;;
    type_chars typ pace rest (S i)
  end.

(** The loops that click the first "Next" button present; each selector is
    tried inside its own [try], a failure is printed and the loop goes on. *)
Definition click_first (what : counted) (click : str -> site) (sels : list str)
  : M bool unit :=
  for_break sels (fun sel =>
    try_except
      (n <- ask (count e what sel) ;
       if (0 <? n)%nat
       then call (step e (click sel)) ;; print "Clicked Next" ;; ret true
       else ret false)
      (fun _ => print "Failed to click next" ;; ret false)).

Definition consent_step : M bool unit :=
  try_except
    (print "Looking for consent buttons..." ;;
     clicked <- ask (evaluate_consent e) ;
     (if clicked
      then print "Successfully clicked a consent button via JavaScript"
      else print "No consent buttons found via JavaScript") ;;
     wait_for_timeout (step e WaitAfterConsent) 5000 5000 ;;
     print "Consent handling completed" ;;
     return_ true)
    (fun _ =>
     print "Error during consent handling" ;;
     try_pass (call (step e ConsentScreenshot)) ;;
     (* Still continue as the login may have succeeded *)
     return_ true).

Definition password_step : M bool unit :=
  try_except
    (password_field <- first_present (count e PasswordField) password_selectors ;
     match password_field with
     | Some _ =>
       call (step e PasswordClick) ;;
       type_chars PasswordType PasswordPace (default [] (GOOGLE_PASSWORD e)) O ;;
       print "Password entered" ;;
       wait_for_timeout (step e WaitBeforePasswordNext) 800 1500 ;;
       click_first PasswordNextButton PasswordNextClick password_next_selectors
     | None =>
       print "Password field not found" ;;
       return_ false
     end ;;
     wait_for_timeout (step e WaitConsent) 2000 3000 ;;
     consent_step)
    (fun _ => print "Error during password entry" ;; return_ false).

Definition email_step : M bool unit :=
  try_except
    (call (step e EmailSelector) ;;
     print "Email field found" ;;
     call (step e EmailClick) ;;
     type_chars EmailType EmailPace (default [] (GOOGLE_EMAIL e)) O ;;
     print "Entered email" ;;
     wait_for_timeout (step e WaitBeforeNext) 800 1500 ;;
     click_first NextButton NextClick next_button_selectors ;;
     wait_for_timeout (step e WaitPassword) 2000 4000 ;;
     password_step)
    (fun _ => print "Error during email entry" ;; return_ false).

Definition body : M bool unit :=
  try_except
    (wait_for_timeout (step e InitialWait) 2000 4000 ;;
     if missing (GOOGLE_EMAIL e) || missing (GOOGLE_PASSWORD e)
     then
       print "Google credentials not provided in .env file" ;;
       print "Please login manually in the popup window" ;;
       wait_for_timeout (step e ManualWait) 120000 120000 ;;
       return_ false
     else email_step)
    (fun _ =>
     print "Google login popup handling failed" ;;
     try_pass (call (step e LoginErrorScreenshot)) ;;
     return_ false).

End Body.

(** The call: what the caller of the coroutine gets.  [Some b] is the
    returned value, [None] stands for falling off the end of the function. *)
Definition handle_google_login_process (e : env) (s : st)
  : result (option bool) * st :=
  match body e s with
  | (Returned b, s') => (Ok (Some b), s')
  | (Normal _, s') => (Ok None, s')
  | (Continued, s') => (Ok None, s')
  | (Raised x, s') => (Raise x, s')
  end.

End Login.


(** ** [main.py]: the attempt loop of [main] *)

Module Main.
Import PyStr Py Rotator.
Local Open Scope py_scope.

(** The awaited calls and file writes of one loop iteration whose value is
    not used. *)
Inductive site :=
  | LaunchPersistentContext
  | NewPage
  | AddInitScript
  | StealthAsync
  | Goto
  | WaitStabilize           (* wait 10000 *)
  | LanguageClick
  | LanguageWait            (* wait 1000 *)
  | WaitBeforeSearch        (* wait 1000..3000 *)
  | WaitBeforeClick         (* wait 500..1500 *)
  | ExpectPopup             (* expect_popup, the click, popup_info.value *)
  | WaitRedirect            (* wait 5000..8000 *)
  | WriteCaptchaSuccess
  | WaitCaptcha             (* wait 240000 *)
  | WriteCaptchaError
  | ScreenshotCaptchaError
  | WaitProduct             (* wait 5000 *)
  | Extraction              (* the product fields, screenshot and JSON file *)
  | WriteAppError
  | WriteBlankPage
  | ScreenshotLoginError
  | SaveSuccessInfo
  | WaitKeepOpen            (* wait 30000 *)
  | ScreenshotTimeout
  | ScreenshotError
  | CloseBlocked            (* [browser.close()], line 421 *)
  | CloseNoButton           (* line 465 *)
  | CloseCaptchaError       (* line 561 *)
  | CloseAppError           (* line 720 *)
  | CloseBlankPage          (* line 733 *)
  | CloseLoginError         (* line 740 *)
  | CloseFinish             (* line 766 *)
  | CloseOnTimeout          (* line 774 *)
  | CloseOnError.           (* line 782 *)

(** Everything one iteration reads from outside. *)
Record attempt_env := AttemptEnv {
  draw : nat;                              (* [random.choice] *)
  step : site -> option exn;
  block_page : Detector.page;              (* the page [is_shopee_blocking] sees *)
  language_count : result nat;
  google_button_count : str -> result nat;
  login : Login.env;
  content_after_login : result str;        (* [page.content()], line 495 *)
  captcha_count : str -> result nat;
  content_after_captcha : result str       (* [page.content()], line 528 *)
}.

Definition max_attempts_before_break : nat := 10.

Definition captcha_selectors : list str := [
  quoted "div[id=" "New Captcha" "]";
  quoted "div[id=" "captchaMask" "]"
].

Definition captcha_error_texts : list str := [
  lit "頁面無法顯示";
  lit "發生錯誤！請返回再試一次或回到主頁";
  lit "Page cannot be displayed";
  lit "An error occurred! Please go back and try again or return to the homepage";
  lit "驗證資訊失敗";
  lit "抱歉，目前發生了一些錯誤。請下載並登入蝦皮購物 App 以繼續使用。";
  lit "登出"
].

Definition app_only_error_texts : list str := [
  lit "Please log in to Shopee Shopping App";
  lit "Sorry, some errors have occurred";
  lit "請登入蝦皮購物 App";
  lit "抱歉，目前發生了一些錯誤"
].

Section Attempt.
Variables (this : nat) (proxy_config : proxy) (e : attempt_env).

(** [launch_browser_with_proxy]; the context is named [this]. *)
Definition launch_browser_with_proxy : M unit nat :=
  print "Launching browser with proxy" ;;
  call (step e LaunchPersistentContext) ;;
  open_context this (server proxy_config) ;;
  call (step e NewPage) ;;
  call (step e AddInitScript) ;;
  call (step e StealthAsync) ;;
  ret this.

(** Lines 514 to 694: the captcha branch; its value is the re-read
    [page_content]. *)
Definition captcha_branch : M unit str :=
  print "Successfully logged in - captcha page displayed" ;;
  set_login_success true ;;
  call (step e WriteCaptchaSuccess) ;;
  print "Waiting for captcha to solve itself (up to 4 minutes)..." ;;
  wait_for_timeout (step e WaitCaptcha) 240000 240000 ;;
  page_content <- ask (content_after_captcha e) ;
  print "URL after captcha wait" ;;
  if any_in captcha_error_texts page_content
  then
    print "Captcha failed - received error page" ;;
    set_login_success false ;;
    call (step e WriteCaptchaError) ;;
    call (step e ScreenshotCaptchaError) ;;
    close_browser (step e CloseCaptchaError) ;;
    continue
  else
    print "Captcha solved successfully, proceeding to product page" ;;
    wait_for_timeout (step e WaitProduct) 5000 5000 ;;
    print "Scraping product information..." ;;
    try_except
      (call (step e Extraction) ;;
       emit (EvExtract this) ;;
       emit (EvPersist "product_data.json"))
      (fun _ => print "Error scraping product data") ;;
    ret page_content.

(** Lines 487 to 734: after a login that reported success. *)
Definition post_login : M unit unit :=
  wait_for_timeout (step e WaitRedirect) 5000 8000 ;;
  print "Current URL after login attempt" ;;
  page_content <- ask (content_after_login e) ;
  let captcha_found := first_present_guarded (captcha_count e) captcha_selectors in
  page_content <- (if captcha_found then captcha_branch else ret page_content) ;
  if any_in app_only_error_texts page_content
  then
    print "Login failed - received app-only error page" ;;
    set_login_success false ;;
    call (step e WriteAppError) ;;
    close_browser (step e CloseAppError) ;;
    continue
  else if (len (strip page_content) <? 200)%Z
  then
    print "Login failed - received blank or nearly blank page" ;;
    set_login_success false ;;
    call (step e WriteBlankPage) ;;
    close_browser (step e CloseBlankPage) ;;
    continue
  else ret tt.

(** [await handle_google_login_process(page, popup_page)]. *)
Definition await_login : M unit (option bool) :=
  fun s =>
    match Login.handle_google_login_process (login e) s with
    | (Ok v, s') => (Normal v, s')
    | (Raise x, s') => (Raised x, s')
    end.

(** Lines 469 to 741: the popup and the login, in their own [try]. *)
Definition login_block : M unit unit :=
  set_login_success false ;;
  try_except
    (print "Clicking Google login button and waiting for popup..." ;;
     wait_for_timeout (step e WaitBeforeClick) 500 1500 ;;
     call (step e ExpectPopup) ;;
     print "Google login popup opened" ;;
     login_popup_success <- await_login ;
     match login_popup_success with
     | Some true => post_login
     | Some false | None => ret tt
     end)
    (fun _ =>
     print "Error during Google login process" ;;
     call (step e ScreenshotLoginError) ;;
     close_browser (step e CloseLoginError) ;;
     continue).

(** Lines 743 to 766. *)
Definition finish : M unit unit :=
  ok <- get_login_success ;
  (if ok
   then
     print "Google login process completed successfully" ;;
     try_except
       (call (step e SaveSuccessInfo) ;; emit (EvPersist "successful_access.json"))
       (fun _ => print "Error saving success info") ;;
     set_success true ;;
     wait_for_timeout (step e WaitKeepOpen) 30000 30000
   else print "Google login failed, trying another proxy...") ;;
  close_browser (step e CloseFinish).

(** Lines 428 to 436: the language dialog, in its own [try]. *)
Definition language_dialog : M unit unit :=
  try_except
    (n <- ask (language_count e) ;
     if (0 <? n)%nat
     then
       call (step e LanguageClick) ;;
       print "Selected language: Traditional Chinese" ;;
       wait_for_timeout (step e LanguageWait) 1000 1000
     else ret tt)
    (fun _ => print "Language selection not found or not needed").

(** Lines 768 to 782: [except PlaywrightTimeoutError] and
    [except Exception as e]. *)
Definition on_exception (x : exn) : M unit unit :=
  match exn_class_of x with
  | PlaywrightTimeoutError =>
    print "Timeout occurred, switching to next proxy..." ;;
    try_pass (call (step e ScreenshotTimeout)) ;;
    close_browser (step e CloseOnTimeout)
  | _ =>
    print "Error with current proxy" ;;
    try_pass (call (step e ScreenshotError)) ;;
    close_browser (step e CloseOnError)
  end.

(** Lines 408 to 782: the [try] of one iteration with its two handlers. *)
Definition attempt : M unit unit :=
  try_except
    (b <- launch_browser_with_proxy ;
     assign_browser b ;;
     print "Accessing Shopee..." ;;
     call (step e Goto) ;;
     wait_for_timeout (step e WaitStabilize) 10000 10000 ;;
     if Detector.is_shopee_blocking (block_page e)
     then
       print "Shopee is blocking this proxy, switching to next..." ;;
       close_browser (step e CloseBlocked) ;;
       continue
     else
       print "Successfully accessed Shopee!" ;;
       language_dialog ;;
       wait_for_timeout (step e WaitBeforeSearch) 1000 3000 ;;
       google_button <- first_present (google_button_count e)
                          Detector.google_button_selectors ;
       match google_button with
       | None =>
         print "Google login button not found on current page" ;;
         close_browser (step e CloseNoButton) ;;
         continue
       | Some _ =>
         login_block ;;
         finish
       end)
    on_exception.

End Attempt.

(** What [main] reads from outside: the process environment, the loading
    of the extension, and the world of each attempt (numbered from 1). *)
Record main_env := MainEnv {
  getenv : string -> option str;
  extension_load : option exn;     (* [SadCaptcha(...).load(...)] *)
  playwright_start : option exn;   (* [async with async_playwright() as p] *)
  attempt_envs : nat -> attempt_env
}.

Definition incr_attempts (s : st) : st :=
  St (trace s) (live s) (browser s) (S (attempts s)) (success s) (login_success s).

(** [while not success and attempts < max_attempts_before_break].  [None]
    only when [fuel] iterations were not enough. *)
Fixpoint while_loop (fuel : nat) (envs : nat -> attempt_env)
    (proxy_rotator : ProxyRotator) (s : st)
  : option (outcome unit unit * ProxyRotator * st) :=
  if negb (success s) && (attempts s <? max_attempts_before_break)%nat
  then
    match fuel with
    | O => None
    | S fuel' =>
      let e := envs (S (attempts s)) in
      match get_random_proxy proxy_rotator (draw e) with
      | (Raise x, rot) => Some (Raised x, rot, s)
      | (Ok proxy_config, rot) =>
        let s := incr_attempts s in
        match proxy_config with
        | None =>
          (* [proxy_config['server']] on [None] *)
          Some (Raised (Exn TypeError (lit "'NoneType' object is not subscriptable")),
                rot, s)
        | Some p =>
          match (print "--- Attempt" ;; attempt (attempts s) p e) s with
          | (Normal _, s') | (Continued, s') => while_loop fuel' envs rot s'
          | (Raised x, s') => Some (Raised x, rot, s')
          | (Returned r, s') => Some (Returned r, rot, s')
          end
        end
      end
    end
  else Some (Normal tt, proxy_rotator, s).

Definition initial : st := St [] [] None O false false.

(** [main]: the final state of the run, or [None] when [fuel] was not
    enough for the loop. *)
Definition main (fuel : nat) (w : main_env) : option st :=
  let proxy_rotator := __init__ (getenv w) in
  match proxies proxy_rotator with
  | [] => Some (snd (print (R:=unit) "No proxies found in environment variables!" initial))
  | _ :: _ =>
    let critical (s : st) := snd (print (R:=unit) "Critical error" s) in
    match (print "Loaded proxies" ;;
           call (extension_load w) ;;
           call (R:=unit) (playwright_start w)) initial with
    | (Normal _, s) =>
      match while_loop fuel (attempt_envs w) proxy_rotator
              (St (trace s) (live s) (browser s) O false (login_success s)) with
      | None => None
      | Some (Raised _, _, s') => Some (critical s')
      | Some (_, _, s') =>
        Some (snd ((if success s'
                    then print (R:=unit) "Successfully accessed Shopee and logged in"
                    else print "Failed to access Shopee or login") s'))
      end
    | (_, s) => Some (critical s)
    end
  end.

End Main.


(** ** [api.py]: the [/scrape] endpoint *)

Module Api.
Import PyStr Py.
Local Open Scope py_scope.

Inductive site :=
  | AsyncPlaywright         (* async with async_playwright() as p *)
  | ExtensionLoad
  | LaunchPersistentContext
  | NewPage
  | AddInitScript
  | StealthAsync
  | Goto
  | WaitStabilize           (* wait 10000 *)
  | WaitCaptcha             (* wait 240000 *)
  | WaitProduct             (* wait 5000 *)
  | CloseCaptchaFailed      (* [browser.close()], line 245 *)
  | CloseScraped            (* line 260 *)
  | CloseOnTimeout          (* line 270 *)
  | CloseOnError.           (* line 277 *)

Inductive field := Title | Price | Description | Seller.

Record env := Env {
  custom_proxy_server : option str;              (* [os.getenv] *)
  step : site -> option exn;
  captcha_count : str -> result nat;
  content_after_captcha : result str;
  field_count : field -> str -> result nat;      (* [locator(sel).count()] *)
  field_text : field -> str -> result str;       (* [locator(sel).text()] *)
  image_count : str -> result nat;
  image_src : str -> nat -> result (option str); (* [nth(i).get_attribute('src')] *)
  page_url : str
}.

Record product_data := ProductData {
  title : option str;
  price : option str;
  description : option str;
  image_urls : option (list str);
  seller : option str;
  url : str
}.

(** [ScrapingResponse(success, data, message)]. *)
Record ScrapingResponse := Response {
  success : bool;
  data : option product_data;
  message : option str
}.

Definition selectors (f : field) : list str :=
  match f with
  | Title => [
      lit ".pdp-mod-product-badge-title"; lit ".product-title"; lit "h1.pdp-title";
      quoted "h1[data-testid=" "pdp-product-title" "]";
      lit ".product-detail-panel__header__title" ]
  | Price => [
      lit ".pdp-price"; lit ".product-price"; lit ".pdp-mod-product-price";
      quoted "div[data-testid=" "pdp-product-price" "]";
      lit ".product-detail-panel__price" ]
  | Description => [
      lit ".pdp-product-desc"; lit ".product-description"; lit ".pdp-mod-product-desc";
      quoted "div[data-testid=" "pdp-product-desc" "]";
      lit ".product-detail-panel__description" ]
  | Seller => [
      lit ".pdp-seller-info-name"; lit ".product-seller-name"; lit ".pdp-shop-name";
      quoted "div[data-testid=" "pdp-shop-name" "]";
      lit ".product-detail-panel__seller" ]
  end.

Definition image_selectors : list str := [
  lit ".pdp-mod-product-image img"; lit ".product-image img";
  lit ".pdp-product-image img";
  quoted "img[data-testid=" "pdp-product-image" "]";
  lit ".product-detail-panel__image img"
].

Definition captcha_selectors : list str := [
  quoted "div[id=" "New Captcha" "]";
  quoted "div[id=" "captchaMask" "]"
].

Definition captcha_error_texts : list str := [
  lit "頁面無法顯示";
  lit "發生錯誤！請返回再試一次或回到主頁";
  lit "Page cannot be displayed";
  lit "An error occurred! Please go back and try again or return to the homepage";
  lit "驗證資訊失敗";
  lit "抱歉，目前發生了一些錯誤。請下載並登入蝦皮購物 App 以繼續使用。";
  lit "登出"
].

(** One field loop: the first selector that is present and whose text can
    be read; any exception is passed over and the next selector is tried. *)
Fixpoint first_text (count : str -> result nat) (text : str -> result str)
    (sels : list str) : option str :=
  match sels with
  | [] => None
  | sel :: rest =>
    match count sel with
    | Ok n =>
      if (0 <? n)%nat
      then match text sel with
           | Ok t => Some t
           | Raise _ => first_text count text rest
           end
      else first_text count text rest
    | Raise _ => first_text count text rest
    end
  end.

(** [for i in range(count)]: append every non-empty [src] not yet in
    [image_urls].  [false] when a [get_attribute] raised; what was appended
    before stays in the list. *)
Fixpoint collect_srcs (src : nat -> result (option str)) (idxs : list nat)
    (image_urls : list str) : bool * list str :=
  match idxs with
  | [] => (true, image_urls)
  | i :: rest =>
    match src i with
    | Ok (Some (c :: u)) =>
      if decide ((c :: u) ∈ image_urls)
      then collect_srcs src rest image_urls
      else collect_srcs src rest (image_urls ++ [c :: u])
    | Ok _ => collect_srcs src rest image_urls
    | Raise _ => (false, image_urls)
    end
  end.

Fixpoint first_images (e : env) (sels : list str) (image_urls : list str)
  : option (list str) :=
  match sels with
  | [] => None
  | sel :: rest =>
    match image_count e sel with
    | Ok n =>
      if (0 <? n)%nat
      then
        let '(completed, image_urls) :=
          collect_srcs (image_src e sel) (seq 0 n) image_urls in
        if completed : bool then Some image_urls else first_images e rest image_urls
      else first_images e rest image_urls
    | Raise _ => first_images e rest image_urls
    end
  end.

Definition scrape_product_data (e : env) : product_data :=
  let get f := first_text (field_count e f) (field_text e f) (selectors f) in
  ProductData (get Title) (get Price) (get Description)
    (first_images e image_selectors []) (get Seller) (page_url e).

(** [launch_browser_with_proxy(playwright)] of [api.py]. *)
Definition launch_browser_with_proxy (e : env) : M ScrapingResponse nat :=
  call (step e ExtensionLoad) ;;
  print "Launching browser" ;;
  call (step e LaunchPersistentContext) ;;
  open_context 1%nat (default [] (custom_proxy_server e)) ;;
  call (step e NewPage) ;;
  call (step e AddInitScript) ;;
  call (step e StealthAsync) ;;
  ret 1%nat.

Definition scrape_shopee_product (e : env) : M ScrapingResponse unit :=
  try_except
    (call (step e AsyncPlaywright) ;;
     b <- launch_browser_with_proxy e ;
     assign_browser b ;;
     try_except
       (print "Accessing URL" ;;
        call (step e Goto) ;;
        wait_for_timeout (step e WaitStabilize) 10000 10000 ;;
        (if first_present_guarded (captcha_count e) captcha_selectors
         then
           print "Captcha page displayed - waiting for captcha to solve..." ;;
           wait_for_timeout (step e WaitCaptcha) 240000 240000 ;;
           page_content <- ask (content_after_captcha e) ;
           if any_in captcha_error_texts page_content
           then
             close_browser (step e CloseCaptchaFailed) ;;
             return_ (Response false None
                        (Some (lit "Captcha failed - received error page")))
           else print "Captcha solved successfully, proceeding to product page"
         else ret tt) ;;
        wait_for_timeout (step e WaitProduct) 5000 5000 ;;
        let product_data := scrape_product_data e in
        close_browser (step e CloseScraped) ;;
        return_ (Response true (Some product_data)
                   (Some (lit "Product data scraped successfully"))))
       (fun x =>
        match exn_class_of x with
        | PlaywrightTimeoutError =>
          close_browser (step e CloseOnTimeout) ;;
          return_ (Response false None
                     (Some (lit "Timeout occurred while accessing the product page")))
        | _ =>
          close_browser (step e CloseOnError) ;;
          return_ (Response false None
                     (Some (lit "Error during scraping: " ++ exn_text x)))
        end))
    (fun x => raise (Exn (HTTPException 500) (lit "Server error: " ++ exn_text x))).

(** What the HTTP client receives: the JSON of the returned model, or the
    status and [detail] of a raised [HTTPException]; any other way out of
    the handler is the framework's bare 500. *)
Inductive reply :=
  | Json (r : ScrapingResponse)
  | HttpError (status_code : Z) (detail : str)
  | InternalServerError.

Definition post_scrape (e : env) : reply :=
  match scrape_shopee_product e Main.initial with
  | (Returned r, _) => Json r
  | (Raised (Exn (HTTPException c) d), _) => HttpError c d
  | _ => InternalServerError
  end.

End Api.


(** ** Vocabulary of the properties *)

Module Spec.
Import PyStr Py.

(** [t] occurs in [c]. *)
Definition substring (t c : str) : Prop := exists l r, c = l ++ t ++ r.

(** [s'] is [s] after the events [evs] (newest first). *)
Definition extends (s s' : st) (evs : list event) : Prop :=
  trace s' = evs ++ trace s.

(** Everything but the log is as before. *)
Definition same_locals (s s' : st) : Prop :=
  live s' = live s /\ browser s' = browser s /\ attempts s' = attempts s
  /\ success s' = success s /\ login_success s' = login_success s.

(** Weakest precondition of a block: [Q] holds of the way it ends and of
    the state it leaves. *)
Definition wp {R A} (m : M R A) (Q : outcome R A -> st -> Prop) (s : st) : Prop :=
  Q (fst (m s)) (snd (m s)).

(** A block that ends normally or by an exception, never by [return] or
    [continue]. *)
Definition plain {R A} (r : outcome R A) : Prop :=
  match r with
  | Normal _ | Raised _ => True
  | Returned _ | Continued => False
  end.

(** The log of [s'] is the log of [s] with new events in front, all of
    them in [P]. *)
Definition grows_by (P : event -> Prop) (s s' : st) : Prop :=
  exists evs, trace s' = evs ++ trace s /\ Forall P evs.

(** A block that only writes to the log: it ends normally or by an
    exception, leaves the locals and the live contexts alone, and logs
    events in [P] only. *)
Definition gentle (P : event -> Prop) {R A} (m : M R A) : Prop :=
  forall s, plain (fst (m s)) /\ same_locals s (snd (m s))
            /\ grows_by P s (snd (m s)).

(** A block that does not touch the state at all. *)
Definition silent {R A} (m : M R A) : Prop :=
  forall s, plain (fst (m s)) /\ snd (m s) = s.

(** The line that opens consent handling in the login orchestrator. *)
Definition consent_line : event := EvPrint "Looking for consent buttons...".

(** What the login orchestrator may log: prints, and waits of at most the
    manual-completion wait. *)
Definition login_event (ev : event) : Prop :=
  match ev with
  | EvPrint _ => True
  | EvWait _ hi => (hi <= 120000)%Z
  | _ => False
  end.

Definition before_consent (ev : event) : Prop :=
  login_event ev /\ ev <> consent_line.

(** A block of the orchestrator that comes before consent handling: it
    may end normally, raise, or return [False]. *)
Definition pre_consent {A} (m : M bool A) : Prop :=
  forall s,
    same_locals s (snd (m s)) /\ grows_by before_consent s (snd (m s))
    /\ match fst (m s) with
       | Normal _ | Raised _ | Returned false => True
       | Returned true | Continued => False
       end.

(** A block that decides the orchestrator's answer: [True] only with
    consent handling begun; anything else without it having begun in this
    block.  A [strict] block never lets an exception out. *)
Definition deciding (strict : bool) (m : M bool unit) : Prop :=
  forall s,
    same_locals s (snd (m s)) /\ grows_by login_event s (snd (m s))
    /\ match fst (m s) with
       | Returned true => In consent_line (trace (snd (m s)))
       | Returned false =>
         In consent_line (trace (snd (m s))) -> In consent_line (trace s)
       | Raised _ =>
         strict = false
         /\ (In consent_line (trace (snd (m s))) -> In consent_line (trace s))
       | Normal _ | Continued => False
       end.

(** Credentials configured, every step of the popup works, and the script
    that looks for a consent button raises. *)
Definition env_with_failing_consent : Login.env :=
  Login.Env (Some (lit "user@example.com")) (Some (lit "secret"))
    (fun _ => None) (fun _ _ => Ok 1%nat)
    (Raise (Exn OtherException (lit "Execution context was destroyed"))).

(** No credentials configured; the driver works. *)
Definition env_without_credentials : Login.env :=
  Login.Env None None (fun _ => None) (fun _ _ => Ok 0%nat) (Ok false).

(** How the wait for the captcha ended, read off the log: the newest of
    the two lines the source prints for it. *)
Inductive captcha_verdict := CaptchaError | CaptchaSuccess.

Fixpoint captcha_verdict_of (log : list event) : option captcha_verdict :=
  match log with
  | [] => None
  | EvPrint line :: older =>
    if decide (line = "Captcha failed - received error page"%string)
    then Some CaptchaError
    else if decide (line = "Captcha solved successfully, proceeding to product page"%string)
    then Some CaptchaSuccess
    else captcha_verdict_of older
  | _ :: older => captcha_verdict_of older
  end.

(** A page on which nothing is wrong: long enough, no indicator, the
    sign-in button is there. *)
Definition healthy_page : Detector.page :=
  Detector.Page (Ok (lit "https://shopee.tw/---i.31188538.19323502897"))
    (Ok (replicate 500 97)) (fun _ => Ok true) (Some None).

(** The world of an attempt in which every call works, the login is done
    with credentials, and [captcha] tells how many elements the captcha
    selectors match; the page content after the login and after the wait
    are given. *)
Definition smooth_attempt (captcha : nat) (after_login after_captcha : str)
  : Main.attempt_env :=
  Main.AttemptEnv 0 (fun _ => None) healthy_page (Ok 0%nat) (fun _ => Ok 1%nat)
    (Login.Env (Some (lit "user@example.com")) (Some (lit "secret"))
       (fun _ => None) (fun _ _ => Ok 1%nat) (Ok true))
    (Ok after_login) (fun _ => Ok captcha) (Ok after_captcha).

(** The world of a [/scrape] request in which every call works and
    [captcha] tells how many elements the captcha selectors match. *)
Definition smooth_request (captcha : nat) (after_captcha : str) : Api.env :=
  Api.Env None (fun _ => None) (fun _ => Ok captcha) (Ok after_captcha)
    (fun _ _ => Ok 0%nat) (fun _ _ => Ok []) (fun _ => Ok 0%nat)
    (fun _ _ => Ok None) (lit "https://shopee.tw/product").

(** The browser of the request was launched. *)
Definition launched (e : Api.env) : Prop :=
  Api.step e Api.AsyncPlaywright = None
  /\ Api.step e Api.ExtensionLoad = None
  /\ Api.step e Api.LaunchPersistentContext = None
  /\ Api.step e Api.NewPage = None
  /\ Api.step e Api.AddInitScript = None
  /\ Api.step e Api.StealthAsync = None.

(** The first call of a sequence that raises, and what it raises. *)
Fixpoint first_raised (answers : list (option exn)) : option exn :=
  match answers with
  | [] => None
  | Some x :: _ => Some x
  | None :: rest => first_raised rest
  end.

(** What keeps the browser of a request from being launched: the first
    of the calls of the launch, in the order of the source, that raises. *)
Definition launch_fault (e : Api.env) : option exn :=
  first_raised
    [Api.step e Api.AsyncPlaywright; Api.step e Api.ExtensionLoad;
     Api.step e Api.LaunchPersistentContext; Api.step e Api.NewPage;
     Api.step e Api.AddInitScript; Api.step e Api.StealthAsync].

(** A captcha selector matched and the page read after the wait shows one
    of the captcha error texts. *)
Definition captcha_failed (e : Api.env) : bool :=
  first_present_guarded (Api.captcha_count e) Api.captcha_selectors
  && match Api.content_after_captcha e with
     | Ok page_content => any_in Api.captcha_error_texts page_content
     | Raise _ => false
     end.

(** The calls into the driver between the launch and the [return] of a
    request, in the order of the source: navigation and the wait after it;
    with a captcha, the wait for it and the reading of the page; then
    either the [browser.close()] before "Captcha failed" is returned, or
    the wait for the product page and the [browser.close()] before the
    product is returned. *)
Definition body_calls (e : Api.env) : list (option exn) :=
  [Api.step e Api.Goto; Api.step e Api.WaitStabilize]
  ++ (if first_present_guarded (Api.captcha_count e) Api.captcha_selectors
      then [Api.step e Api.WaitCaptcha;
            match Api.content_after_captcha e with
            | Raise x => Some x
            | Ok _ => None
            end]
      else [])
  ++ (if captcha_failed e
      then [Api.step e Api.CloseCaptchaFailed]
      else [Api.step e Api.WaitProduct; Api.step e Api.CloseScraped]).

(** The exception that takes a launched request into one of its two
    handlers: what the first raising call of the body raises. *)
Definition body_fault (e : Api.env) : option exn := first_raised (body_calls e).

(** The [browser.close()] of the handler that catches [x]. *)
Definition handler_close (x : exn) : Api.site :=
  match exn_class_of x with
  | PlaywrightTimeoutError => Api.CloseOnTimeout
  | _ => Api.CloseOnError
  end.

(** Every [browser.close()] of the request works. *)
Definition closes_work (e : Api.env) : Prop :=
  Api.step e Api.CloseCaptchaFailed = None
  /\ Api.step e Api.CloseScraped = None
  /\ Api.step e Api.CloseOnTimeout = None
  /\ Api.step e Api.CloseOnError = None.

(** The request of [api.py] comes as far as the captcha wait and reads
    [page_content] after it: the browser is launched, the page is reached,
    a captcha selector matches, and the wait and the reading of the page
    work. *)
Definition reaches_captcha_wait (e : Api.env) (page_content : str) : Prop :=
  launched e
  /\ Api.step e Api.Goto = None
  /\ Api.step e Api.WaitStabilize = None
  /\ first_present_guarded (Api.captcha_count e) Api.captcha_selectors = true
  /\ Api.step e Api.WaitCaptcha = None
  /\ Api.content_after_captcha e = Ok page_content.

(** The answers the [/scrape] endpoint can give, and when it gives them. *)
Inductive scrape_answer (e : Api.env) : Api.reply -> Prop :=
  | answer_scraped :
      launch_fault e = None -> body_fault e = None -> captcha_failed e = false ->
      scrape_answer e
        (Api.Json (Api.Response true (Some (Api.scrape_product_data e))
                     (Some (lit "Product data scraped successfully"))))
  | answer_captcha_failed :
      launch_fault e = None -> body_fault e = None -> captcha_failed e = true ->
      scrape_answer e
        (Api.Json (Api.Response false None
                     (Some (lit "Captcha failed - received error page"))))
  | answer_timeout (x : exn) :
      launch_fault e = None -> body_fault e = Some x ->
      exn_class_of x = PlaywrightTimeoutError ->
      Api.step e Api.CloseOnTimeout = None ->
      scrape_answer e
        (Api.Json (Api.Response false None
                     (Some (lit "Timeout occurred while accessing the product page"))))
  | answer_error (x : exn) :
      launch_fault e = None -> body_fault e = Some x ->
      exn_class_of x <> PlaywrightTimeoutError ->
      Api.step e Api.CloseOnError = None ->
      scrape_answer e
        (Api.Json (Api.Response false None
                     (Some (lit "Error during scraping: " ++ exn_text x))))
  | answer_launch_error (x : exn) :
      launch_fault e = Some x ->
      scrape_answer e
        (Api.HttpError 500 (lit "Server error: " ++ exn_text x))
  | answer_close_error (x y : exn) :
      launch_fault e = None -> body_fault e = Some x ->
      Api.step e (handler_close x) = Some y ->
      scrape_answer e
        (Api.HttpError 500 (lit "Server error: " ++ exn_text y)).

(** The answer of the endpoint told from the first call that raises: the
    rule the cases of [scrape_answer] spell out, as a function. *)
Definition answer_by_first_fault (e : Api.env) : Api.reply :=
  match launch_fault e with
  | Some x => Api.HttpError 500 (lit "Server error: " ++ exn_text x)
  | None =>
    match body_fault e with
    | None =>
      if captcha_failed e
      then Api.Json (Api.Response false None
                       (Some (lit "Captcha failed - received error page")))
      else Api.Json (Api.Response true (Some (Api.scrape_product_data e))
                       (Some (lit "Product data scraped successfully")))
    | Some x =>
      match Api.step e (handler_close x) with
      | Some y => Api.HttpError 500 (lit "Server error: " ++ exn_text y)
      | None =>
        match exn_class_of x with
        | PlaywrightTimeoutError =>
          Api.Json (Api.Response false None
                      (Some (lit "Timeout occurred while accessing the product page")))
        | _ =>
          Api.Json (Api.Response false None
                      (Some (lit "Error during scraping: " ++ exn_text x)))
        end
      end
    end
  end.

(** A request during which navigation fails with a driver error. *)
Definition request_with_failing_goto : Api.env :=
  Api.Env None
    (fun site =>
       match site with
       | Api.Goto => Some (Exn OtherException (lit "net::ERR_PROXY_CONNECTION_FAILED"))
       | _ => None
       end)
    (fun _ => Ok 0%nat) (Ok []) (fun _ _ => Ok 0%nat) (fun _ _ => Ok [])
    (fun _ => Ok 0%nat) (fun _ _ => Ok None) (lit "https://shopee.tw/product").

(** A request for which the browser cannot be launched. *)
Definition request_with_failing_launch : Api.env :=
  Api.Env None
    (fun site =>
       match site with
       | Api.LaunchPersistentContext =>
         Some (Exn OtherException (lit "Executable doesn't exist"))
       | _ => None
       end)
    (fun _ => Ok 0%nat) (Ok []) (fun _ _ => Ok 0%nat) (fun _ _ => Ok [])
    (fun _ => Ok 0%nat) (fun _ _ => Ok None) (lit "https://shopee.tw/product").

(** A request whose navigation fails and whose handler cannot close the
    browser either. *)
Definition request_with_failing_close : Api.env :=
  Api.Env None
    (fun site =>
       match site with
       | Api.Goto => Some (Exn OtherException (lit "net::ERR_PROXY_CONNECTION_FAILED"))
       | Api.CloseOnError =>
         Some (Exn OtherException (lit "Target page, context or browser has been closed"))
       | _ => None
       end)
    (fun _ => Ok 0%nat) (Ok []) (fun _ _ => Ok 0%nat) (fun _ _ => Ok [])
    (fun _ => Ok 0%nat) (fun _ _ => Ok None) (lit "https://shopee.tw/product").

(** The fixed wait for the captcha to be solved. *)
Definition captcha_wait : event := EvWait 240000 240000.

(** No challenge marker on the page: none of the captcha selectors matches. *)
Definition no_challenge_marker (e : Main.attempt_env) : Prop :=
  first_present_guarded (Main.captcha_count e) Main.captcha_selectors = false.

(** The browser of the attempt was launched and handed to [main]. *)
Definition launch_completes (e : Main.attempt_env) : Prop :=
  Main.step e Main.LaunchPersistentContext = None
  /\ Main.step e Main.NewPage = None
  /\ Main.step e Main.AddInitScript = None
  /\ Main.step e Main.StealthAsync = None.

(** What a block of an iteration leaves alone, whichever of its calls
    raise: the attempt counter and the binding of [browser] stay, and the
    captcha wait is not logged when [quiet] holds. *)
Definition block_post (quiet : Prop) (s s' : st) : Prop :=
  attempts s' = attempts s
  /\ browser s' = browser s
  /\ (quiet -> In captcha_wait (trace s') -> In captcha_wait (trace s)).

(** Every [browser.close()] of an iteration works. *)
Definition attempt_closes_work (e : Main.attempt_env) : Prop :=
  Main.step e Main.CloseBlocked = None
  /\ Main.step e Main.CloseNoButton = None
  /\ Main.step e Main.CloseCaptchaError = None
  /\ Main.step e Main.CloseAppError = None
  /\ Main.step e Main.CloseBlankPage = None
  /\ Main.step e Main.CloseLoginError = None
  /\ Main.step e Main.CloseFinish = None
  /\ Main.step e Main.CloseOnTimeout = None
  /\ Main.step e Main.CloseOnError = None.

(** What a block of an iteration does to the live browser contexts: the
    context [this] is closed, or they stay as they are; the binding of
    [browser] stays. *)
Definition live_post (this : nat) (closed : bool) (s s' : st) : Prop :=
  browser s' = browser s
  /\ live s' = (if closed then filter (fun x => x <> this) (live s) else live s).


(** The opens and closes of a log, oldest first. *)
Inductive session_event := Opened (session : nat) | Closed (session : nat).

Definition sessions (log : list event) : list session_event :=
  flat_map (fun ev => match ev with
                      | EvOpen b _ => [Opened b]
                      | EvClose b => [Closed b]
                      | _ => []
                      end) (rev log).


(** A process environment with two proxies configured. *)
Definition two_proxies (name : string) : option str :=
  if decide (name = "CUSTOM_PROXY_SERVER"%string) then Some (lit "http://proxy-a:8000")
  else if decide (name = "GEONODE_PROXY_SERVER"%string) then Some (lit "http://proxy-b:9000")
  else None.

(** An attempt that meets a blank page: the detector answers "blocked". *)
Definition blocked_attempt : Main.attempt_env :=
  Main.AttemptEnv 0 (fun _ => None)
    (Detector.Page (Ok (lit "https://shopee.tw/")) (Ok []) (fun _ => Ok false) (Some None))
    (Ok 0%nat) (fun _ => Ok 0%nat) env_without_credentials (Ok []) (fun _ => Ok 0%nat)
    (Ok []).

(** An attempt in which the browser context is launched and [new_page]
    then raises. *)
Definition attempt_with_failing_new_page : Main.attempt_env :=
  Main.AttemptEnv 0
    (fun site =>
       match site with
       | Main.NewPage => Some (Exn OtherException (lit "Target page, context or browser has been closed"))
       | _ => None
       end)
    healthy_page (Ok 0%nat) (fun _ => Ok 1%nat) env_without_credentials (Ok [])
    (fun _ => Ok 0%nat) (Ok []).




(** [new_page] fails in the first attempt. *)
Definition world_failing_first_launch : Main.main_env :=
  Main.MainEnv two_proxies None None
    (fun n => if decide (n = 1%nat) then attempt_with_failing_new_page else blocked_attempt).

(** [new_page] fails in the second attempt, every other attempt is
    blocked. *)
Definition world_failing_second_launch : Main.main_env :=
  Main.MainEnv two_proxies None None
    (fun n => if decide (n = 2%nat) then attempt_with_failing_new_page else blocked_attempt).

(** An attempt in which everything goes right and the challenge is
    solved: every awaited call works, the detector does not block, the
    sign-in button is found, the login reports success, a challenge marker
    is present, and the page read after the wait shows no captcha error, no
    app-only error and is not nearly blank. *)
Definition solved_attempt (e : Main.attempt_env) (page_content : str) : Prop :=
  (forall site, Main.step e site = None)
  /\ Detector.is_shopee_blocking (Main.block_page e) = false
  /\ (exists sel, forall s,
        first_present (R:=unit) (Main.google_button_count e)
          Detector.google_button_selectors s = (Normal (Some sel), s))
  /\ (forall s, fst (Login.handle_google_login_process (Main.login e) s)
                = Ok (Some true))
  /\ (exists c0, Main.content_after_login e = Ok c0)
  /\ first_present_guarded (Main.captcha_count e) Main.captcha_selectors = true
  /\ Main.content_after_captcha e = Ok page_content
  /\ any_in Main.captcha_error_texts page_content = false
  /\ any_in Main.app_only_error_texts page_content = false
  /\ (len (strip page_content) <? 200)%Z = false.

(** An attempt in which everything goes right and no challenge appears:
    as above up to the login, then no challenge marker, and the page read
    after the login shows no app-only error and is not nearly blank. *)
Definition unchallenged_attempt (e : Main.attempt_env) (page_content : str) : Prop :=
  (forall site, Main.step e site = None)
  /\ Detector.is_shopee_blocking (Main.block_page e) = false
  /\ (exists sel, forall s,
        first_present (R:=unit) (Main.google_button_count e)
          Detector.google_button_selectors s = (Normal (Some sel), s))
  /\ (forall s, fst (Login.handle_google_login_process (Main.login e) s)
                = Ok (Some true))
  /\ Main.content_after_login e = Ok page_content
  /\ no_challenge_marker e
  /\ any_in Main.app_only_error_texts page_content = false
  /\ (len (strip page_content) <? 200)%Z = false.

(** A proxy to run single attempts with. *)
Definition some_proxy : Rotator.proxy :=
  Rotator.Proxy (lit "http://proxy-a:8000") None None.

(** The prefixes of the environment variables [_load_proxies_from_env]
    looks at, in its order. *)
Definition proxy_prefixes : list string :=
  "CUSTOM_PROXY"%string :: "GEONODE_PROXY"%string
  :: (Rotator.numbered_prefix <$> seq 1 9).

(** The tried set holds servers of the pool only. *)
Definition tried_in_pool (self : Rotator.ProxyRotator) : Prop :=
  Rotator.tried_proxies self
  ⊆ list_to_set (Rotator.server <$> Rotator.proxies self).





(** The detector answers "blocked" in attempt [n], which gets as far as
    the detector, and the [browser.close()] that follows the answer
    works. *)
Definition blocked_at (w : Main.main_env) (n : nat) : Prop :=
  launch_completes (Main.attempt_envs w n)
  /\ Main.step (Main.attempt_envs w n) Main.Goto = None
  /\ Main.step (Main.attempt_envs w n) Main.WaitStabilize = None
  /\ Detector.is_shopee_blocking (Main.block_page (Main.attempt_envs w n)) = true
  /\ Main.step (Main.attempt_envs w n) Main.CloseBlocked = None.

(** Attempts 1 and 2 are blocked, attempt 3 solves the challenge. *)
Definition world_third_time_lucky : Main.main_env :=
  Main.MainEnv two_proxies None None
    (fun n => if decide (n = 3%nat)
              then smooth_attempt 1 (replicate 500 97) (replicate 500 98)
              else blocked_attempt).

(** An attempt whose navigation runs into the driver's timeout. *)
Definition attempt_with_goto_timeout : Main.attempt_env :=
  Main.AttemptEnv 0
    (fun site =>
       match site with
       | Main.Goto => Some (Exn PlaywrightTimeoutError (lit "Timeout 120000ms exceeded."))
       | _ => None
       end)
    healthy_page (Ok 0%nat) (fun _ => Ok 1%nat) env_without_credentials (Ok [])
    (fun _ => Ok 0%nat) (Ok []).

(** The page read after the captcha wait passes every check between the
    wait and the success flag: no captcha error text, no app-only error
    text, and at least 200 characters once stripped. *)
Definition accepted_content (e : Main.attempt_env) : Prop :=
  exists page_content,
    Main.content_after_captcha e = Ok page_content
    /\ any_in Main.captcha_error_texts page_content = false
    /\ any_in Main.app_only_error_texts page_content = false
    /\ (len (strip page_content) <? 200)%Z = false.

(** A selector of a field loop that is present and whose text can be
    read. *)
Definition readable (count : str -> result nat) (text : str -> result str)
    (sel t : str) : Prop :=
  exists n, count sel = Ok n /\ (0 < n)%nat /\ text sel = Ok t.

(** A field of the scraped product. *)
Definition field_of (f : Api.field) (d : Api.product_data) : option str :=
  match f with
  | Api.Title => Api.title d
  | Api.Price => Api.price d
  | Api.Description => Api.description d
  | Api.Seller => Api.seller d
  end.

(** A product page whose image selectors each match three elements: two
    with the same [src] and one without. *)
Definition request_with_images : Api.env :=
  Api.Env None (fun _ => None) (fun _ => Ok 0%nat) (Ok [])
    (fun _ _ => Ok 0%nat) (fun _ _ => Ok [])
    (fun _ => Ok 3%nat)
    (fun _ i => match i with
                | 0%nat | 1%nat => Ok (Some (lit "https://cf.shopee.tw/file/a.jpg"))
                | _ => Ok None
                end)
    (lit "https://shopee.tw/product").

(** The detector's selector probes with every raising probe answered
    "no element". *)
Definition probe_faults_as_absent (probe : str -> result bool) (sel : str)
  : result bool :=
  match probe sel with
  | Raise _ => Ok false
  | answer => answer
  end.

(** One of the probes the detector's selector loop performs raises (the
    loop stops at the first element it finds). *)
Fixpoint probe_raised (probe : str -> result bool) (sels : list str) : bool :=
  match sels with
  | [] => false
  | sel :: rest =>
    match probe sel with
    | Ok true => false
    | Ok false => probe_raised probe rest
    | Raise _ => true
    end
  end.

(** A page that is not blank, shows no block indicator, whose first probe
    for the sign-in button raises and whose second probe finds it. *)
Definition page_with_failing_probe : Detector.page :=
  Detector.Page
    (Ok (lit "https://shopee.tw/buyer/login"))
    (Ok (replicate 150 97))
    (fun sel =>
       if decide (sel = quoted "button:has-text(" "Google" ")")
       then Raise (Exn OtherException (lit "Target closed"))
       else if decide (sel = lit ".google-login") then Ok true else Ok false)
    (Some None).

End Spec.


(** ** Tactics *)

(** Symbolic execution of a block on a state written out as a record. *)
Ltac exec :=
  cbv beta iota zeta delta
      [Py.bind Py.ret Py.raise Py.return_ Py.continue Py.try_except Py.try_pass
       Py.emit Py.print Py.call Py.ask Py.wait_for_timeout Py.set_login_success
       Py.set_success Py.get_login_success Py.close_browser Py.assign_browser
       Py.open_context fst snd Py.trace Py.live Py.browser Py.attempts
       Py.success Py.login_success].

(** Case analysis on the innermost undecided test of the goal. *)
Ltac split_step :=
  match goal with
  | |- context [match ?x with _ => _ end] =>
    lazymatch x with
    | context [match _ with _ => _ end] => fail
    | _ => destruct x eqn:?; exec
    end
  end.

(** The facts of a leaf of the symbolic execution. *)
Ltac in_wait :=
  repeat match goal with
  | H : In Spec.captcha_wait (_ :: _) |- _ => destruct H as [H|H]; [discriminate H|]
  | Hw : _ -> In Spec.captcha_wait ?t -> _, H : In Spec.captcha_wait ?t |- _ =>
    apply Hw in H; [|first [assumption | exact I]]
  | Hw : In Spec.captcha_wait ?t -> _, H : In Spec.captcha_wait ?t |- _ =>
    apply Hw in H
  end;
  try assumption.

Ltac leaf :=
  unfold Spec.block_post;
  cbv beta iota zeta delta
      [fst snd Py.trace Py.live Py.browser Py.attempts Py.success Py.login_success];
  repeat match goal with a : unit |- _ => destruct a end;
  repeat split; try done; try (left; reflexivity); try (right; reflexivity);
  try (intros;
       repeat match goal with
              | Hq : ?Q, Hi : ?Q -> _ |- _ => specialize (Hi Hq)
              end;
       subst;
       first [ solve [auto]
             | unfold Spec.no_challenge_marker in *; congruence
             | in_wait ]).

(** The facts a finished sub-block hands to the rest of the execution. *)
Ltac learn H :=
  unfold Spec.block_post, Spec.same_locals in H;
  cbv beta iota zeta delta
      [fst snd Py.trace Py.live Py.browser Py.attempts Py.success Py.login_success]
    in H;
  destruct_and?; try done; subst; exec.

(** Membership in a log that is written out. *)
Ltac logged := simpl; repeat first [left; reflexivity | right].

(* ================================================================== *)
(** * Properties *)
(* ================================================================== *)

(** ** Facts about Python strings *)

Section PyStrFacts.
Import PyStr.

Lemma prefix_of_spec (p s : str) :
  prefix_of p s = true <-> exists t, s = p ++ t.
Proof.
  revert s; induction p as [|a p IH]; intros s; simpl.
  - split; [intros _; by exists s | done].
  - destruct s as [|b s].
    + split; [done | intros [t Ht]; discriminate].
    + rewrite andb_true_iff, N.eqb_eq, IH. split.
      * intros [-> [t ->]]. by exists t.
      * intros [t Ht]. injection Ht as -> ->. eauto.
Qed.

Lemma prefix_of_app (p t : str) : prefix_of p (p ++ t) = true.
Proof. apply prefix_of_spec; eauto. Qed.

Lemma contains_spec (sub s : str) :
  contains sub s = true <-> exists l r, s = l ++ sub ++ r.
Proof.
  induction s as [|c s IH]; simpl.
  - rewrite orb_false_r, prefix_of_spec. split.
    + intros [t Ht]. by exists [], t.
    + intros (l & r & H). symmetry in H.
      apply app_eq_nil in H as [-> H]. exists r. by rewrite H.
  - rewrite orb_true_iff, prefix_of_spec, IH. split.
    + intros [[t Ht] | (l & r & ->)].
      * by exists [], t.
      * by exists (c :: l), r.
    + intros (l & r & H). destruct l as [|c' l]; simpl in H.
      * left. by exists r.
      * right. injection H as -> ->. by exists l, r.
Qed.

Lemma contains_false_suffix (sub l s : str) :
  contains sub (l ++ s) = false -> contains sub s = false.
Proof.
  intros H. destruct (contains sub s) eqn:E; [|done].
  apply contains_spec in E as (l' & r & ->).
  assert (contains sub (l ++ l' ++ sub ++ r) = true) as H'; [|congruence].
  apply contains_spec. exists (l ++ l'), r. by rewrite <-app_assoc.
Qed.

Lemma contains_false_prefix_of (sub s : str) :
  contains sub s = false -> prefix_of sub s = false.
Proof. destruct s; simpl; intros H; by apply orb_false_iff in H as [? _]. Qed.

(** Two prefixes of one string: the shorter is a prefix of the longer. *)
Lemma prefix_of_app_cases (p a b : str) :
  prefix_of p (a ++ b) = true ->
  prefix_of p a = true \/
  exists p2, p = a ++ p2 /\ p2 <> [] /\ prefix_of p2 b = true.
Proof.
  revert p; induction a as [|c a IH]; intros p H; simpl in *.
  - destruct p as [|q p]; [by left|]. right. by exists (q :: p).
  - destruct p as [|q p]; [by left|]. simpl in H.
    apply andb_true_iff in H as [Hq H]. apply N.eqb_eq in Hq as ->.
    destruct (IH _ H) as [Hp | (p2 & -> & ? & ?)].
    + left. simpl. by rewrite N.eqb_refl.
    + right. by exists p2.
Qed.

(** *** The scan of [replace] *)

Lemma replace_scan_skip (old new u s : str) :
  replace_scan old new (u ++ s) (length u) = replace_scan old new s O.
Proof. induction u as [|c u IH]; simpl; [by destruct s | done]. Qed.

Lemma replace_scan_hit (a : N) (o new s : str) :
  replace_scan (a :: o) new ((a :: o) ++ s) O
  = new ++ replace_scan (a :: o) new s O.
Proof.
  change (replace_scan (a :: o) new ((a :: o) ++ s) O)
    with (if prefix_of (a :: o) ((a :: o) ++ s)
          then new ++ replace_scan (a :: o) new (o ++ s) (length (a :: o) - 1)
          else a :: replace_scan (a :: o) new (o ++ s) O).
  rewrite prefix_of_app. simpl length.
  replace (S (length o) - 1)%nat with (length o) by lia.
  by rewrite replace_scan_skip.
Qed.

Lemma replace_scan_miss (old new : str) (c : N) (s : str) :
  prefix_of old (c :: s) = false ->
  replace_scan old new (c :: s) O = c :: replace_scan old new s O.
Proof. intros H. simpl replace_scan. simpl in H. by rewrite H. Qed.

Lemma replace_scan_absent (a : N) (o new s : str) :
  contains (a :: o) s = false -> replace_scan (a :: o) new s O = s.
Proof.
  induction s as [|c s IH]; [done|]. intros H.
  rewrite replace_scan_miss by by apply contains_false_prefix_of.
  f_equal. apply IH. by apply (contains_false_suffix _ [c]).
Qed.

End PyStrFacts.

(** *** When replacing twice is replacing once

    [old] starts with a code point [v] that occurs nowhere else in it, [new]
    starts with [v] as well, and no occurrence of [old] can begin inside
    [new], whatever follows.  Then the result of a replacement contains no
    occurrence of [old] any more. *)

Section ReplaceTwice.
Import PyStr.
Variables (v : N) (old_tl new_tl : str).
Let old := v :: old_tl.
Let new := v :: new_tl.
Hypothesis v_once : forallb (fun c => negb (c =? v)) old_tl = true.
Hypothesis new_closed :
  forall u w x, new = u ++ w -> w <> [] -> prefix_of old (w ++ x) = false.

Let R (s : str) : str := replace_scan old new s O.

Lemma R_unfold (s : str) :
  R s = match s with
        | [] => []
        | c :: s' =>
          if prefix_of old s then new ++ R (drop (length old_tl) s')
          else c :: R s'
        end.
Proof.
  destruct s as [|c s']; [done|].
  destruct (prefix_of old (c :: s')) eqn:E.
  - apply prefix_of_spec in E as [t E]. injection E as -> ->.
    rewrite drop_app_length. apply replace_scan_hit.
  - by apply replace_scan_miss.
Qed.

(** A string free of [v] that starts the result starts the input too. *)
Lemma prefix_of_R_back (q s : str) :
  forallb (fun c => negb (c =? v)) q = true ->
  prefix_of q (R s) = true -> prefix_of q s = true.
Proof.
  revert s; induction q as [|a q IH]; intros s Hq H; [done|].
  simpl in Hq. apply andb_true_iff in Hq as [Ha Hq].
  rewrite R_unfold in H. destruct s as [|c s]; [done|].
  destruct (prefix_of old (c :: s)).
  - simpl in H. apply andb_true_iff in H as [H _]. by rewrite H in Ha.
  - simpl in H |- *. apply andb_true_iff in H as [-> H]. simpl. eauto.
Qed.

Lemma R_miss_stable (c : N) (s : str) :
  prefix_of old (c :: s) = false -> prefix_of old (c :: R s) = false.
Proof.
  intros H. destruct (prefix_of old (c :: R s)) eqn:E; [|done].
  simpl in E, H. apply andb_true_iff in E as [Hc E]. rewrite Hc in H.
  by rewrite (prefix_of_R_back _ _ v_once E) in H.
Qed.

Lemma R_through_new (w u y : str) :
  new = u ++ w -> R y = y -> R (w ++ y) = w ++ y.
Proof.
  revert u; induction w as [|a w IH]; intros u Hu Hy; [done|].
  simpl. unfold R. rewrite replace_scan_miss.
  - f_equal. apply (IH (u ++ [a])); [by rewrite <-app_assoc | done].
  - by apply (new_closed u (a :: w) y).
Qed.

Lemma R_idempotent_bounded (n : nat) (s : str) :
  (length s <= n)%nat -> R (R s) = R s.
Proof.
  revert s; induction n as [|n IH]; intros s Hn.
  - destruct s; [done | simpl in Hn; lia].
  - rewrite (R_unfold s). destruct s as [|c s]; [done|].
    simpl in Hn. destruct (prefix_of old (c :: s)) eqn:E.
    + apply (R_through_new new []); [done|]. apply IH.
      rewrite length_drop. lia.
    + unfold R at 1. rewrite replace_scan_miss by by apply R_miss_stable.
      f_equal. apply IH. lia.
Qed.

Lemma replace_scan_idempotent (s : str) :
  replace_scan old new (replace_scan old new s O) O = replace_scan old new s O.
Proof. by apply (R_idempotent_bounded (length s)). Qed.

End ReplaceTwice.

(** ** [update_js_contents] *)

Section UpdateJsContents.
Import PyStr Extension.

Let pre : str := Eval vm_compute in lit "var apiKey = " ++ [dquote].
Let post : str := Eval vm_compute in [dquote] ++ lit ";".

Lemma api_key_assignment_parts (k : str) :
  api_key_assignment k = pre ++ k ++ post.
Proof. reflexivity. Qed.

(** No occurrence of the looked-up statement begins at a later code point
    of the text before the key. *)
Lemma lookup_not_in_pre (u m x : str) :
  pre = u ++ m -> m <> [] -> u <> [] -> prefix_of api_key_lookup (m ++ x) = false.
Proof.
  intros H Hm Hu.
  do 15 (destruct u as [|? u]; [ done || (simpl in H; subst m; done) |];
         try discriminate H; injection H as <- H).
Qed.

(** ... nor does one begin at its first code point: the two texts part
    ways at the quote. *)
Lemma lookup_not_at_pre (x : str) : prefix_of api_key_lookup (pre ++ x) = false.
Proof. reflexivity. Qed.

(** An occurrence cannot run over the closing quote and semicolon. *)
Lemma lookup_not_over_post (p2 x : str) :
  p2 <> [] -> (exists p1, api_key_lookup = p1 ++ p2) ->
  prefix_of p2 (post ++ x) = false.
Proof.
  intros Hp [p1 H]. vm_compute in H.
  do 52 (destruct p1 as [|? p1];
         [ simpl in H; subst p2; done |];
         try discriminate H; injection H as <- H).
Qed.

Lemma lookup_not_in_key (k k1 k2 x : str) :
  contains api_key_lookup k = false -> k = k1 ++ k2 ->
  prefix_of api_key_lookup (k2 ++ post ++ x) = false.
Proof.
  intros Hk ->.
  destruct (prefix_of api_key_lookup (k2 ++ post ++ x)) eqn:E; [|done].
  apply prefix_of_app_cases in E as [E | (p2 & E & Hp & E')].
  - apply contains_false_suffix, contains_false_prefix_of in Hk. congruence.
  - rewrite lookup_not_over_post in E'; [done | done | by exists k2].
Qed.

Lemma lookup_not_in_post (m w x : str) :
  post = m ++ w -> w <> [] -> prefix_of api_key_lookup (w ++ x) = false.
Proof.
  intros H Hw.
  do 3 (destruct m as [|? m]; [ simpl in H; subst w; done |];
        try discriminate H; injection H as <- H).
Qed.

Lemma assignment_closed (k u w x : str) :
  contains api_key_lookup k = false ->
  api_key_assignment k = u ++ w -> w <> [] -> u <> [] ->
  prefix_of api_key_lookup (w ++ x) = false.
Proof.
  intros Hk H Hw Hu. rewrite api_key_assignment_parts in H.
  apply app_eq_inv in H as [(m & Hpre & ->) | (m & -> & H)].
  - destruct m as [|c m].
    + rewrite app_nil_l, <-app_assoc. by apply (lookup_not_in_key k []).
    + rewrite <-app_assoc. by apply (lookup_not_in_pre u).
  - apply app_eq_inv in H as [(m' & -> & ->) | (m' & -> & Hpost)].
    + rewrite <-app_assoc. by apply (lookup_not_in_key (m ++ m') m).
    + by apply (lookup_not_in_post m').
Qed.

Let lookup_tl : str := Eval vm_compute in tail api_key_lookup.

Lemma api_key_lookup_eq : api_key_lookup = 118 :: lookup_tl.
Proof. vm_compute. reflexivity. Qed.

Lemma update_js_contents_scan (content k : str) :
  update_js_contents content k
  = replace_scan (118 :: lookup_tl) (118 :: tail pre ++ k ++ post) content O.
Proof.
  unfold update_js_contents.
  rewrite api_key_lookup_eq, api_key_assignment_parts. reflexivity.
Qed.

(** C10: for every content and every API key that does not itself contain
    the looked-up statement [var apiKey = localStorage.getItem("sadCaptchaKey");],
    patching twice with that key gives the same text as patching once. *)
Theorem update_js_contents_idempotent (content api_key : str) :
  contains api_key_lookup api_key = false ->
  update_js_contents (update_js_contents content api_key) api_key
  = update_js_contents content api_key.
Proof.
  intros Hk. rewrite !update_js_contents_scan.
  apply replace_scan_idempotent; [reflexivity|].
  intros u w x Hnew Hw. rewrite <-api_key_lookup_eq. destruct u as [|c u].
  - rewrite app_nil_l in Hnew. subst w. apply lookup_not_at_pre.
  - apply (assignment_closed api_key (c :: u)); done.
Qed.

Lemma update_js_contents_idempotent_witness :
  let content :=
    lit "init(); var apiKey = localStorage.getItem(" ++ [dquote]
    ++ lit "sadCaptchaKey" ++ [dquote] ++ lit "); run(apiKey);" in
  let api_key := lit "k-123" in
  contains api_key_lookup api_key = false /\
  update_js_contents content api_key
  = lit "init(); var apiKey = " ++ [dquote] ++ lit "k-123" ++ [dquote]
    ++ lit "; run(apiKey);" /\
  update_js_contents (update_js_contents content api_key) api_key
  = update_js_contents content api_key.
Proof.
  intros content api_key.
  split; [vm_compute; reflexivity|]. split; [vm_compute; reflexivity|].
  apply (update_js_contents_idempotent content api_key).
  vm_compute; reflexivity.
Defined.

End UpdateJsContents.

(** From here on the literals of the source are compared as they are
    written; only [vm_compute] decodes them. *)
Opaque PyStr.lit.

(** ** The block detector *)

Section DetectorFacts.
Import PyStr Py Detector Spec.

Lemma any_in_spec (texts : list str) (c : str) :
  any_in texts c = true <-> exists t, In t texts /\ substring t c.
Proof.
  unfold any_in. rewrite existsb_exists.
  split; intros (t & Ht & H); exists t; split; try done; by apply contains_spec.
Qed.

Lemma any_in_false_spec (texts : list str) (c : str) :
  any_in texts c = false <-> ~ exists t, In t texts /\ substring t c.
Proof. rewrite <-any_in_spec. by destruct (any_in texts c). Qed.

(** C6: whenever the page content holds one of the block indicators the
    detector answers "blocked", whatever the URL, the presence of the
    sign-in button and the transport status are (and whether reading them
    works at all). *)
Theorem is_shopee_blocking_on_indicator (p : page) (page_content : str) :
  content p = Ok page_content ->
  (exists indicator, In indicator block_indicators /\ substring indicator page_content) ->
  is_shopee_blocking p = true.
Proof.
  intros Hc Hind. apply any_in_spec in Hind.
  unfold is_shopee_blocking, checks. rewrite Hc.
  destruct (url p) as [current_url|]; [|done].
  rewrite Hind. by destruct (_ && _).
Qed.

Lemma is_shopee_blocking_on_indicator_witness :
  let page_content := lit "<html><body>請登入蝦皮購物 App ..." in
  let p := Page (Ok (lit "https://example.org/")) (Ok page_content)
             (fun _ => Ok true) (Some (Some (Ok 200%Z))) in
  is_shopee_blocking p = true.
Proof.
  intros page_content p.
  apply (is_shopee_blocking_on_indicator p page_content); [reflexivity|].
  exists (lit "請登入蝦皮購物 App"). split.
  - vm_compute. tauto.
  - apply contains_spec. vm_compute. reflexivity.
Defined.

End DetectorFacts.

Section DetectorFaults.
Import PyStr Py Detector Spec.

Lemma found_expected_element_absent (probe : str -> result bool) (sels : list str) :
  found_expected_element (probe_faults_as_absent probe) sels
  = found_expected_element probe sels.
Proof.
  induction sels as [|sel rest IH]; [done|]. simpl.
  unfold probe_faults_as_absent at 1.
  destruct (probe sel) as [[|]|]; by rewrite ?IH.
Qed.

(** C7, as stated, fails: a probe of the selector loop raises and the
    detector still answers "not blocked". *)
Lemma is_shopee_blocking_probe_fault_not_blocked :
  ~ (forall p : page,
       probe_raised (query_selector p) google_button_selectors = true ->
       is_shopee_blocking p = true).
Proof.
  intros H. specialize (H page_with_failing_probe).
  assert (is_shopee_blocking page_with_failing_probe = false) as E
    by (vm_compute; reflexivity).
  rewrite H in E; [discriminate | vm_compute; reflexivity].
Qed.

(** C7, amended: the detector never lets an exception out.  When reading
    the URL, the content or the transport status raises, it answers
    "blocked"; a raising selector probe is passed over exactly as if the
    selector had matched nothing, and the evaluation goes on. *)
Theorem is_shopee_blocking_fail_closed (p : page) :
  (forall x, checks p = Raise x -> is_shopee_blocking p = true)
  /\ ((exists x, url p = Raise x) \/ (exists x, content p = Raise x)
      \/ (exists x, last_response p = Some (Some (Raise x))) ->
      is_shopee_blocking p = true)
  /\ is_shopee_blocking p
     = is_shopee_blocking
         (Page (url p) (content p) (probe_faults_as_absent (query_selector p))
            (last_response p)).
Proof.
  split; [|split].
  - intros x H. unfold is_shopee_blocking. by rewrite H.
  - unfold is_shopee_blocking, checks.
    intros [[x ->] | [[x ->] | [x ->]]]; [done | by destruct (url p) |].
    destruct (url p); [|done]. destruct (content p); [|done].
    destruct (_ && _); [done|]. destruct (any_in _ _); [done|].
    by destruct (_ && _).
  - unfold is_shopee_blocking, checks.
    cbn [url content query_selector last_response].
    by rewrite found_expected_element_absent.
Qed.

Lemma is_shopee_blocking_fail_closed_witness :
  let p := Page (Ok (lit "https://shopee.tw/")) (Raise (Exn OtherException (lit "closed")))
             (fun _ => Ok true) (Some None) in
  is_shopee_blocking p = true.
Proof.
  intros p.
  apply (proj1 (proj2 (is_shopee_blocking_fail_closed p))).
  right; left. by exists (Exn OtherException (lit "closed")).
Defined.

End DetectorFaults.

(** ** The proxy rotator *)

Section RotatorFacts.
Import PyStr Py Rotator Spec.

Lemma choice_some {A} (xs : list A) (r : nat) :
  xs <> [] -> exists x, choice xs r = Some x /\ x ∈ xs.
Proof.
  intros Hxs. unfold choice.
  destruct (lookup_lt_is_Some_2 xs (r mod length xs)) as [x Hx].
  - apply Nat.mod_upper_bound. by destruct xs.
  - exists x. split; [done|]. by eapply list_elem_of_lookup_2.
Qed.

(** The selection never comes back empty-handed while the pool has a
    proxy, whatever the tried set is. *)
Lemma get_random_proxy_some (self : ProxyRotator) (r : nat) :
  proxies self <> [] ->
  exists p, fst (get_random_proxy self r) = Ok (Some p) /\ p ∈ proxies self.
Proof.
  intros Hpool. unfold get_random_proxy.
  destruct (proxies self) as [|p0 pool] eqn:E; [done|].
  set (tried := if decide _ then _ else _).
  destruct (filter _ (p0 :: pool)) as [|a av] eqn:Ea.
  - destruct (choice_some (p0 :: pool) r) as (p & -> & Hp); [done|]. by exists p.
  - destruct (choice_some (a :: av) r) as (p & -> & Hp); [done|].
    exists p. split; [done|]. rewrite <-Ea in Hp.
    by apply list_elem_of_filter in Hp as [_ Hp].
Qed.

(** Inside a cycle: the tried set is the set of servers handed out so far,
    and there are fewer of them than proxies. *)
Lemma get_random_proxy_fresh (pool : list proxy) (given : list str) (r : nat) :
  NoDup (server <$> pool) -> NoDup given ->
  (length given < length pool)%nat ->
  exists p,
    get_random_proxy (Rotator pool (list_to_set given)) r
    = (Ok (Some p), Rotator pool (list_to_set (server p :: given)))
    /\ p ∈ pool /\ server p ∉ given.
Proof.
  intros Hpool Hgiven Hlt. unfold get_random_proxy. simpl proxies. simpl tried_proxies.
  destruct pool as [|p0 pool'] eqn:E; [simpl in Hlt; lia|]. rewrite <-E in *.
  rewrite size_list_to_set by done.
  destruct (decide (length pool <= length given)%nat) as [|_]; [lia|].
  destruct (filter _ pool) as [|a av] eqn:Ea.
  - exfalso.
    assert (list_to_set (C:=gset str) (server <$> pool) ⊆ list_to_set given) as Hsub.
    { intros x Hx. apply elem_of_list_to_set in Hx.
      apply list_elem_of_fmap in Hx as (p & -> & Hp).
      destruct (decide (server p ∈ list_to_set (C:=gset str) given)) as [|Hn]; [done|].
      assert (p ∈ filter (fun p => server p ∉ list_to_set (C:=gset str) given) pool) as Hf
        by by apply list_elem_of_filter.
      rewrite Ea in Hf. by apply not_elem_of_nil in Hf. }
    apply subseteq_size in Hsub. rewrite !size_list_to_set in Hsub by done.
    rewrite length_fmap in Hsub. lia.
  - destruct (choice_some (a :: av) r) as (p & -> & Hp); [done|].
    rewrite <-Ea in Hp. apply list_elem_of_filter in Hp as [Hn Hp].
    exists p. rewrite elem_of_list_to_set in Hn. by rewrite list_to_set_cons.
Qed.

(** After a full cycle the tried set is reset and any proxy may come. *)
Lemma get_random_proxy_after_cycle (pool : list proxy) (given : list str) (r : nat) :
  pool <> [] -> NoDup given -> (length pool <= length given)%nat ->
  exists p,
    fst (get_random_proxy (Rotator pool (list_to_set given)) r) = Ok (Some p)
    /\ p ∈ pool.
Proof. intros Hpool _ _. by apply (get_random_proxy_some (Rotator pool _)). Qed.

Lemma calls_in_cycle (pool : list proxy) (draws : list nat) (given : list str) :
  NoDup (server <$> pool) -> NoDup given ->
  (length given + length draws <= length pool)%nat ->
  exists ps,
    calls (Rotator pool (list_to_set given)) draws
    = ((fun p => Ok (Some p)) <$> ps,
       Rotator pool (list_to_set (rev (server <$> ps) ++ given)))
    /\ length ps = length draws
    /\ NoDup (rev (server <$> ps) ++ given)
    /\ (forall p, p ∈ ps -> p ∈ pool).
Proof.
  intros Hpool. revert given.
  induction draws as [|r draws IH]; intros given Hgiven Hlen.
  - exists []. repeat split; try done. intros p Hp. by apply not_elem_of_nil in Hp.
  - simpl in Hlen.
    destruct (get_random_proxy_fresh pool given r) as (p & Hcall & Hp & Hnew);
      [done | done | lia |].
    destruct (IH (server p :: given)) as (ps & Hrest & Hn & Hnd & Hin).
    { by apply NoDup_cons. }
    { simpl. lia. }
    exists (p :: ps). simpl calls. rewrite Hcall, Hrest.
    rewrite fmap_cons. simpl rev. rewrite <-app_assoc. simpl.
    repeat split; try done.
    + by rewrite Hn.
    + intros q Hq. apply elem_of_cons in Hq as [->|Hq]; auto.
Qed.

(** C5: a fresh rotator over [N] proxies with pairwise distinct servers
    hands out [N] proxies with [N] distinct servers in its first [N] calls;
    the call after these succeeds as well and repeats one of those servers;
    and, whatever the tried set, the selection never answers [None] while
    the pool is not empty. *)
Theorem get_random_proxy_cycle (pool : list proxy) (draws : list nat) (r : nat) :
  NoDup (server <$> pool) -> length draws = length pool ->
  exists ps,
    fst (calls (Rotator pool ∅) draws) = (fun p => Ok (Some p)) <$> ps
    /\ length ps = length pool
    /\ NoDup (server <$> ps)
    /\ (forall p, p ∈ ps -> p ∈ pool)
    /\ (pool <> [] ->
        exists p, fst (get_random_proxy (snd (calls (Rotator pool ∅) draws)) r)
                  = Ok (Some p)
                  /\ server p ∈ server <$> ps)
    /\ (forall tried r', pool <> [] ->
        exists p, fst (get_random_proxy (Rotator pool tried) r') = Ok (Some p)
                  /\ p ∈ pool).
Proof.
  intros Hpool Hlen.
  destruct (calls_in_cycle pool draws []) as (ps & Hcalls & Hn & Hnd & Hin);
    [done | constructor | simpl; lia |].
  change (list_to_set []) with (∅ : gset str) in Hcalls.
  rewrite app_nil_r in Hcalls, Hnd. rewrite <-Permutation_rev in Hnd.
  exists ps. rewrite Hcalls. simpl fst. simpl snd.
  repeat split; try done; [lia | |].
  - intros Hne.
    destruct (get_random_proxy_some
                (Rotator pool (list_to_set (rev (server <$> ps)))) r)
      as (p & -> & Hp); [done|].
    exists p. split; [done|].
    assert (list_to_set (C:=gset str) (server <$> ps)
            = list_to_set (server <$> pool)) as Heq.
    { apply set_subseteq_size_eq.
      - intros x Hx. apply elem_of_list_to_set in Hx.
        apply list_elem_of_fmap in Hx as (q & -> & Hq).
        apply elem_of_list_to_set, list_elem_of_fmap_2. auto.
      - rewrite !size_list_to_set, !length_fmap by done. lia. }
    apply (elem_of_list_to_set (C:=gset str)). rewrite Heq.
    by apply elem_of_list_to_set, list_elem_of_fmap_2.
  - intros tried r' Hne. by apply (get_random_proxy_some (Rotator pool tried)).
Qed.

Lemma get_random_proxy_cycle_witness :
  let pool := [Proxy (lit "http://a:1") None None;
               Proxy (lit "http://b:2") (Some (lit "u")) (Some (lit "p"));
               Proxy (lit "http://c:3") None None] in
  exists ps,
    fst (calls (Rotator pool ∅) [5; 0; 7]%nat) = (fun p => Ok (Some p)) <$> ps
    /\ NoDup (server <$> ps).
Proof.
  intros pool.
  destruct (get_random_proxy_cycle pool [5; 0; 7]%nat 2%nat)
    as (ps & H1 & _ & H2 & _).
  - apply (bool_decide_unpack _). vm_compute. exact I.
  - reflexivity.
  - exists ps. split; [exact H1 | exact H2].
Defined.

End RotatorFacts.

(** ** Reasoning about blocks *)

Section Blocks.
Import PyStr Py Spec.
Context {R : Type}.

Lemma same_locals_refl (s : st) : same_locals s s.
Proof. by repeat split. Qed.

Lemma same_locals_trans (s1 s2 s3 : st) :
  same_locals s1 s2 -> same_locals s2 s3 -> same_locals s1 s3.
Proof.
  unfold same_locals. intros (?&?&?&?&?) (?&?&?&?&?).
  repeat split; congruence.
Qed.

Lemma grows_by_refl (P : event -> Prop) (s : st) : grows_by P s s.
Proof. by exists []. Qed.

Lemma grows_by_trans (P : event -> Prop) (s1 s2 s3 : st) :
  grows_by P s1 s2 -> grows_by P s2 s3 -> grows_by P s1 s3.
Proof.
  intros (e1 & H1 & F1) (e2 & H2 & F2). exists (e2 ++ e1).
  rewrite H2, H1, app_assoc. split; [done|]. by apply Forall_app.
Qed.

Lemma grows_by_mono (P Q : event -> Prop) (s s' : st) :
  (forall ev, P ev -> Q ev) -> grows_by P s s' -> grows_by Q s s'.
Proof.
  intros HPQ (evs & H & F). exists evs. split; [done|].
  eapply Forall_impl; eauto.
Qed.

Lemma grows_by_In (P : event -> Prop) (s s' : st) (ev : event) :
  grows_by P s s' -> In ev (trace s') -> P ev \/ In ev (trace s).
Proof.
  intros (evs & -> & F) H. apply in_app_or in H as [H|H]; [left|by right].
  rewrite Forall_forall in F. apply F. by apply list_elem_of_In.
Qed.

Lemma grows_by_keeps (P : event -> Prop) (s s' : st) (ev : event) :
  grows_by P s s' -> In ev (trace s) -> In ev (trace s').
Proof. intros (evs & -> & _) H. apply in_or_app. by right. Qed.

Lemma gentle_mono (P Q : event -> Prop) {A} (m : M R A) :
  (forall ev, P ev -> Q ev) -> gentle P m -> gentle Q m.
Proof.
  intros HPQ H s. destruct (H s) as (? & ? & ?).
  split; [done|]. split; [done|]. by eapply grows_by_mono.
Qed.

Lemma gentle_ret (P : event -> Prop) {A} (a : A) : gentle P (ret (R:=R) a).
Proof.
  intros s. split; [done|]. split; [apply same_locals_refl | apply grows_by_refl].
Qed.

Lemma gentle_raise (P : event -> Prop) {A} (x : exn) :
  gentle P (raise (R:=R) (A:=A) x).
Proof.
  intros s. split; [done|]. split; [apply same_locals_refl | apply grows_by_refl].
Qed.

Lemma gentle_emit (P : event -> Prop) (ev : event) :
  P ev -> gentle P (emit (R:=R) ev).
Proof.
  intros Hev s. split; [done|]. split; [by repeat split|].
  exists [ev]. split; [done|]. by constructor.
Qed.

Lemma gentle_call (P : event -> Prop) (answer : option exn) :
  gentle P (call (R:=R) answer).
Proof. destruct answer; [apply gentle_raise | apply gentle_ret]. Qed.

Lemma gentle_ask (P : event -> Prop) {A} (answer : result A) :
  gentle P (ask (R:=R) answer).
Proof. destruct answer; [apply gentle_ret | apply gentle_raise]. Qed.

Lemma gentle_bind (P : event -> Prop) {A B} (m : M R A) (k : A -> M R B) :
  gentle P m -> (forall a, gentle P (k a)) -> gentle P (bind m k).
Proof.
  intros Hm Hk s. unfold bind.
  destruct (Hm s) as (Hp & Hl & Hg). destruct (m s) as [[a|x|r|] s1]; try done.
  simpl in Hl, Hg. destruct (Hk a s1) as (Hp' & Hl' & Hg').
  split; [done|]. split.
  - by eapply same_locals_trans.
  - by eapply grows_by_trans.
Qed.

Lemma gentle_try_except (P : event -> Prop) {A} (m : M R A) (h : exn -> M R A) :
  gentle P m -> (forall x, gentle P (h x)) -> gentle P (try_except m h).
Proof.
  intros Hm Hh s. unfold try_except.
  destruct (Hm s) as (Hp & Hl & Hg). destruct (m s) as [[a|x|r|] s1]; try done.
  simpl in Hl, Hg. destruct (Hh x s1) as (Hp' & Hl' & Hg').
  split; [done|]. split.
  - by eapply same_locals_trans.
  - by eapply grows_by_trans.
Qed.

Lemma gentle_wait (P : event -> Prop) (answer : option exn) (lo hi : Z) :
  P (EvWait lo hi) -> gentle P (wait_for_timeout (R:=R) answer lo hi).
Proof.
  intros H. apply gentle_bind; [apply gentle_call|].
  intros _. by apply gentle_emit.
Qed.

Lemma gentle_for_break (P : event -> Prop) {A} (xs : list A) (body : A -> M R bool) :
  (forall x, gentle P (body x)) -> gentle P (for_break xs body).
Proof.
  intros Hb. induction xs as [|x xs IH]; simpl; [apply gentle_ret|].
  apply gentle_bind; [done|]. intros [|]; [apply gentle_ret | done].
Qed.

Lemma silent_first_present (count : str -> result nat) (sels : list str) :
  silent (first_present (R:=R) count sels).
Proof.
  induction sels as [|sel rest IH]; intros s; simpl; [done|].
  unfold bind, ask. destruct (count sel) as [n|x]; simpl; [|done].
  destruct (0 <? n)%nat; [done | apply IH].
Qed.

Lemma gentle_silent (P : event -> Prop) {A} (m : M R A) :
  silent m -> gentle P m.
Proof.
  intros H s. destruct (H s) as [Hp ->].
  split; [done|]. split; [apply same_locals_refl | apply grows_by_refl].
Qed.

End Blocks.

(** ** The login orchestrator *)

Section LoginFacts.
Import PyStr Py Login Spec.
Variable e : env.

Lemma before_consent_wait (lo hi : Z) :
  (hi <= 120000)%Z -> before_consent (EvWait lo hi).
Proof. by split. Qed.

Lemma before_consent_print (line : string) :
  line <> "Looking for consent buttons..."%string -> before_consent (EvPrint line).
Proof. intros H. split; [done|]. unfold consent_line. congruence. Qed.

Lemma gentle_type_chars (typ pace : nat -> site) (text : str) (i : nat) :
  gentle before_consent (type_chars e typ pace text i).
Proof.
  revert i; induction text as [|c text IH]; intros i; simpl.
  - apply gentle_ret.
  - apply gentle_bind; [apply gentle_call|]. intros _.
    apply gentle_bind; [by apply gentle_wait, before_consent_wait|]. auto.
Qed.

Lemma gentle_click_first (what : counted) (click : str -> site) (sels : list str) :
  gentle before_consent (click_first e what click sels).
Proof.
  apply gentle_for_break. intros sel. apply gentle_try_except.
  - apply gentle_bind; [apply gentle_ask|]. intros n.
    destruct (0 <? n)%nat; [|apply gentle_ret].
    apply gentle_bind; [apply gentle_call|]. intros _.
    apply gentle_bind; [by apply gentle_emit, before_consent_print|].
    intros _. apply gentle_ret.
  - intros _. apply gentle_bind; [by apply gentle_emit, before_consent_print|].
    intros _. apply gentle_ret.
Qed.

Lemma pre_consent_gentle {A} (m : M bool A) :
  gentle before_consent m -> pre_consent m.
Proof.
  intros H s. destruct (H s) as (Hp & Hl & Hg).
  split; [done|]. split; [done|]. by destruct (m s) as [[| | |] ?].
Qed.

Lemma pre_consent_return_false {A} : pre_consent (return_ (A:=A) false).
Proof.
  intros s. split; [apply same_locals_refl|]. split; [apply grows_by_refl | done].
Qed.

Lemma pre_consent_bind {A B} (m : M bool A) (k : A -> M bool B) :
  pre_consent m -> (forall a, pre_consent (k a)) -> pre_consent (bind m k).
Proof.
  intros Hm Hk s. unfold bind.
  destruct (Hm s) as (Hl & Hg & Ho). destruct (m s) as [[a|x|[|]|] s1]; try done.
  simpl in Hl, Hg. destruct (Hk a s1) as (Hl' & Hg' & Ho').
  split; [by eapply same_locals_trans|]. split; [by eapply grows_by_trans | done].
Qed.

Lemma before_consent_login_event (ev : event) : before_consent ev -> login_event ev.
Proof. by intros [? _]. Qed.

(** Nothing logged before consent handling is the consent line. *)
Lemma consent_line_not_before (s s' : st) :
  grows_by before_consent s s' ->
  In consent_line (trace s') -> In consent_line (trace s).
Proof.
  intros Hg H. by destruct (grows_by_In _ _ _ _ Hg H) as [[_ ?]|?].
Qed.

Lemma deciding_bind {A} (m : M bool A) (k : A -> M bool unit) :
  pre_consent m -> (forall a, deciding false (k a)) -> deciding false (bind m k).
Proof.
  intros Hm Hk s. unfold bind.
  destruct (Hm s) as (Hl & Hg & Ho).
  pose proof (consent_line_not_before _ _ Hg) as Hback.
  apply (grows_by_mono _ _ _ _ before_consent_login_event) in Hg.
  destruct (m s) as [[a|x|[|]|] s1]; try done; simpl in *.
  destruct (Hk a s1) as (Hl' & Hg' & Ho').
  split; [by eapply same_locals_trans|]. split; [by eapply grows_by_trans|].
  destruct (k a s1) as [[?|?|[|]|] s2]; simpl in *; try done.
  - destruct Ho' as [? Ho']. auto.
  - auto.
Qed.

Lemma deciding_try_except (strict : bool) (m : M bool unit) (h : exn -> M bool unit) :
  deciding strict m -> (forall x, deciding true (h x)) ->
  deciding true (try_except m h).
Proof.
  intros Hm Hh s. unfold try_except.
  destruct (Hm s) as (Hl & Hg & Ho).
  destruct (m s) as [[a|x|[|]|] s1]; try done; simpl in *.
  destruct Ho as [_ Hback]. destruct (Hh x s1) as (Hl' & Hg' & Ho').
  split; [by eapply same_locals_trans|]. split; [by eapply grows_by_trans|].
  destruct (h x s1) as [[?|?|[|]|] s2]; simpl in *; try done.
  - by destruct Ho'.
  - auto.
Qed.

Lemma deciding_weaken (m : M bool unit) : deciding true m -> deciding false m.
Proof.
  intros H s. destruct (H s) as (Hl & Hg & Ho).
  split; [done|]. split; [done|].
  destruct (m s) as [[?|?|[|]|] s1]; simpl in *; try done. by destruct Ho.
Qed.

Lemma deciding_return_false (strict : bool) : deciding strict (return_ false).
Proof.
  intros s. split; [apply same_locals_refl|].
  split; [apply grows_by_refl | simpl; auto].
Qed.

(** After a block that cannot fail the decision is as strict as before. *)
Lemma deciding_after {A} (strict : bool) (m : M bool A) (k : A -> M bool unit) :
  gentle before_consent m -> (forall s, exists a, fst (m s) = Normal a) ->
  (forall a, deciding strict (k a)) -> deciding strict (bind m k).
Proof.
  intros Hm Hn Hk s. unfold bind.
  destruct (Hm s) as (_ & Hl & Hg). destruct (Hn s) as [a Ha].
  pose proof (consent_line_not_before _ _ Hg) as Hback.
  apply (grows_by_mono _ _ _ _ before_consent_login_event) in Hg.
  destruct (m s) as [r s1]; simpl in *. subst r.
  destruct (Hk a s1) as (Hl' & Hg' & Ho').
  split; [by eapply same_locals_trans|]. split; [by eapply grows_by_trans|].
  destruct (k a s1) as [[?|?|[|]|] s2]; simpl in *; try done.
  - destruct Ho' as [? Ho']. auto.
  - auto.
Qed.

Lemma print_normal (line : string) (s : st) :
  exists a, fst (print (R:=bool) line s) = Normal a.
Proof. by exists tt. Qed.

Lemma try_pass_normal (m : M bool unit) (s : st) :
  plain (fst (m s)) -> exists a, fst (try_pass m s) = Normal a.
Proof.
  unfold try_pass, try_except. destruct (m s) as [[[]|x|r|] s1]; try done.
  - by exists tt.
  - by exists tt.
Qed.

Lemma grows_by_cons (P : event -> Prop) (s : st) (ev : event) (t : list event)
    (l : list nat) (b : option nat) (a : nat) (su ls : bool) :
  P ev -> grows_by P s (St t l b a su ls) ->
  grows_by P s (St (ev :: t) l b a su ls).
Proof.
  intros Hev (evs & Ht & F). simpl in Ht. exists (ev :: evs).
  split; [simpl; by rewrite Ht | by constructor].
Qed.

Lemma grows_by_same (P : event -> Prop) (s : st)
    (l : list nat) (b : option nat) (a : nat) (su ls : bool) :
  grows_by P s (St (trace s) l b a su ls).
Proof. by exists []. Qed.

Lemma consent_step_decides : deciding true (consent_step e).
Proof.
  intros s. unfold consent_step, try_except, try_pass, try_except, bind, print,
    emit, ask, wait_for_timeout, call, bind, emit, ret, raise, return_.
  destruct (evaluate_consent e) as [[|]|x]; simpl;
    destruct (step e WaitAfterConsent); simpl;
    try destruct (step e ConsentScreenshot); simpl;
    (split; [by repeat split|]; split;
     [repeat (apply grows_by_cons; [done|]); apply grows_by_same
     | unfold consent_line; simpl; tauto]).
Qed.

Lemma password_step_decides : deciding true (password_step e).
Proof.
  unfold password_step. eapply deciding_try_except.
  - apply deciding_bind.
    { apply pre_consent_gentle, gentle_silent, silent_first_present. }
    intros password_field. apply deciding_bind.
    + destruct password_field as [field|].
      * apply pre_consent_gentle.
        apply gentle_bind; [apply gentle_call|]. intros _.
        apply gentle_bind; [apply gentle_type_chars|]. intros _.
        apply gentle_bind; [by apply gentle_emit, before_consent_print|]. intros _.
        apply gentle_bind; [by apply gentle_wait, before_consent_wait|]. intros _.
        apply gentle_click_first.
      * apply pre_consent_bind; [|intros _; apply pre_consent_return_false].
        by apply pre_consent_gentle, gentle_emit, before_consent_print.
    + intros _. apply deciding_bind.
      * by apply pre_consent_gentle, gentle_wait, before_consent_wait.
      * intros _. apply deciding_weaken, consent_step_decides.
  - intros x. apply deciding_after.
    + by apply gentle_emit, before_consent_print.
    + apply print_normal.
    + intros _. apply deciding_return_false.
Qed.

Lemma email_step_decides : deciding true (email_step e).
Proof.
  unfold email_step. eapply deciding_try_except.
  - apply deciding_bind; [apply pre_consent_gentle, gentle_call|]. intros _.
    apply deciding_bind;
      [by apply pre_consent_gentle, gentle_emit, before_consent_print|]. intros _.
    apply deciding_bind; [apply pre_consent_gentle, gentle_call|]. intros _.
    apply deciding_bind; [apply pre_consent_gentle, gentle_type_chars|]. intros _.
    apply deciding_bind;
      [by apply pre_consent_gentle, gentle_emit, before_consent_print|]. intros _.
    apply deciding_bind;
      [by apply pre_consent_gentle, gentle_wait, before_consent_wait|]. intros _.
    apply deciding_bind; [apply pre_consent_gentle, gentle_click_first|]. intros _.
    apply deciding_bind;
      [by apply pre_consent_gentle, gentle_wait, before_consent_wait|]. intros _.
    apply deciding_weaken, password_step_decides.
  - intros x. apply deciding_after.
    + by apply gentle_emit, before_consent_print.
    + apply print_normal.
    + intros _. apply deciding_return_false.
Qed.

Lemma body_decides : deciding true (body e).
Proof.
  unfold body. eapply deciding_try_except.
  - apply deciding_bind;
      [by apply pre_consent_gentle, gentle_wait, before_consent_wait|]. intros _.
    destruct (missing (GOOGLE_EMAIL e) || missing (GOOGLE_PASSWORD e)).
    + apply deciding_bind;
        [by apply pre_consent_gentle, gentle_emit, before_consent_print|]. intros _.
      apply deciding_bind;
        [by apply pre_consent_gentle, gentle_emit, before_consent_print|]. intros _.
      apply deciding_bind;
        [by apply pre_consent_gentle, gentle_wait, before_consent_wait|]. intros _.
      apply deciding_return_false.
    + apply deciding_weaken, email_step_decides.
  - intros x. apply deciding_after.
    { by apply gentle_emit, before_consent_print. }
    { apply print_normal. }
    intros _. apply deciding_after.
    { apply gentle_try_except; [apply gentle_call | intros _; apply gentle_ret]. }
    { intros s. apply try_pass_normal. by destruct (step e LoginErrorScreenshot). }
    intros _. apply deciding_return_false.
Qed.

(** The orchestrator always returns a boolean, keeps its hands off the
    locals of [main], and logs prints and bounded waits only. *)
Lemma login_returns (s : st) :
  exists b s',
    handle_google_login_process e s = (Ok (Some b), s')
    /\ same_locals s s' /\ grows_by login_event s s'
    /\ (b = true -> In consent_line (trace s'))
    /\ (b = false -> In consent_line (trace s') -> In consent_line (trace s)).
Proof.
  unfold handle_google_login_process.
  destruct (body_decides s) as (Hl & Hg & Ho).
  destruct (body e s) as [[?|?|b|] s']; simpl in *; try done; [by destruct Ho|].
  exists b, s'. split; [done|]. split; [done|]. split; [done|].
  destruct b; split; auto; discriminate.
Qed.

Lemma login_without_credentials (s : st) :
  missing (GOOGLE_EMAIL e) || missing (GOOGLE_PASSWORD e) = true ->
  fst (handle_google_login_process e s) = Ok (Some false)
  /\ (step e InitialWait = None -> step e ManualWait = None ->
      trace (snd (handle_google_login_process e s))
      = [EvWait 120000 120000;
         EvPrint "Please login manually in the popup window";
         EvPrint "Google credentials not provided in .env file";
         EvWait 2000 4000] ++ trace s).
Proof.
  intros Hm. unfold handle_google_login_process, body. rewrite Hm.
  unfold try_except, try_pass, try_except, bind, print, wait_for_timeout, bind,
    emit, call, ret, raise, return_.
  destruct (step e InitialWait); simpl.
  - destruct (step e LoginErrorScreenshot); simpl; split; [done|discriminate|done|discriminate].
  - destruct (step e ManualWait); simpl.
    + destruct (step e LoginErrorScreenshot); simpl; split; [done|discriminate|done|discriminate].
    + by split.
Qed.

End LoginFacts.

Section LoginClaims.
Import PyStr Py Login Spec.

(** C8, as stated, fails: with a fault inside consent handling the
    orchestrator answers [True], not the failure result. *)
Lemma login_consent_fault_returns_true :
  (exists x, evaluate_consent env_with_failing_consent = Raise x)
  /\ In (EvPrint "Error during consent handling")
       (trace (snd (handle_google_login_process env_with_failing_consent Main.initial)))
  /\ fst (handle_google_login_process env_with_failing_consent Main.initial)
     = Ok (Some true).
Proof.
  split; [by eexists|]. split; [|vm_compute; reflexivity].
  vm_compute. tauto.
Qed.

(** C8, amended: the orchestrator never lets an exception out and always
    returns a boolean, leaving the locals of the caller alone.  It returns
    [True] exactly when consent handling was reached: a fault before that
    point ends in [False] (or, in the loops that click "Next", is printed
    and skipped), a fault inside consent handling still ends in [True].
    Without configured credentials it returns [False]; when its two waits
    work, these are the 2000..4000 ms wait and the 120000 ms wait for a
    manual login, and nothing else happens. *)
Theorem handle_google_login_process_total (e : env) (s : st) :
  exists b s',
    handle_google_login_process e s = (Ok (Some b), s')
    /\ same_locals s s'
    /\ (~ In consent_line (trace s) -> (b = true <-> In consent_line (trace s')))
    /\ (missing (GOOGLE_EMAIL e) || missing (GOOGLE_PASSWORD e) = true ->
        b = false
        /\ (step e InitialWait = None -> step e ManualWait = None ->
            trace s'
            = [EvWait 120000 120000;
               EvPrint "Please login manually in the popup window";
               EvPrint "Google credentials not provided in .env file";
               EvWait 2000 4000] ++ trace s)).
Proof.
  destruct (login_returns e s) as (b & s' & Hrun & Hl & _ & Ht & Hf).
  exists b, s'. split; [done|]. split; [done|]. split.
  - intros Hfresh. split; [done|]. intros Hin. destruct b; [done|]. tauto.
  - intros Hm. destruct (login_without_credentials e s Hm) as [Hb Htr].
    rewrite Hrun in Hb, Htr. simpl in Hb, Htr. split; [congruence | done].
Qed.

Lemma handle_google_login_process_total_witness :
  exists s',
    handle_google_login_process env_without_credentials Main.initial
    = (Ok (Some false), s')
    /\ trace s'
       = [EvWait 120000 120000;
          EvPrint "Please login manually in the popup window";
          EvPrint "Google credentials not provided in .env file";
          EvWait 2000 4000].
Proof.
  destruct (handle_google_login_process_total env_without_credentials Main.initial)
    as (b & s' & Hrun & _ & _ & Hm).
  destruct (Hm eq_refl) as [-> Htr].
  exists s'. split; [exact Hrun|].
  rewrite (Htr eq_refl eq_refl). reflexivity.
Defined.

End LoginClaims.

(** ** The wait for the captcha *)

Section CaptchaFacts.
Import PyStr Py Spec.

Lemma api_captcha_error_texts : Api.captcha_error_texts = Main.captcha_error_texts.
Proof. reflexivity. Qed.

Lemma api_captcha_selectors : Api.captcha_selectors = Main.captcha_selectors.
Proof. reflexivity. Qed.

(** [main.py], a page with a captcha error text after the wait: the
    attempt is given up. *)
Lemma captcha_branch_error (this : nat) (e : Main.attempt_env) (s : st)
    (page_content : str) :
  Main.step e Main.WriteCaptchaSuccess = None ->
  Main.step e Main.WaitCaptcha = None ->
  Main.content_after_captcha e = Ok page_content ->
  any_in Main.captcha_error_texts page_content = true ->
  In captcha_wait (trace (snd (Main.captcha_branch this e s)))
  /\ login_success (snd (Main.captcha_branch this e s)) = false
  /\ captcha_verdict_of (trace (snd (Main.captcha_branch this e s)))
     = Some CaptchaError
  /\ (forall c, fst (Main.captcha_branch this e s) <> Normal c)
  /\ success (snd (Main.captcha_branch this e s)) = success s
  /\ (In (EvExtract this) (trace (snd (Main.captcha_branch this e s))) ->
      In (EvExtract this) (trace s))
  /\ (browser s = Some this ->
      Main.step e Main.WriteCaptchaError = None ->
      Main.step e Main.ScreenshotCaptchaError = None ->
      Main.step e Main.CloseCaptchaError = None ->
      fst (Main.captcha_branch this e s) = Continued
      /\ live (snd (Main.captcha_branch this e s))
         = filter (fun x => x <> this) (live s)).
Proof.
  intros H1 H2 H3 H4. destruct s as [t lv br n su ls].
  unfold Main.captcha_branch. exec.
  rewrite H1. exec. rewrite H2. exec. rewrite H3. exec. rewrite H4. exec.
  destruct (Main.step e Main.WriteCaptchaError); exec;
    [|destruct (Main.step e Main.ScreenshotCaptchaError); exec;
      [|destruct br as [b|]; exec;
        [destruct (Main.step e Main.CloseCaptchaError); exec|]]].
  all: split; [logged|]; split; [reflexivity|]; split; [reflexivity|];
    split; [discriminate|]; split; [reflexivity|];
    split;
    [ intros H; simpl in H;
      repeat (destruct H as [H|H]; [discriminate H|]); exact H
    | intros Hb; intros; try discriminate; try (injection Hb as ->; by split) ].
Qed.

(** [main.py], a page without captcha error text after the wait: the
    attempt goes on to the product page with [login_success] set. *)
Lemma captcha_branch_solved (this : nat) (e : Main.attempt_env) (s : st)
    (page_content : str) :
  Main.step e Main.WriteCaptchaSuccess = None ->
  Main.step e Main.WaitCaptcha = None ->
  Main.content_after_captcha e = Ok page_content ->
  any_in Main.captcha_error_texts page_content = false ->
  In captcha_wait (trace (snd (Main.captcha_branch this e s)))
  /\ login_success (snd (Main.captcha_branch this e s)) = true
  /\ captcha_verdict_of (trace (snd (Main.captcha_branch this e s)))
     = Some CaptchaSuccess
  /\ fst (Main.captcha_branch this e s) <> Continued
  /\ success (snd (Main.captcha_branch this e s)) = success s
  /\ live (snd (Main.captcha_branch this e s)) = live s
  /\ (Main.step e Main.WaitProduct = None ->
      fst (Main.captcha_branch this e s) = Normal page_content).
Proof.
  intros H1 H2 H3 H4. destruct s as [t lv br n su ls].
  unfold Main.captcha_branch. exec.
  rewrite H1. exec. rewrite H2. exec. rewrite H3. exec. rewrite H4. exec.
  destruct (Main.step e Main.WaitProduct); exec;
    [|destruct (Main.step e Main.Extraction); exec].
  all: split; [logged|]; split; [reflexivity|]; split; [reflexivity|];
    split; [discriminate|]; split; [reflexivity|]; split; [reflexivity|];
    intros; first [discriminate | reflexivity].
Qed.

End CaptchaFacts.

(** ** The [/scrape] endpoint *)

Section ApiFacts.
Import PyStr Py Spec.

Lemma launched_launch_fault (e : Api.env) :
  launched e <-> launch_fault e = None.
Proof.
  unfold launched, launch_fault, first_raised.
  destruct (Api.step e Api.AsyncPlaywright), (Api.step e Api.ExtensionLoad),
    (Api.step e Api.LaunchPersistentContext), (Api.step e Api.NewPage),
    (Api.step e Api.AddInitScript), (Api.step e Api.StealthAsync);
    split; try discriminate; try (intros; by repeat split);
    intros (? & ? & ? & ? & ? & ?); discriminate.
Qed.

(** The handler, run on any request, gives the answer the first raising
    call decides. *)
Lemma post_scrape_by_first_fault (e : Api.env) :
  Api.post_scrape e = answer_by_first_fault e.
Proof.
  unfold Api.post_scrape, Api.scrape_shopee_product, Api.launch_browser_with_proxy,
    Main.initial, answer_by_first_fault, launch_fault, body_fault, body_calls,
    captcha_failed, handler_close.
  exec.
  repeat (split_step;
          cbv beta iota zeta delta [first_raised app andb]).
  all: reflexivity.
Qed.

Lemma answer_by_first_fault_shape (e : Api.env) :
  scrape_answer e (answer_by_first_fault e).
Proof.
  unfold answer_by_first_fault.
  destruct (launch_fault e) as [x|] eqn:Hl; [exact (answer_launch_error e x Hl)|].
  destruct (body_fault e) as [x|] eqn:Hb.
  - destruct (Api.step e (handler_close x)) as [y|] eqn:Hc;
      [exact (answer_close_error e x y Hl Hb Hc)|].
    unfold handler_close in Hc.
    destruct (exn_class_of x) eqn:Hx;
      first [ exact (answer_timeout e x Hl Hb Hx Hc)
            | apply (answer_error e x Hl Hb); [rewrite Hx; discriminate | exact Hc] ].
  - destruct (captcha_failed e) eqn:Hf;
      [exact (answer_captcha_failed e Hl Hb Hf) | exact (answer_scraped e Hl Hb Hf)].
Qed.

Lemma post_scrape_launched (e : Api.env) :
  launched e ->
  Api.step e Api.CloseOnTimeout = None -> Api.step e Api.CloseOnError = None ->
  exists r, Api.post_scrape e = Api.Json r
            /\ (Api.success r = false -> Api.data r = None /\ Api.message r <> None).
Proof.
  intros Hl%launched_launch_fault Ht He.
  rewrite post_scrape_by_first_fault. unfold answer_by_first_fault. rewrite Hl.
  destruct (body_fault e) as [x|].
  - assert (Api.step e (handler_close x) = None) as ->
      by (unfold handler_close; by destruct (exn_class_of x)).
    destruct (exn_class_of x); eexists; (split; [reflexivity|]);
      intros _; (split; [reflexivity | discriminate]).
  - destruct (captcha_failed e); eexists; (split; [reflexivity|]); simpl;
      intros H; first [discriminate H | split; [reflexivity | discriminate]].
Qed.

(** C3, as stated, fails: the text of an internal exception is part of the
    message of the failure response, and a browser that cannot be launched
    is answered with status 500 and the exception text, not with a
    [{success: false, message}] body. *)
Lemma post_scrape_surfaces_exception_text :
  Api.post_scrape request_with_failing_goto
  = Api.Json (Api.Response false None
                (Some (lit "Error during scraping: net::ERR_PROXY_CONNECTION_FAILED")))
  /\ Api.post_scrape request_with_failing_launch
     = Api.HttpError 500 (lit "Server error: Executable doesn't exist").
Proof. split; vm_compute; reflexivity. Qed.

(** C3, amended: the answer to a request is decided by the first call
    into the driver that raises.  When the launch of the browser raises
    [x], the caller receives status 500 with "Server error: " followed by
    the text of [x].  When the browser is launched and no call of the body
    raises, the answer is the scraped data, or [{success: false, message}]
    with "Captcha failed - received error page".  When a call of the body
    raises [x], the handler for [x] closes the browser: if that
    [browser.close()] works the answer is [{success: false, message}] with
    "Timeout occurred while accessing the product page" for the driver's
    timeout and "Error during scraping: " followed by the text of [x] for
    any other exception; if it raises [y], the caller receives status 500
    with "Server error: " followed by the text of [y].  So a launched
    request whose handlers can close the browser is always answered with
    the JSON body, and a failure carries a message and no data. *)
Theorem post_scrape_structured (e : Api.env) :
  Api.post_scrape e = answer_by_first_fault e
  /\ scrape_answer e (Api.post_scrape e)
  /\ (launched e ->
      Api.step e Api.CloseOnTimeout = None -> Api.step e Api.CloseOnError = None ->
      exists r, Api.post_scrape e = Api.Json r
                /\ (Api.success r = false -> Api.data r = None /\ Api.message r <> None)).
Proof.
  split; [apply post_scrape_by_first_fault|]. split.
  - rewrite post_scrape_by_first_fault. apply answer_by_first_fault_shape.
  - apply post_scrape_launched.
Qed.

Lemma post_scrape_structured_witness :
  (exists r, Api.post_scrape request_with_failing_goto = Api.Json r
             /\ Api.success r = false /\ Api.data r = None)
  /\ scrape_answer request_with_failing_close
       (Api.HttpError 500
          (lit "Server error: Target page, context or browser has been closed")).
Proof.
  split.
  2: { pose proof (proj1 (proj2 (post_scrape_structured request_with_failing_close)))
         as Ha.
       assert (Api.post_scrape request_with_failing_close
               = Api.HttpError 500
                   (lit "Server error: Target page, context or browser has been closed"))
         as Heq by (vm_compute; reflexivity).
       rewrite Heq in Ha. exact Ha. }
  destruct (proj2 (proj2 (post_scrape_structured request_with_failing_goto)))
    as (r & Hr & Hfail).
  - repeat split; reflexivity.
  - reflexivity.
  - reflexivity.
  - exists r. split; [exact Hr|].
    assert (Api.success r = false) as Hs.
    { assert (Api.success
                <$> (match Api.post_scrape request_with_failing_goto with
                     | Api.Json r' => Some r'
                     | _ => None
                     end) = Some false) as Hc by (vm_compute; reflexivity).
      rewrite Hr in Hc. by injection Hc. }
    split; [exact Hs | exact (proj1 (Hfail Hs))].
Defined.

End ApiFacts.

(** ** One iteration of the attempt loop *)

Section AttemptFacts.
Import PyStr Py Spec Main.
Variables (this : nat) (proxy_config : Rotator.proxy) (e : attempt_env).

Lemma captcha_branch_post (s : st) :
  browser s = Some this ->
  match fst (captcha_branch this e s) with
  | Normal _ =>
    block_post False s (snd (captcha_branch this e s))
    /\ success (snd (captcha_branch this e s)) = success s
    /\ login_success (snd (captcha_branch this e s)) = true
  | Raised _ | Continued =>
    block_post False s (snd (captcha_branch this e s))
    /\ success (snd (captcha_branch this e s)) = success s
  | Returned _ => False
  end.
Proof.
  destruct s as [t lv br n su ls]. simpl. intros ->.
  unfold captcha_branch. exec. repeat split_step; leaf.
Qed.

Lemma post_login_post (s : st) :
  browser s = Some this ->
  match fst (post_login this e s) with
  | Normal _ | Raised _ =>
    block_post (no_challenge_marker e) s (snd (post_login this e s))
    /\ success (snd (post_login this e s)) = success s
    /\ (no_challenge_marker e -> login_success s = false ->
        login_success (snd (post_login this e s)) = false)
  | Continued =>
    block_post (no_challenge_marker e) s (snd (post_login this e s))
    /\ success (snd (post_login this e s)) = success s
  | Returned _ => False
  end.
Proof.
  destruct s as [t lv br n su ls]. simpl. intros ->.
  unfold post_login. exec.
  repeat first
    [ match goal with
      | |- context [captcha_branch this e ?s0] =>
        let H := fresh "Hsub" in
        pose proof (captcha_branch_post s0 eq_refl) as H;
        destruct (captcha_branch this e s0) as [[?|?|?|] [? ? ? ? ? ?]];
        learn H
      end
    | split_step ];
    leaf.
Qed.

Lemma login_logs_no_captcha_wait (s s' : st) :
  grows_by login_event s s' ->
  In captcha_wait (trace s') -> In captcha_wait (trace s).
Proof.
  intros Hg H. destruct (grows_by_In _ _ _ _ Hg H) as [Hev|]; [|done].
  simpl in Hev. lia.
Qed.

Lemma await_login_post (s : st) :
  exists b t',
    await_login e s
    = (Normal (Some b),
       St t' (live s) (browser s) (attempts s) (success s) (login_success s))
    /\ (In captcha_wait t' -> In captcha_wait (trace s)).
Proof.
  unfold await_login.
  destruct (login_returns (login e) s) as (b & s' & -> & Hl & Hg & _).
  pose proof (login_logs_no_captcha_wait _ _ Hg) as Hw.
  destruct s' as [t' ? ? ? ? ?]. exists b, t'.
  unfold same_locals in Hl. simpl in Hl, Hw. destruct_and?. by subst.
Qed.

Lemma login_block_post (s : st) :
  browser s = Some this ->
  match fst (login_block this e s) with
  | Normal _ | Raised _ =>
    block_post (no_challenge_marker e) s (snd (login_block this e s))
    /\ success (snd (login_block this e s)) = success s
    /\ (no_challenge_marker e -> login_success (snd (login_block this e s)) = false)
  | Continued =>
    block_post (no_challenge_marker e) s (snd (login_block this e s))
    /\ success (snd (login_block this e s)) = success s
  | Returned _ => False
  end.
Proof.
  destruct s as [t lv br n su ls]. simpl. intros ->.
  unfold login_block. exec.
  repeat first
    [ match goal with
      | |- context [await_login e ?s0] =>
        let H := fresh "Hsub" in
        destruct (await_login_post s0) as (? & ? & -> & H);
        cbv beta iota zeta delta [trace live browser attempts success login_success]
          in H |- *;
        exec
      | |- context [post_login this e ?s0] =>
        let H := fresh "Hsub" in
        pose proof (post_login_post s0 eq_refl) as H;
        destruct (post_login this e s0) as [[?|?|?|] [? ? ? ? ? ?]];
        learn H
      end
    | split_step ];
    leaf.
Qed.

Lemma finish_post (s : st) :
  browser s = Some this ->
  match fst (finish e s) with
  | Normal _ =>
    block_post True s (snd (finish e s))
    /\ success (snd (finish e s)) = (login_success s || success s)
  | Raised _ =>
    block_post True s (snd (finish e s))
    /\ (login_success s = false -> success (snd (finish e s)) = success s)
  | Returned _ | Continued => False
  end.
Proof.
  destruct s as [t lv br n su ls]. simpl. intros ->.
  unfold finish. exec. repeat split_step; leaf.
Qed.

(** With [browser] bound the handlers end normally, or by the exception
    of their [browser.close()]. *)
Lemma on_exception_post (x : exn) (b : nat) (s : st) :
  browser s = Some b ->
  match fst (on_exception e x s) with
  | Normal _ | Raised _ =>
    block_post True s (snd (on_exception e x s))
    /\ success (snd (on_exception e x s)) = success s
  | Returned _ | Continued => False
  end.
Proof.
  destruct s as [t lv br n su ls]. simpl. intros ->.
  unfold on_exception.
  destruct (exn_class_of x); exec; repeat split_step; leaf.
Qed.

(** With [browser] not yet bound the handlers themselves raise, and no
    context is closed. *)
Lemma on_exception_unbound (x : exn) (s : st) :
  browser s = None ->
  fst (on_exception e x s) = Raised (Exn UnboundLocalError (lit "browser"))
  /\ block_post True s (snd (on_exception e x s))
  /\ success (snd (on_exception e x s)) = success s.
Proof.
  destruct s as [t lv br n su ls]. simpl. intros ->.
  unfold on_exception.
  destruct (exn_class_of x); exec; repeat split_step; leaf.
Qed.

Lemma language_dialog_post (s : st) :
  exists t',
    language_dialog e s
    = (Normal tt,
       St t' (live s) (browser s) (attempts s) (success s) (login_success s))
    /\ (In captcha_wait t' -> In captcha_wait (trace s)).
Proof.
  destruct s as [t lv br n su ls].
  unfold language_dialog. exec.
  repeat split_step; eexists; (split; [reflexivity|]); intros; in_wait.
Qed.

Lemma first_present_post (count : str -> result nat) (sels : list str) (s : st) :
  (exists a, first_present (R:=unit) count sels s = (Normal a, s))
  \/ (exists x, first_present (R:=unit) count sels s = (Raised x, s)).
Proof.
  destruct (silent_first_present (R:=unit) count sels s) as [Hp Hs].
  destruct (first_present count sels s) as [[a|x|r|] s']; simpl in *; subst;
    try done; eauto.
Qed.

(** The sub-blocks of an iteration, met during its symbolic execution. *)
Ltac sub_block :=
  match goal with
  | |- context [language_dialog e ?s0] =>
    let H := fresh "Hsub" in
    destruct (language_dialog_post s0) as (? & -> & H);
    cbv beta iota zeta delta [trace live browser attempts success login_success]
      in H |- *;
    exec
  | |- context [first_present (google_button_count e) ?sels ?s0] =>
    destruct (first_present_post (google_button_count e) sels s0)
      as [[? ->]|[? ->]];
    exec
  | |- context [login_block this e ?s0] =>
    let H := fresh "Hsub" in
    pose proof (login_block_post s0 eq_refl) as H;
    destruct (login_block this e s0) as [[?|?|?|] [? ? ? ? ? ?]];
    learn H
  | |- context [finish e ?s0] =>
    let H := fresh "Hsub" in
    pose proof (finish_post s0 eq_refl) as H;
    destruct (finish e s0) as [[?|?|?|] [? ? ? ? ? ?]];
    learn H
  | |- context [on_exception e ?x ?s0] =>
    let H := fresh "Hsub" in
    pose proof (on_exception_post x this s0 eq_refl) as H;
    destruct (on_exception e x s0) as [[?|?|?|] [? ? ? ? ? ?]];
    learn H
  end.

(** An iteration whose browser was launched: [browser] names its
    context from then on, and the iteration never [return]s. *)
Lemma attempt_launched (s : st) :
  launch_completes e ->
  (forall r, fst (attempt this proxy_config e s) <> Returned r)
  /\ attempts (snd (attempt this proxy_config e s)) = attempts s
  /\ browser (snd (attempt this proxy_config e s)) = Some this
  /\ (no_challenge_marker e ->
      success (snd (attempt this proxy_config e s)) = success s
      /\ (In captcha_wait (trace (snd (attempt this proxy_config e s))) ->
          In captcha_wait (trace s))).
Proof.
  intros (H1 & H2 & H3 & H4). destruct s as [t lv br n su ls].
  unfold attempt, launch_browser_with_proxy. rewrite H1, H2, H3, H4. exec.
  repeat first [ sub_block | split_step ]; leaf.
Qed.

(** Any iteration at all, whether or not its browser could be launched:
    the attempt counter is not touched, [return] does not occur, and
    without a challenge marker neither [success] is set nor the captcha
    wait run. *)
Lemma attempt_any (s : st) :
  attempts (snd (attempt this proxy_config e s)) = attempts s
  /\ (forall r, fst (attempt this proxy_config e s) <> Returned r)
  /\ (no_challenge_marker e ->
      success (snd (attempt this proxy_config e s)) = success s
      /\ (In captcha_wait (trace (snd (attempt this proxy_config e s))) ->
          In captcha_wait (trace s))).
Proof.
  destruct (step e LaunchPersistentContext) as [x1|] eqn:H1;
    [|destruct (step e NewPage) as [x2|] eqn:H2;
      [|destruct (step e AddInitScript) as [x3|] eqn:H3;
        [|destruct (step e StealthAsync) as [x4|] eqn:H4]]].
  5: { destruct (attempt_launched s) as (Hr & Ha & _ & Hq); [by repeat split|].
       split; [done|]. split; [exact Hr | done]. }
  all: destruct s as [t lv [b|] n su ls];
    unfold attempt, launch_browser_with_proxy; rewrite ?H1, ?H2, ?H3, ?H4; exec.
  all: match goal with
       | |- context [on_exception e ?x (St ?t' ?lv' (Some ?b') ?n' ?su' ?ls')] =>
         let H := fresh "Hsub" in
         pose proof (on_exception_post x b' (St t' lv' (Some b') n' su' ls') eq_refl) as H;
         destruct (on_exception e x (St t' lv' (Some b') n' su' ls'))
           as [[?|?|?|] [? ? ? ? ? ?]];
         learn H
       | |- context [on_exception e ?x (St ?t' ?lv' None ?n' ?su' ?ls')] =>
         let H := fresh "Hsub" in
         pose proof (on_exception_unbound x (St t' lv' None n' su' ls') eq_refl) as H;
         destruct (on_exception e x (St t' lv' None n' su' ls'))
           as [? [? ? ? ? ? ?]];
         learn H
       end.
  all: leaf.
Qed.

End AttemptFacts.

(** ** The attempt loop *)

Section LoopFacts.
Import PyStr Py Spec Main.

Lemma while_loop_step (fuel : nat) (envs : nat -> attempt_env)
    (rot : Rotator.ProxyRotator) (s : st) :
  while_loop (S fuel) envs rot s
  = if negb (success s) && (attempts s <? max_attempts_before_break)%nat
    then
      let e := envs (S (attempts s)) in
      match Rotator.get_random_proxy rot (draw e) with
      | (Raise x, rot') => Some (Raised x, rot', s)
      | (Ok proxy_config, rot') =>
        match proxy_config with
        | None =>
          Some (Raised (Exn TypeError (lit "'NoneType' object is not subscriptable")),
                rot', incr_attempts s)
        | Some p =>
          match bind (print "--- Attempt")
                  (fun _ => attempt (S (attempts s)) p e) (incr_attempts s) with
          | (Normal _, s') | (Continued, s') => while_loop fuel envs rot' s'
          | (Raised x, s') => Some (Raised x, rot', s')
          | (Returned r, s') => Some (Returned r, rot', s')
          end
        end
      end
    else Some (Normal tt, rot, s).
Proof. reflexivity. Qed.

Lemma while_loop_done (fuel : nat) (envs : nat -> attempt_env)
    (rot : Rotator.ProxyRotator) (s : st) :
  negb (success s) && (attempts s <? max_attempts_before_break)%nat = false ->
  while_loop fuel envs rot s = Some (Normal tt, rot, s).
Proof. intros H. destruct fuel; simpl; by rewrite H. Qed.

(** One iteration as the loop runs it: the line that announces the
    attempt, then the attempt. *)
Lemma announced_attempt (this : nat) (p : Rotator.proxy) (e : attempt_env) (s : st) :
  bind (print "--- Attempt") (fun _ => attempt this p e) s
  = attempt this p e
      (St (EvPrint "--- Attempt" :: trace s) (live s) (browser s) (attempts s)
          (success s) (login_success s)).
Proof. reflexivity. Qed.



(** A blocked attempt, step by step. *)
Lemma attempt_blocked (this : nat) (p : Rotator.proxy) (e : attempt_env)
    (t : list event) (lv : list nat) (br : option nat) (n : nat) (su ls : bool) :
  launch_completes e -> step e Goto = None -> step e WaitStabilize = None ->
  Detector.is_shopee_blocking (block_page e) = true ->
  step e CloseBlocked = None ->
  attempt this p e (St t lv br n su ls)
  = (Continued,
     St (EvClose this
         :: EvPrint "Shopee is blocking this proxy, switching to next..."
         :: EvWait 10000 10000
         :: EvPrint "Accessing Shopee..."
         :: EvOpen this (Rotator.server p)
         :: EvPrint "Launching browser with proxy" :: t)
        (filter (fun x => x <> this) (this :: lv)) (Some this) n su ls).
Proof.
  intros (H1 & H2 & H3 & H4) H5 H6 H7 H8.
  unfold attempt, launch_browser_with_proxy.
  rewrite H1, H2, H3, H4, H5, H6, H7, H8. reflexivity.
Qed.

Lemma get_random_proxy_proxies (rot : Rotator.ProxyRotator) (r : nat) :
  Rotator.proxies (snd (Rotator.get_random_proxy rot r)) = Rotator.proxies rot.
Proof.
  unfold Rotator.get_random_proxy.
  destruct (Rotator.proxies rot) as [|p0 pool] eqn:E; [done|].
  destruct (filter _ _); by destruct (Rotator.choice _ _).
Qed.

Lemma filter_out_self (this : nat) : filter (fun x => x <> this) [this] = [].
Proof. rewrite filter_cons_False; [done|]. by intros H. Qed.


End LoopFacts.

Section LoopClaims.
Import PyStr Py Spec Main.




End LoopClaims.

(** ** Success and the challenge marker *)

Section SuccessFacts.
Import PyStr Py Spec Main.

Lemma await_login_done (e : attempt_env) (s : st) :
  (forall s, fst (Login.handle_google_login_process (login e) s) = Ok (Some true)) ->
  exists t',
    await_login e s
    = (Normal (Some true),
       St t' (live s) (browser s) (attempts s) (success s) (login_success s)).
Proof.
  intros Hlogin. destruct (await_login_post e s) as (b & t' & Heq & _).
  exists t'. rewrite Heq. specialize (Hlogin s).
  unfold await_login in Heq.
  destruct (Login.handle_google_login_process (login e) s) as [[v|x] s1];
    simpl in Hlogin; [|discriminate].
  injection Hlogin as ->. by injection Heq as <- _.
Qed.

Lemma attempt_solved (this : nat) (p : Rotator.proxy) (e : attempt_env)
    (page_content : str) (s : st) :
  solved_attempt e page_content ->
  fst (attempt this p e s) = Normal tt
  /\ success (snd (attempt this p e s)) = true
  /\ live (snd (attempt this p e s)) = filter (fun x => x <> this) (this :: live s)
  /\ In captcha_wait (trace (snd (attempt this p e s)))
  /\ In (EvExtract this) (trace (snd (attempt this p e s)))
  /\ head (trace (snd (attempt this p e s))) = Some (EvClose this).
Proof.
  intros (Hstep & Hblock & [sel Hbutton] & Hlogin & [c0 Hc0] & Hcap & Hc & Herr
          & Happ & Hlen).
  destruct s as [t lv br n su ls].
  unfold attempt, launch_browser_with_proxy, login_block, post_login,
    captcha_branch, finish.
  rewrite !Hstep, Hblock, Hcap, Hc0, Hc. exec.
  match goal with
  | |- context [language_dialog e ?s0] =>
    destruct (language_dialog_post e s0) as (t1 & -> & _)
  end.
  exec. rewrite Hbutton. exec.
  match goal with
  | |- context [await_login e ?s0] =>
    destruct (await_login_done e s0 Hlogin) as (t2 & ->)
  end.
  exec. rewrite Herr, Happ, Hlen. exec.
  repeat split; logged.
Qed.

Lemma attempt_unchallenged (this : nat) (p : Rotator.proxy) (e : attempt_env)
    (page_content : str) (s : st) :
  unchallenged_attempt e page_content ->
  fst (attempt this p e s) = Normal tt
  /\ success (snd (attempt this p e s)) = success s
  /\ live (snd (attempt this p e s)) = filter (fun x => x <> this) (this :: live s)
  /\ exists older,
       trace (snd (attempt this p e s))
       = EvClose this :: EvPrint "Google login failed, trying another proxy..."
         :: older.
Proof.
  intros (Hstep & Hblock & [sel Hbutton] & Hlogin & Hc0 & Hcap & Happ & Hlen).
  destruct s as [t lv br n su ls].
  unfold attempt, launch_browser_with_proxy, login_block, post_login, finish.
  rewrite !Hstep, Hblock, Hcap, Hc0. exec.
  match goal with
  | |- context [language_dialog e ?s0] =>
    destruct (language_dialog_post e s0) as (t1 & -> & _)
  end.
  exec. rewrite Hbutton. exec.
  match goal with
  | |- context [await_login e ?s0] =>
    destruct (await_login_done e s0 Hlogin) as (t2 & ->)
  end.
  exec. rewrite Happ, Hlen. exec.
  repeat split. by eexists.
Qed.

End SuccessFacts.

Section SuccessClaims.
Import PyStr Py Spec Main.

(** C1, as stated, fails: the login completes with [True], no challenge
    marker is present, the page shows no app-only error and is not nearly
    blank, and yet the attempt does not set [success]: it ends as a failed
    login and the loop goes on. *)
Lemma attempt_without_marker_is_not_success :
  let page_content := replicate 500 97 in
  let e := smooth_attempt 0 page_content [] in
  fst (Login.handle_google_login_process (login e) initial) = Ok (Some true)
  /\ no_challenge_marker e
  /\ any_in app_only_error_texts page_content = false
  /\ (len (strip page_content) <? 200)%Z = false
  /\ success (snd (attempt 1 some_proxy e initial)) = false
  /\ In (EvPrint "Google login failed, trying another proxy...")
       (trace (snd (attempt 1 some_proxy e initial))).
Proof.
  cbv zeta. unfold no_challenge_marker.
  split; [vm_compute; reflexivity|]. split; [vm_compute; reflexivity|].
  split; [vm_compute; reflexivity|]. split; [vm_compute; reflexivity|].
  split; [vm_compute; reflexivity|].
  vm_compute. tauto.
Qed.

(** C1, amended: [success] is set only in an attempt that shows a
    challenge marker.  Without a marker the captcha wait is not run and
    the attempt never sets [success]; when everything else goes right it
    prints "Google login failed, trying another proxy...", closes its
    browser context and the loop goes on.  With a marker, a wait that ends
    without a captcha error and a page without app-only error that is not
    nearly blank, the attempt runs the wait and the extraction, closes its
    browser context and sets [success]. *)
Theorem success_needs_challenge_marker (this : nat) (p : Rotator.proxy)
    (e : attempt_env) (s : st) :
  (no_challenge_marker e ->
   success (snd (attempt this p e s)) = success s
   /\ (In captcha_wait (trace (snd (attempt this p e s))) ->
       In captcha_wait (trace s)))
  /\ (forall page_content, unchallenged_attempt e page_content ->
      fst (attempt this p e s) = Normal tt
      /\ success (snd (attempt this p e s)) = success s
      /\ live (snd (attempt this p e s))
         = filter (fun x => x <> this) (this :: live s)
      /\ exists older,
           trace (snd (attempt this p e s))
           = EvClose this :: EvPrint "Google login failed, trying another proxy..."
             :: older)
  /\ (forall page_content, solved_attempt e page_content ->
      fst (attempt this p e s) = Normal tt
      /\ success (snd (attempt this p e s)) = true
      /\ live (snd (attempt this p e s))
         = filter (fun x => x <> this) (this :: live s)
      /\ In captcha_wait (trace (snd (attempt this p e s)))
      /\ In (EvExtract this) (trace (snd (attempt this p e s)))
      /\ head (trace (snd (attempt this p e s))) = Some (EvClose this)).
Proof.
  split; [|split].
  - intros Hq. destruct (attempt_any this p e s) as (_ & _ & H). exact (H Hq).
  - intros page_content. apply attempt_unchallenged.
  - intros page_content. apply attempt_solved.
Qed.

Lemma success_needs_challenge_marker_witness :
  success (snd (attempt 1 some_proxy (smooth_attempt 0 (replicate 500 97) []) initial))
  = false
  /\ success (snd (attempt 1 some_proxy
                     (smooth_attempt 1 (replicate 500 97) (replicate 500 98))
                     initial))
     = true.
Proof.
  split.
  - assert (no_challenge_marker (smooth_attempt 0 (replicate 500 97) [])) as Hq
      by (vm_compute; reflexivity).
    destruct (proj1 (success_needs_challenge_marker 1 some_proxy
                       (smooth_attempt 0 (replicate 500 97) []) initial) Hq)
      as [Hs _].
    exact Hs.
  - assert (solved_attempt (smooth_attempt 1 (replicate 500 97) (replicate 500 98))
              (replicate 500 98)) as Hsolved.
    { unfold solved_attempt. split; [reflexivity|].
      split; [vm_compute; reflexivity|].
      split; [exists (quoted "button:has-text(" "Google" ")"); reflexivity|].
      split; [intros [t lv br n su ls]; vm_compute; reflexivity|].
      split; [by eexists|].
      split; [vm_compute; reflexivity|]. split; [reflexivity|].
      split; [vm_compute; reflexivity|]. split; vm_compute; reflexivity. }
    destruct (proj2 (proj2 (success_needs_challenge_marker 1 some_proxy
                              (smooth_attempt 1 (replicate 500 97) (replicate 500 98))
                              initial)) _ Hsolved)
      as (_ & Hs & _).
    exact Hs.
Defined.

End SuccessClaims.

(** ** Browser contexts across the loop *)

Section SessionFacts.
Import PyStr Py Spec Main.

Section OneAttempt.
Variables (this : nat) (proxy_config : Rotator.proxy) (e : attempt_env).
Hypothesis closes : attempt_closes_work e.

Ltac closes_work :=
  destruct closes as (C1 & C2 & C3 & C4 & C5 & C6 & C7 & C8 & C9);
  rewrite ?C1, ?C2, ?C3, ?C4, ?C5, ?C6, ?C7, ?C8, ?C9.

Ltac live_leaf :=
  unfold live_post;
  cbv beta iota zeta delta
      [fst snd trace live browser attempts success login_success];
  repeat match goal with a : unit |- _ => destruct a end;
  first [ split; [first [left; reflexivity | right; reflexivity | reflexivity]
                 | first [reflexivity | split; reflexivity] ] ].

Ltac live_learn H :=
  unfold live_post in H;
  cbv beta iota zeta delta
      [fst snd trace live browser attempts success login_success] in H;
  destruct_and?; try done; subst; exec.

Lemma captcha_branch_closes (s : st) :
  browser s = Some this ->
  match fst (captcha_branch this e s) with
  | Normal _ | Raised _ => live_post this false s (snd (captcha_branch this e s))
  | Continued => live_post this true s (snd (captcha_branch this e s))
  | Returned _ => False
  end.
Proof.
  destruct s as [t lv br n su ls]. simpl. intros ->.
  unfold captcha_branch. closes_work. exec. repeat split_step; live_leaf.
Qed.

Lemma post_login_closes (s : st) :
  browser s = Some this ->
  match fst (post_login this e s) with
  | Normal _ | Raised _ => live_post this false s (snd (post_login this e s))
  | Continued => live_post this true s (snd (post_login this e s))
  | Returned _ => False
  end.
Proof.
  destruct s as [t lv br n su ls]. simpl. intros ->.
  unfold post_login. closes_work. exec.
  repeat first
    [ match goal with
      | |- context [captcha_branch this e ?s0] =>
        let H := fresh "Hsub" in
        pose proof (captcha_branch_closes s0 eq_refl) as H;
        destruct (captcha_branch this e s0) as [[?|?|?|] [? ? ? ? ? ?]];
        live_learn H
      end
    | split_step ];
    live_leaf.
Qed.

Lemma login_block_closes (s : st) :
  browser s = Some this ->
  match fst (login_block this e s) with
  | Normal _ | Raised _ => live_post this false s (snd (login_block this e s))
  | Continued => live_post this true s (snd (login_block this e s))
  | Returned _ => False
  end.
Proof.
  destruct s as [t lv br n su ls]. simpl. intros ->.
  unfold login_block. closes_work. exec.
  repeat first
    [ match goal with
      | |- context [await_login e ?s0] =>
        destruct (await_login_post e s0) as (? & ? & -> & _);
        cbv beta iota zeta delta [trace live browser attempts success login_success];
        exec
      | |- context [post_login this e ?s0] =>
        let H := fresh "Hsub" in
        pose proof (post_login_closes s0 eq_refl) as H;
        destruct (post_login this e s0) as [[?|?|?|] [? ? ? ? ? ?]];
        live_learn H
      end
    | split_step ];
    live_leaf.
Qed.

Lemma finish_closes (s : st) :
  browser s = Some this ->
  match fst (finish e s) with
  | Normal _ => live_post this true s (snd (finish e s))
  | Raised _ => live_post this false s (snd (finish e s))
  | Returned _ | Continued => False
  end.
Proof.
  destruct s as [t lv br n su ls]. simpl. intros ->.
  unfold finish. closes_work. exec. repeat split_step; live_leaf.
Qed.

Lemma on_exception_closes (x : exn) (s : st) :
  browser s = Some this ->
  fst (on_exception e x s) = Normal tt
  /\ live_post this true s (snd (on_exception e x s)).
Proof.
  destruct s as [t lv br n su ls]. simpl. intros ->.
  unfold on_exception. closes_work.
  destruct (exn_class_of x); exec; repeat split_step; live_leaf.
Qed.

(** An iteration whose browser was launched and can be closed: no
    exception leaves it, and the context it opened is closed when it
    ends. *)
Lemma attempt_launched_closes (s : st) :
  launch_completes e ->
  (fst (attempt this proxy_config e s) = Normal tt
   \/ fst (attempt this proxy_config e s) = Continued)
  /\ live (snd (attempt this proxy_config e s))
     = filter (fun x => x <> this) (this :: live s).
Proof.
  intros (H1 & H2 & H3 & H4). destruct s as [t lv br n su ls].
  unfold attempt, launch_browser_with_proxy. rewrite H1, H2, H3, H4.
  closes_work. exec.
  repeat first
    [ match goal with
      | |- context [language_dialog e ?s0] =>
        destruct (language_dialog_post e s0) as (? & -> & _);
        cbv beta iota zeta delta [trace live browser attempts success login_success];
        exec
      | |- context [first_present (google_button_count e) ?sels ?s0] =>
        destruct (first_present_post (google_button_count e) sels s0)
          as [[? ->]|[? ->]];
        exec
      | |- context [login_block this e ?s0] =>
        let H := fresh "Hsub" in
        pose proof (login_block_closes s0 eq_refl) as H;
        destruct (login_block this e s0) as [[?|?|?|] [? ? ? ? ? ?]];
        live_learn H
      | |- context [finish e ?s0] =>
        let H := fresh "Hsub" in
        pose proof (finish_closes s0 eq_refl) as H;
        destruct (finish e s0) as [[?|?|?|] [? ? ? ? ? ?]];
        live_learn H
      | |- context [on_exception e ?x ?s0] =>
        let H := fresh "Hsub" in
        pose proof (on_exception_closes x s0 eq_refl) as H;
        destruct (on_exception e x s0) as [? [? ? ? ? ? ?]];
        live_learn H
      end
    | split_step ];
    live_leaf.
Qed.

End OneAttempt.

(** As long as every launch completes and every [browser.close()] works,
    no context stays open: the loop ends without an exception and with no
    live context. *)
Lemma while_loop_closes_sessions (fuel : nat) (envs : nat -> attempt_env)
    (rot : Rotator.ProxyRotator) (s : st) :
  (forall n, launch_completes (envs n) /\ attempt_closes_work (envs n)) ->
  Rotator.proxies rot <> [] ->
  (max_attempts_before_break - attempts s <= fuel)%nat -> live s = [] ->
  exists rot' s',
    while_loop fuel envs rot s = Some (Normal tt, rot', s') /\ live s' = [].
Proof.
  intros Hl. revert rot s. induction fuel as [|fuel IH]; intros rot s Hpool Hfuel Hlv.
  - exists rot, s. split; [|done].
    apply while_loop_done. apply andb_false_iff. right. apply Nat.ltb_ge. lia.
  - rewrite while_loop_step.
    destruct (negb (success s) && (attempts s <? max_attempts_before_break)%nat)
      eqn:Hcond; [|by exists rot, s].
    apply andb_true_iff in Hcond as [_ Hlt]. apply Nat.ltb_lt in Hlt.
    cbv zeta.
    destruct (get_random_proxy_some rot (draw (envs (S (attempts s)))) Hpool)
      as (p & Hp & _).
    pose proof (get_random_proxy_proxies rot (draw (envs (S (attempts s))))) as Hsame.
    destruct (Rotator.get_random_proxy rot _) as [a rot']. simpl in Hp, Hsame.
    subst a. rewrite announced_attempt.
    set (s1 := St _ _ _ _ _ _).
    destruct (Hl (S (attempts s))) as [Hlaunch Hclose].
    destruct (attempt_launched_closes (S (attempts s)) p (envs (S (attempts s)))
                Hclose s1 Hlaunch) as (Hr & Hlive).
    destruct (attempt_any (S (attempts s)) p (envs (S (attempts s))) s1) as (Ha & _).
    assert (live s1 = []) as Hs1 by done. rewrite Hs1, filter_out_self in Hlive.
    assert (attempts s1 = S (attempts s)) as Hn by done.
    destruct (attempt _ p _ s1) as [r s2]. simpl in Hr, Ha, Hlive.
    destruct Hr as [-> | ->]; apply IH; try done; try lia; by rewrite Hsame.
Qed.

End SessionFacts.

Section SessionClaims.
Import PyStr Py Spec Main.

(** C2 at its failing inputs.  When [new_page] raises after the browser
    context was launched, the handler closes the context bound to
    [browser], not the one just opened.  In the first attempt [browser] is
    not bound yet: the handler raises, the run ends with "Critical error"
    after one attempt, and context 1 stays open.  In a later attempt
    [browser] still names the previous context: that one is closed a
    second time, context 2 stays open while contexts 3 to 10 are opened,
    and it is still open when the run ends. *)
Theorem main_leaks_session_when_launch_fails :
  (exists s', main 10 world_failing_first_launch = Some s'
              /\ attempts s' = 1%nat
              /\ sessions (trace s') = [Opened 1]
              /\ live s' = [1%nat]
              /\ head (trace s') = Some (EvPrint "Critical error"))
  /\ (exists s', main 10 world_failing_second_launch = Some s'
                 /\ sessions (trace s')
                    = [Opened 1; Closed 1; Opened 2; Closed 1; Opened 3; Closed 3;
                       Opened 4; Closed 4; Opened 5; Closed 5; Opened 6; Closed 6;
                       Opened 7; Closed 7; Opened 8; Closed 8; Opened 9; Closed 9;
                       Opened 10; Closed 10]
                 /\ live s' = [2%nat]).
Proof.
  split.
  - eexists. split; [vm_compute; reflexivity|].
    split; [reflexivity|]. split; [reflexivity|]. split; reflexivity.
  - eexists. split; [vm_compute; reflexivity|].
    split; reflexivity.
Qed.

End SessionClaims.

(* ================================================================== *)
(** * Further properties of the code *)
(* ================================================================== *)

(** ** [str.replace] where the old text cannot overlap itself *)

Section ReplaceOnce.
Import PyStr.
Variables (v : N) (old_tl new : str).
Hypothesis v_once : forallb (fun c => negb (c =? v)) old_tl = true.

(** No occurrence of [v :: old_tl] begins in a text free of it and runs
    into an occurrence that follows. *)
Lemma prefix_of_before_occurrence (a b : str) :
  a <> [] -> contains (v :: old_tl) a = false ->
  prefix_of (v :: old_tl) (a ++ (v :: old_tl) ++ b) = false.
Proof.
  intros Ha Hfree.
  destruct (prefix_of (v :: old_tl) (a ++ (v :: old_tl) ++ b)) eqn:E; [|done].
  apply prefix_of_app_cases in E as [E | (p2 & Hp & Hne & E)].
  - apply contains_false_prefix_of in Hfree. congruence.
  - destruct a as [|c a]; [done|]. injection Hp as -> ->.
    destruct p2 as [|q p2]; [done|]. simpl in E.
    apply andb_true_iff in E as [Hq _].
    rewrite forallb_app in v_once. apply andb_true_iff in v_once as [_ Hv].
    simpl in Hv. by rewrite Hq in Hv.
Qed.

(** The scan passes over a text free of the old text, replaces the
    occurrence that follows, and goes on behind it. *)
Lemma replace_scan_first_occurrence (a b : str) :
  contains (v :: old_tl) a = false ->
  replace_scan (v :: old_tl) new (a ++ (v :: old_tl) ++ b) O
  = a ++ new ++ replace_scan (v :: old_tl) new b O.
Proof.
  induction a as [|c a IH]; intros Hfree.
  - apply replace_scan_hit.
  - change ((c :: a) ++ (v :: old_tl) ++ b) with (c :: (a ++ (v :: old_tl) ++ b)).
    rewrite replace_scan_miss.
    + simpl. f_equal. apply IH. by apply (contains_false_suffix _ [c]).
    + by apply (prefix_of_before_occurrence (c :: a) b).
Qed.

End ReplaceOnce.

Section ReplaceLeavesNone.
Import PyStr.
Variables (v : N) (old_tl new_tl : str).
Hypothesis v_once : forallb (fun c => negb (c =? v)) old_tl = true.
Hypothesis new_closed :
  forall u w x, v :: new_tl = u ++ w -> w <> [] ->
                prefix_of (v :: old_tl) (w ++ x) = false.

(** A text the scan leaves as it is holds no occurrence of the old text. *)
Lemma replace_scan_fixed_free (s : str) :
  replace_scan (v :: old_tl) (v :: new_tl) s O = s ->
  contains (v :: old_tl) s = false.
Proof.
  induction s as [|c s IH]; intros Hfix; [done|].
  destruct (prefix_of (v :: old_tl) (c :: s)) eqn:E.
  - exfalso. apply prefix_of_spec in E as [t E]. rewrite E in Hfix.
    rewrite replace_scan_hit in Hfix.
    assert (prefix_of (v :: old_tl) ((v :: new_tl) ++ replace_scan (v :: old_tl) (v :: new_tl) t O)
            = true) as Hp by (rewrite Hfix; apply prefix_of_app).
    by rewrite (new_closed [] (v :: new_tl)) in Hp.
  - rewrite replace_scan_miss in Hfix by done. injection Hfix as Hfix.
    change (contains (v :: old_tl) (c :: s))
      with (prefix_of (v :: old_tl) (c :: s) || contains (v :: old_tl) s).
    by rewrite E, IH.
Qed.

Lemma replace_scan_result_free (s : str) :
  contains (v :: old_tl) (replace_scan (v :: old_tl) (v :: new_tl) s O) = false.
Proof.
  apply replace_scan_fixed_free.
  by apply (replace_scan_idempotent v old_tl new_tl).
Qed.

End ReplaceLeavesNone.

(** ** More on [update_js_contents] *)

Section UpdateJsContentsMore.
Import PyStr Extension.

Let lookup_tl : str := Eval vm_compute in tail api_key_lookup.
Let pre_tl : str := Eval vm_compute in tail (lit "var apiKey = " ++ [dquote]).
Let post : str := Eval vm_compute in [dquote] ++ lit ";".
Let assignment_tl (k : str) : str := pre_tl ++ k ++ post.

Lemma lookup_v_once : forallb (fun c => negb (c =? 118)) lookup_tl = true.
Proof. vm_compute. reflexivity. Qed.

Lemma api_key_assignment_eq (k : str) :
  api_key_assignment k = 118 :: assignment_tl k.
Proof. apply api_key_assignment_parts. Qed.

Lemma assignment_scan_closed (k : str) :
  contains api_key_lookup k = false ->
  forall u w x, 118 :: assignment_tl k = u ++ w -> w <> [] ->
                prefix_of (118 :: lookup_tl) (w ++ x) = false.
Proof.
  intros Hk u w x Hnew Hw. unfold lookup_tl. rewrite <-api_key_lookup_eq.
  rewrite <-api_key_assignment_eq in Hnew.
  destruct u as [|c u].
  - rewrite app_nil_l in Hnew. subst w. rewrite api_key_assignment_parts.
    rewrite <-app_assoc. apply lookup_not_at_pre.
  - apply (assignment_closed k (c :: u)); done.
Qed.

(** With a key that does not itself hold the looked-up statement, the
    patched script holds no [localStorage] lookup of the key any more. *)
Theorem update_js_contents_leaves_no_lookup (content api_key : str) :
  contains api_key_lookup api_key = false ->
  contains api_key_lookup (update_js_contents content api_key) = false.
Proof.
  intros Hk. rewrite update_js_contents_scan, api_key_lookup_eq.
  apply (replace_scan_result_free 118 lookup_tl (assignment_tl api_key)).
  - apply lookup_v_once.
  - by apply assignment_scan_closed.
Qed.

Lemma update_js_contents_leaves_no_lookup_witness :
  contains api_key_lookup
    (update_js_contents
       (lit "a;" ++ api_key_lookup ++ lit "b;" ++ api_key_lookup) (lit "KEY"))
  = false.
Proof.
  apply (update_js_contents_leaves_no_lookup _ (lit "KEY")).
  vm_compute. reflexivity.
Defined.

(** The patcher passes over text without the looked-up statement, puts the
    assignment of the key in the place of the first occurrence and goes on
    patching behind it; a script without the statement is returned as it
    is.  This holds for every key. *)
Theorem update_js_contents_first_occurrence (before after api_key : str) :
  contains api_key_lookup before = false ->
  update_js_contents (before ++ api_key_lookup ++ after) api_key
  = before ++ api_key_assignment api_key ++ update_js_contents after api_key
  /\ update_js_contents before api_key = before.
Proof.
  intros Hfree. rewrite !update_js_contents_scan. split.
  - rewrite api_key_lookup_eq in *. rewrite api_key_assignment_parts.
    by apply (replace_scan_first_occurrence 118 lookup_tl _ lookup_v_once).
  - rewrite api_key_lookup_eq in Hfree. by apply replace_scan_absent.
Qed.

Lemma update_js_contents_first_occurrence_witness :
  update_js_contents (lit "init();" ++ api_key_lookup ++ lit "run();") (lit "KEY")
  = lit "init();" ++ api_key_assignment (lit "KEY")
    ++ update_js_contents (lit "run();") (lit "KEY").
Proof.
  apply (update_js_contents_first_occurrence (lit "init();") (lit "run();") (lit "KEY")).
  vm_compute. reflexivity.
Defined.

End UpdateJsContentsMore.

(** ** More on the proxy rotator *)

Section RotatorMore.
Import PyStr Py Rotator Spec.

Lemma proxy_from_env_length (getenv : string -> option str) (prefix : string) :
  (length (proxy_from_env getenv prefix) <= 1)%nat.
Proof. unfold proxy_from_env. destruct (truthy _); simpl; lia. Qed.

Lemma proxy_from_env_elem (getenv : string -> option str) (prefix : string) (p : proxy) :
  p ∈ proxy_from_env getenv prefix ->
  server p <> []
  /\ getenv (prefix +:+ "_SERVER") = Some (server p)
  /\ username p = getenv (prefix +:+ "_USERNAME")
  /\ password p = getenv (prefix +:+ "_PASSWORD").
Proof.
  unfold proxy_from_env, truthy.
  destruct (getenv (prefix +:+ "_SERVER")) as [[|c srv]|] eqn:E; intros Hp;
    try by apply not_elem_of_nil in Hp.
  apply list_elem_of_singleton in Hp as ->. by simpl.
Qed.

Lemma load_proxies_flat_map (getenv : string -> option str) :
  _load_proxies_from_env getenv
  = flat_map (proxy_from_env getenv) proxy_prefixes.
Proof. reflexivity. Qed.

Lemma flat_map_length_le {A B} (f : A -> list B) (l : list A) :
  (forall a, (length (f a) <= 1)%nat) ->
  (length (flat_map f l) <= length l)%nat.
Proof.
  intros Hf. induction l as [|a l IH]; simpl; [lia|].
  rewrite length_app. specialize (Hf a). lia.
Qed.

Lemma load_proxies_from_env_nil (getenv : string -> option str) :
  _load_proxies_from_env getenv = []
  <-> forall prefix, prefix ∈ proxy_prefixes ->
                     truthy (getenv (prefix +:+ "_SERVER")) = false.
Proof.
  rewrite load_proxies_flat_map. split.
  - intros Hnil prefix Hpre.
    destruct (truthy (getenv (prefix +:+ "_SERVER"))) eqn:E; [|done].
    assert (In (Proxy (default [] (getenv (prefix +:+ "_SERVER")))
                  (getenv (prefix +:+ "_USERNAME"))
                  (getenv (prefix +:+ "_PASSWORD")))
               (flat_map (proxy_from_env getenv) proxy_prefixes)) as Hin.
    { apply in_flat_map. exists prefix. split; [by apply list_elem_of_In|].
      unfold proxy_from_env. rewrite E. by left. }
    rewrite Hnil in Hin. done.
  - intros Hnone. induction proxy_prefixes as [|prefix rest IH]; [done|].
    simpl. unfold proxy_from_env at 1.
    rewrite (Hnone prefix) by apply list_elem_of_here.
    apply IH. intros q Hq. apply Hnone. by apply list_elem_of_further.
Qed.

(** The pool read from the environment has at most 11 proxies; each of
    them comes from one of the 11 variable prefixes whose [_SERVER]
    variable is set to a non-empty string, with the user name and password
    of the same prefix; and the pool is empty exactly when no [_SERVER]
    variable is set to a non-empty string. *)
Theorem load_proxies_from_env_bounded (getenv : string -> option str) :
  (length (_load_proxies_from_env getenv) <= 11)%nat
  /\ (forall p, p ∈ _load_proxies_from_env getenv ->
        server p <> []
        /\ exists prefix, prefix ∈ proxy_prefixes
           /\ getenv (prefix +:+ "_SERVER") = Some (server p)
           /\ username p = getenv (prefix +:+ "_USERNAME")
           /\ password p = getenv (prefix +:+ "_PASSWORD"))
  /\ (_load_proxies_from_env getenv = []
      <-> forall prefix, prefix ∈ proxy_prefixes ->
                         truthy (getenv (prefix +:+ "_SERVER")) = false).
Proof.
  split; [|split; [|apply load_proxies_from_env_nil]];
    rewrite load_proxies_flat_map.
  - change 11%nat with (length proxy_prefixes).
    apply flat_map_length_le, proxy_from_env_length.
  - intros p Hp. apply list_elem_of_In, in_flat_map in Hp as (prefix & Hpre & Hp).
    apply list_elem_of_In in Hpre, Hp.
    destruct (proxy_from_env_elem _ _ _ Hp) as (? & ? & ? & ?).
    split; [done|]. by exists prefix.
Qed.

(** Inside a cycle, from any tried set: as long as fewer servers are
    tried than there are proxies, the proxy handed out has a server that
    was not tried, and exactly that server is added to the tried set. *)
Theorem get_random_proxy_untried (self : ProxyRotator) (r : nat) :
  NoDup (server <$> proxies self) ->
  (size (tried_proxies self) < length (proxies self))%nat ->
  exists p,
    get_random_proxy self r
    = (Ok (Some p), Rotator (proxies self) ({[server p]} ∪ tried_proxies self))
    /\ p ∈ proxies self /\ server p ∉ tried_proxies self.
Proof.
  intros Hpool Hlt. destruct self as [pool tried]. simpl in *.
  unfold get_random_proxy. simpl proxies. simpl tried_proxies.
  destruct pool as [|p0 pool'] eqn:E; [simpl in Hlt; lia|]. rewrite <-E in *.
  destruct (decide (length pool <= size tried)%nat) as [|_]; [lia|].
  destruct (filter _ pool) as [|a av] eqn:Ea.
  - exfalso.
    assert (list_to_set (C:=gset str) (server <$> pool) ⊆ tried) as Hsub.
    { intros x Hx. apply elem_of_list_to_set in Hx.
      apply list_elem_of_fmap in Hx as (p & -> & Hp).
      destruct (decide (server p ∈ tried)) as [|Hn]; [done|].
      assert (p ∈ filter (fun p => server p ∉ tried) pool) as Hf
        by by apply list_elem_of_filter.
      rewrite Ea in Hf. by apply not_elem_of_nil in Hf. }
    apply subseteq_size in Hsub. rewrite size_list_to_set in Hsub by done.
    rewrite length_fmap in Hsub. lia.
  - destruct (choice_some (a :: av) r) as (p & -> & Hp); [done|].
    rewrite <-Ea in Hp. apply list_elem_of_filter in Hp as [Hn Hp].
    by exists p.
Qed.

Lemma get_random_proxy_untried_witness :
  let pool := [Proxy (lit "http://a:1") None None;
               Proxy (lit "http://b:2") None None;
               Proxy (lit "http://c:3") None None] in
  exists p,
    fst (get_random_proxy (Rotator pool {[lit "http://b:2"]}) 7) = Ok (Some p)
    /\ server p <> lit "http://b:2".
Proof.
  intros pool.
  destruct (get_random_proxy_untried (Rotator pool {[lit "http://b:2"]}) 7)
    as (p & Hrun & _ & Hnew).
  - apply (bool_decide_unpack _). vm_compute. exact I.
  - apply (bool_decide_unpack _). vm_compute. exact I.
  - exists p. split; [by rewrite Hrun|].
    intros Heq. apply Hnew. simpl. rewrite Heq. by apply elem_of_singleton.
Defined.

(** When as many servers are tried as there are proxies, the next call
    starts a new cycle: any proxy of the pool may come, and the tried set
    is just its server. *)
Theorem get_random_proxy_new_cycle (self : ProxyRotator) (r : nat) :
  proxies self <> [] ->
  (length (proxies self) <= size (tried_proxies self))%nat ->
  exists p,
    get_random_proxy self r
    = (Ok (Some p), Rotator (proxies self) {[server p]})
    /\ p ∈ proxies self.
Proof.
  intros Hne Hge. destruct self as [pool tried]. simpl in *.
  unfold get_random_proxy. simpl proxies. simpl tried_proxies.
  destruct pool as [|p0 pool'] eqn:E; [done|]. rewrite <-E in *.
  destruct (decide (length pool <= size tried)%nat) as [_|]; [|lia].
  cbv zeta. destruct (filter _ pool) as [|a av] eqn:Ea.
  - destruct (choice_some pool r) as (p & -> & Hp); [done|].
    exists p. split; [|done]. by rewrite (right_id_L ∅ (∪)).
  - destruct (choice_some (a :: av) r) as (p & -> & Hp); [done|].
    exists p. split; [by rewrite (right_id_L ∅ (∪))|].
    rewrite <-Ea in Hp. by apply list_elem_of_filter in Hp as [_ Hp].
Qed.

Lemma get_random_proxy_new_cycle_witness :
  let pool := [Proxy (lit "http://a:1") None None;
               Proxy (lit "http://b:2") None None] in
  exists p,
    get_random_proxy (Rotator pool {[lit "http://a:1"; lit "http://b:2"]}) 3
    = (Ok (Some p), Rotator pool {[server p]}).
Proof.
  intros pool.
  destruct (get_random_proxy_new_cycle
              (Rotator pool {[lit "http://a:1"; lit "http://b:2"]}) 3)
    as (p & Hrun & _).
  - discriminate.
  - apply (bool_decide_unpack _). vm_compute. exact I.
  - by exists p.
Defined.

(** The fallback branch, which the source marks as one that should not
    happen, is taken when servers repeat in the pool: with fewer tried
    servers than proxies and yet every proxy's server tried, the tried set
    starts over and any proxy of the pool may come, also one whose server
    was tried in this cycle. *)
Theorem get_random_proxy_fallback (self : ProxyRotator) (r : nat) :
  proxies self <> [] ->
  (size (tried_proxies self) < length (proxies self))%nat ->
  (forall p, p ∈ proxies self -> server p ∈ tried_proxies self) ->
  exists p,
    get_random_proxy self r
    = (Ok (Some p), Rotator (proxies self) {[server p]})
    /\ p ∈ proxies self.
Proof.
  intros Hne Hlt Hall. destruct self as [pool tried]. simpl in *.
  unfold get_random_proxy. simpl proxies. simpl tried_proxies.
  destruct pool as [|p0 pool'] eqn:E; [done|]. rewrite <-E in *.
  destruct (decide (length pool <= size tried)%nat) as [|_]; [lia|].
  cbv zeta. destruct (filter _ pool) as [|a av] eqn:Ea.
  - destruct (choice_some pool r) as (p & -> & Hp); [done|].
    exists p. split; [|done]. by rewrite (right_id_L ∅ (∪)).
  - exfalso.
    assert (a ∈ filter (fun p => server p ∉ tried) pool) as Ha
      by (rewrite Ea; by left).
    apply list_elem_of_filter in Ha as [Hn Ha]. by apply Hn, Hall.
Qed.

Lemma get_random_proxy_fallback_witness :
  let pool := [Proxy (lit "http://a:1") (Some (lit "u1")) None;
               Proxy (lit "http://a:1") (Some (lit "u2")) None] in
  exists p,
    get_random_proxy (Rotator pool {[lit "http://a:1"]}) 1
    = (Ok (Some p), Rotator pool {[server p]}).
Proof.
  intros pool.
  destruct (get_random_proxy_fallback (Rotator pool {[lit "http://a:1"]}) 1)
    as (p & Hrun & _).
  - discriminate.
  - apply (bool_decide_unpack _). vm_compute. exact I.
  - intros p Hp. simpl. apply elem_of_singleton.
    apply elem_of_cons in Hp as [->|Hp]; [reflexivity|].
    apply elem_of_cons in Hp as [->|Hp]; [reflexivity|].
    by apply elem_of_nil in Hp.
  - by exists p.
Defined.

Lemma get_random_proxy_tried_in_pool (self : ProxyRotator) (r : nat) :
  tried_in_pool self -> tried_in_pool (snd (get_random_proxy self r)).
Proof.
  destruct self as [pool tried]. unfold tried_in_pool, get_random_proxy.
  simpl proxies. simpl tried_proxies. intros Hin.
  destruct pool as [|p0 pool'] eqn:E; [done|]. rewrite <-E in *.
  assert (forall p (tried0 : gset str),
            p ∈ pool -> tried0 ⊆ list_to_set (server <$> pool) ->
            {[server p]} ∪ tried0 ⊆ list_to_set (C:=gset str) (server <$> pool))
    as Hadd.
  { intros p tried0 Hp Ht x Hx. apply elem_of_union in Hx as [Hx|Hx]; [|by apply Ht].
    apply elem_of_singleton in Hx as ->.
    by apply elem_of_list_to_set, list_elem_of_fmap_2. }
  destruct (decide (length pool <= size tried)%nat); cbv zeta;
    destruct (filter _ pool) as [|a av] eqn:Ea.
  - destruct (choice_some pool r) as (p & -> & Hp); [by rewrite E|].
    simpl. apply Hadd; [done | set_solver].
  - destruct (choice_some (a :: av) r) as (p & -> & Hp); [done|].
    simpl. apply Hadd; [|set_solver].
    rewrite <-Ea in Hp. by apply list_elem_of_filter in Hp as [_ Hp].
  - destruct (choice_some pool r) as (p & -> & Hp); [by rewrite E|].
    simpl. apply Hadd; [done | set_solver].
  - destruct (choice_some (a :: av) r) as (p & -> & Hp); [done|].
    simpl. apply Hadd; [|done].
    rewrite <-Ea in Hp. by apply list_elem_of_filter in Hp as [_ Hp].
Qed.

(** However often and with whatever draws the rotator is called, its pool
    stays as loaded and its tried set holds servers of the pool only; this
    is so in particular for a fresh rotator. *)
Theorem calls_keep_tried_in_pool (self : ProxyRotator) (draws : list nat) :
  tried_in_pool self ->
  proxies (snd (calls self draws)) = proxies self
  /\ tried_in_pool (snd (calls self draws)).
Proof.
  revert self. induction draws as [|r draws IH]; intros self Hin; [done|].
  simpl. pose proof (get_random_proxy_tried_in_pool self r Hin) as H1.
  pose proof (get_random_proxy_proxies self r) as H2.
  destruct (get_random_proxy self r) as [a self1]. simpl in H1, H2.
  destruct (IH self1 H1) as [H3 H4].
  destruct (calls self1 draws) as [rest self2]. simpl in *.
  split; [congruence | done].
Qed.

Lemma calls_keep_tried_in_pool_witness :
  let pool := [Proxy (lit "http://a:1") None None;
               Proxy (lit "http://b:2") None None] in
  tried_in_pool (snd (calls (Rotator pool ∅) [4; 1; 1; 8; 0]%nat)).
Proof.
  intros pool.
  apply (calls_keep_tried_in_pool (Rotator pool ∅) [4; 1; 1; 8; 0]%nat).
  unfold tried_in_pool. simpl. set_solver.
Defined.

End RotatorMore.

(** ** More on the block detector *)

Section DetectorMore.
Import PyStr Py Detector Spec.

Lemma lstrip_all_space (s : str) : forallb is_space s = true -> lstrip s = [].
Proof.
  induction s as [|c s IH]; [done|]. simpl.
  intros H. apply andb_true_iff in H as [-> H]. auto.
Qed.

(** [strip] of nothing but white space is the empty string. *)
Lemma strip_all_space (s : str) : forallb is_space s = true -> strip s = [].
Proof. intros H. unfold strip. by rewrite (lstrip_all_space s H). Qed.

(** On a URL of the target site a page whose content, white space at both
    ends aside, is shorter than 100 code points is blocked, with no
    indicator string needed and whatever the other checks would say; a
    page of white space only is blocked at any length. *)
Theorem is_shopee_blocking_on_blank_page (p : page) (current_url page_content : str) :
  url p = Ok current_url -> content p = Ok page_content ->
  contains (lit "shopee") current_url = true ->
  (len (strip page_content) < 100)%Z \/ forallb is_space page_content = true ->
  is_shopee_blocking p = true.
Proof.
  intros Hu Hc Hs Hblank. unfold is_shopee_blocking, checks. rewrite Hu, Hc, Hs.
  replace (len (strip page_content) <? 100)%Z with true; [done|].
  symmetry. apply Z.ltb_lt. destruct Hblank as [?|Hsp]; [done|].
  by rewrite (strip_all_space _ Hsp).
Qed.

Lemma is_shopee_blocking_on_blank_page_witness :
  is_shopee_blocking
    (Page (Ok (lit "https://shopee.tw/item")) (Ok (replicate 5000 32))
       (fun _ => Ok true) (Some (Some (Ok 200%Z))))
  = true.
Proof.
  apply (is_shopee_blocking_on_blank_page _ (lit "https://shopee.tw/item")
           (replicate 5000 32)); [reflexivity | reflexivity | |].
  - vm_compute. reflexivity.
  - right. vm_compute. reflexivity.
Defined.

(** The detector answers "not blocked" exactly when the URL and the
    content can be read, no block indicator occurs in the content, on a URL
    of the target site the content is at least 100 code points long after
    stripping and one of the sign-in button selectors matches, and the
    stored response, if there is one, has a status below 400. *)
Theorem is_shopee_blocking_false_iff (p : page) :
  is_shopee_blocking p = false
  <-> exists current_url page_content,
        url p = Ok current_url /\ content p = Ok page_content
        /\ (~ exists indicator,
              In indicator block_indicators /\ substring indicator page_content)
        /\ (contains (lit "shopee") current_url = true ->
            (100 <= len (strip page_content))%Z
            /\ found_expected_element (query_selector p) google_button_selectors = true)
        /\ (forall x, last_response p <> Some (Some (Raise x)))
        /\ (forall status, last_response p = Some (Some (Ok status)) ->
                           (status < 400)%Z).
Proof.
  unfold is_shopee_blocking, checks. split.
  - intros H.
    destruct (url p) as [u|]; [|discriminate H].
    destruct (content p) as [c|]; [|discriminate H].
    destruct ((len (strip c) <? 100)%Z && contains (lit "shopee") u) eqn:Hb;
      [discriminate H|].
    destruct (any_in block_indicators c) eqn:Hind; [discriminate H|].
    destruct (negb (found_expected_element (query_selector p) google_button_selectors)
              && contains (lit "shopee") u) eqn:Hm; [discriminate H|].
    exists u, c. split; [done|]. split; [done|].
    split; [by apply any_in_false_spec|]. split.
    { intros Hs. rewrite Hs, andb_true_r in Hb, Hm.
      split; [by apply Z.ltb_ge | by apply negb_false_iff in Hm]. }
    destruct (last_response p) as [[[status|x]|]|]; [| discriminate H | by split..].
    destruct (400 <=? status)%Z eqn:Hst; [discriminate H|].
    split; [done|]. intros ? [= <-]. by apply Z.leb_gt.
  - intros (u & c & -> & -> & Hind & Hsite & Hraise & Hstatus).
    apply any_in_false_spec in Hind. rewrite Hind.
    assert (match last_response p with
            | Some (Some (Raise e)) => Raise e
            | Some (Some (Ok status)) => if (400 <=? status)%Z then Ok true else Ok false
            | _ => Ok false
            end = Ok false) as Hlast.
    { destruct (last_response p) as [[[status|x]|]|]; try done.
      - specialize (Hstatus status eq_refl).
        by replace (400 <=? status)%Z with false by (symmetry; apply Z.leb_gt; lia).
      - by destruct (Hraise x). }
    destruct (contains (lit "shopee") u).
    + destruct Hsite as [Hlen ->]; [done|].
      replace (len (strip c) <? 100)%Z with false by (symmetry; by apply Z.ltb_ge).
      unfold negb, andb. by rewrite Hlast.
    + rewrite !andb_false_r. by rewrite Hlast.
Qed.

End DetectorMore.

(** ** More on the login orchestrator *)

Section LoginMore.
Import PyStr Py Login Spec.
Variable e : env.










End LoginMore.

Section LoginMoreWitnesses.
Import PyStr Py Login Spec.



End LoginMoreWitnesses.

(** ** More on the attempt loop *)

Section LoopMore.
Import PyStr Py Spec Main.

(** With no [_SERVER] variable set to a non-empty string, [main] reports
    the missing proxies and stops: no attempt is made and no browser
    context is opened, whatever else the world would answer. *)
Theorem main_without_proxies (fuel : nat) (w : main_env) :
  (forall prefix, prefix ∈ proxy_prefixes ->
                  Rotator.truthy (getenv w (prefix +:+ "_SERVER")) = false) ->
  main fuel w
  = Some (St [EvPrint "No proxies found in environment variables!"] [] None 0
             false false).
Proof.
  intros Hnone. unfold main.
  assert (Rotator.proxies (Rotator.__init__ (getenv w)) = []) as ->; [|done].
  by apply (load_proxies_from_env_nil (getenv w)).
Qed.

Lemma main_without_proxies_witness :
  main 10 (MainEnv (fun _ => None) None None (fun _ => blocked_attempt))
  = Some (St [EvPrint "No proxies found in environment variables!"] [] None 0
             false false).
Proof. apply main_without_proxies. reflexivity. Defined.

(** Blocked attempts up to attempt [k], which solves the challenge: the
    loop stops right after attempt [k]. *)
Lemma while_loop_until_solved (w : main_env) (k : nat) (page_content : str)
    (j fuel : nat) (rot : Rotator.ProxyRotator) (s : st) :
  (forall n, (n < k)%nat -> blocked_at w n) ->
  solved_attempt (attempt_envs w k) page_content ->
  (k <= max_attempts_before_break)%nat ->
  Rotator.proxies rot <> [] ->
  (attempts s + j + 1 = k)%nat -> (j < fuel)%nat ->
  success s = false -> live s = [] ->
  exists rot' s',
    while_loop fuel (attempt_envs w) rot s = Some (Normal tt, rot', s')
    /\ attempts s' = k /\ success s' = true /\ live s' = [].
Proof.
  intros Hb Hsolved Hk. revert fuel rot s.
  induction j as [|j IH]; intros fuel rot s Hpool Hj Hfuel Hsu Hlv;
    (destruct fuel as [|fuel]; [lia|]); rewrite while_loop_step;
    rewrite Hsu;
    (replace (attempts s <? max_attempts_before_break)%nat with true
       by (symmetry; apply Nat.ltb_lt; lia));
    cbv zeta; simpl andb; cbv iota;
    destruct (get_random_proxy_some rot (draw (attempt_envs w (S (attempts s)))) Hpool)
      as (p & Hp & _);
    pose proof (get_random_proxy_proxies rot (draw (attempt_envs w (S (attempts s)))))
      as Hsame;
    destruct (Rotator.get_random_proxy rot _) as [a rot']; simpl in Hp, Hsame;
    subst a; rewrite announced_attempt.
  - replace (S (attempts s)) with k by lia.
    set (s1 := St _ _ _ _ _ _).
    destruct (attempt_solved k p (attempt_envs w k) page_content s1 Hsolved)
      as (Hr & Hsuc & Hlive & _).
    destruct (attempt_any k p (attempt_envs w k) s1) as (Ha & _).
    assert (live s1 = []) as Hs1 by done. rewrite Hs1, filter_out_self in Hlive.
    assert (attempts s1 = S (attempts s)) as Hn by done.
    destruct (attempt k p _ s1) as [r s2]. simpl in Hr, Hsuc, Hlive, Ha. subst r.
    exists rot', s2. split; [|split; [lia | done]].
    apply while_loop_done. by rewrite Hsuc.
  - destruct (Hb (S (attempts s))) as (Hl & Hg & Hs & Hblk & Hc); [lia|].
    destruct s as [t lv br n su ls]. simpl in *. subst su lv.
    rewrite (attempt_blocked _ _ _ _ _ _ _ _ _ Hl Hg Hs Hblk Hc).
    rewrite filter_out_self.
    apply IH; simpl; try done; try lia. by rewrite Hsame.
Qed.

(** The loop stops at the first success: when the attempts before
    attempt [k] are blocked ones (each comes as far as the detector, is
    answered "blocked", and its [browser.close()] works) and attempt [k]
    (not beyond the maximum) solves the challenge with every call
    working, [main] makes exactly [k] attempts, leaves no browser context
    open and reports success. *)
Theorem main_stops_at_first_success (fuel : nat) (w : main_env) (k : nat)
    (page_content : str) :
  (max_attempts_before_break <= fuel)%nat ->
  Rotator.proxies (Rotator.__init__ (getenv w)) <> [] ->
  extension_load w = None -> playwright_start w = None ->
  (1 <= k <= max_attempts_before_break)%nat ->
  (forall n, (n < k)%nat -> blocked_at w n) ->
  solved_attempt (attempt_envs w k) page_content ->
  exists s', main fuel w = Some s'
             /\ attempts s' = k /\ success s' = true /\ live s' = []
             /\ head (trace s')
                = Some (EvPrint "Successfully accessed Shopee and logged in").
Proof.
  intros Hfuel Hpool Hext Hstart Hk Hb Hsolved. unfold main.
  destruct (Rotator.proxies _) as [|p0 pool] eqn:E; [done|].
  rewrite Hext, Hstart. unfold initial. exec.
  set (s0 := St _ _ _ _ _ _).
  destruct (while_loop_until_solved w k page_content (k - 1) fuel
              (Rotator.__init__ (getenv w)) s0 Hb Hsolved)
    as (rot' & s' & -> & Ha & Hsu & Hlv); try done; try (simpl; lia).
  { by rewrite E. }
  destruct s' as [t' lv' br' n' su' ls']. simpl in *. subst su' lv'.
  eexists. split; [reflexivity|]. simpl. by repeat split.
Qed.

Lemma main_stops_at_first_success_witness :
  exists s', main 10 world_third_time_lucky = Some s'
             /\ attempts s' = 3%nat /\ success s' = true /\ live s' = [].
Proof.
  destruct (main_stops_at_first_success 10 world_third_time_lucky 3 (replicate 500 98))
    as (s' & Hrun & Ha & Hsu & Hlv & _).
  - apply le_n.
  - intros H. vm_compute in H. discriminate H.
  - reflexivity.
  - reflexivity.
  - unfold max_attempts_before_break. lia.
  - intros n Hn. assert (n <> 3%nat) as Hne by lia.
    unfold blocked_at, launch_completes, world_third_time_lucky.
    cbn [attempt_envs]. destruct (decide (n = 3%nat)); [done|].
    repeat split; vm_compute; reflexivity.
  - unfold world_third_time_lucky. cbn [attempt_envs].
    destruct (decide (3 = 3)%nat); [|done].
    unfold solved_attempt. split; [reflexivity|].
    split; [vm_compute; reflexivity|].
    split; [exists (quoted "button:has-text(" "Google" ")"); reflexivity|].
    split; [intros [t lv br n su ls]; vm_compute; reflexivity|].
    split; [by eexists|].
    split; [vm_compute; reflexivity|]. split; [reflexivity|].
    split; [vm_compute; reflexivity|]. split; vm_compute; reflexivity.
  - exists s'. repeat split; assumption.
Defined.

(** A navigation that fails takes the iteration into one of the two
    handlers of the loop body: "Timeout occurred, switching to next
    proxy..." is printed for the driver's timeout and "Error with current
    proxy" for any other exception, and [success] stays as it was.  The
    handler's [browser.close()] decides what comes next.  When it works,
    the browser context of the attempt is closed and the iteration ends
    normally, so the loop goes on with the next proxy.  When it raises,
    that exception leaves the iteration, and with it the loop, and the
    context stays open. *)
Theorem attempt_after_failed_navigation (this : nat) (p : Rotator.proxy)
    (e : attempt_env) (x : exn) (s : st) :
  launch_completes e -> step e Goto = Some x ->
  let close := match exn_class_of x with
               | PlaywrightTimeoutError => CloseOnTimeout
               | _ => CloseOnError
               end in
  success (snd (attempt this p e s)) = success s
  /\ In (EvPrint (match exn_class_of x with
                  | PlaywrightTimeoutError =>
                    "Timeout occurred, switching to next proxy..."
                  | _ => "Error with current proxy"
                  end))
       (trace (snd (attempt this p e s)))
  /\ (step e close = None ->
      fst (attempt this p e s) = Normal tt
      /\ live (snd (attempt this p e s))
         = filter (fun y => y <> this) (this :: live s)
      /\ head (trace (snd (attempt this p e s))) = Some (EvClose this))
  /\ (forall y, step e close = Some y ->
      fst (attempt this p e s) = Raised y
      /\ live (snd (attempt this p e s)) = this :: live s).
Proof.
  intros (H1 & H2 & H3 & H4) Hgoto. cbv zeta. destruct s as [t lv br n su ls].
  unfold attempt, launch_browser_with_proxy, on_exception.
  rewrite H1, H2, H3, H4, Hgoto. exec.
  destruct (exn_class_of x); exec; repeat split_step;
    (split; [reflexivity|]); (split; [logged|]);
    (split; [intros Hc; first [discriminate Hc | by repeat split]|]);
    intros y Hc; first [discriminate Hc | injection Hc as <-; by split].
Qed.

Lemma attempt_after_failed_navigation_witness :
  fst (attempt 1 some_proxy attempt_with_goto_timeout initial) = Normal tt
  /\ In (EvPrint "Timeout occurred, switching to next proxy...")
       (trace (snd (attempt 1 some_proxy attempt_with_goto_timeout initial))).
Proof.
  destruct (attempt_after_failed_navigation 1 some_proxy attempt_with_goto_timeout
              (Exn PlaywrightTimeoutError (lit "Timeout 120000ms exceeded.")) initial)
    as (_ & Hin & Hok & _).
  - repeat split; reflexivity.
  - reflexivity.
  - split; [exact (proj1 (Hok eq_refl)) | exact Hin].
Defined.

End LoopMore.

(** ** What a success rests on *)

Section AttemptAccepts.
Import PyStr Py Spec Main.
Variables (this : nat) (proxy_config : Rotator.proxy) (e : attempt_env).

Ltac accept_leaf :=
  cbv beta iota zeta delta
      [fst snd trace live browser attempts success login_success];
  intros;
  repeat match goal with a : unit |- _ => destruct a end;
  first
    [ discriminate
    | congruence
    | eexists; split; [eassumption|]; split; [eassumption|];
      split; eassumption ].

Lemma post_login_accept (s : st) :
  browser s = Some this -> login_success s = false ->
  fst (post_login this e s) = Normal tt ->
  login_success (snd (post_login this e s)) = true ->
  accepted_content e.
Proof.
  destruct s as [t lv br n su ls]. simpl. intros -> ->.
  unfold post_login, captcha_branch. exec. repeat split_step; accept_leaf.
Qed.

Lemma login_block_accept (s : st) :
  browser s = Some this ->
  fst (login_block this e s) = Normal tt ->
  login_success (snd (login_block this e s)) = true ->
  accepted_content e.
Proof.
  destruct s as [t lv br n su ls]. simpl. intros ->.
  unfold login_block. exec.
  repeat first
    [ match goal with
      | |- context [await_login e ?s0] =>
        destruct (await_login_post e s0) as (? & ? & -> & _);
        cbv beta iota zeta delta [trace live browser attempts success login_success];
        exec
      | |- context [post_login this e ?s0] =>
        let H := fresh "Hacc" in
        pose proof (post_login_accept s0 eq_refl eq_refl) as H;
        destruct (post_login this e s0) as [[[]|?|?|] [? ? ? ? ? ?]];
        cbv beta iota zeta delta
            [fst snd trace live browser attempts success login_success] in H;
        exec
      end
    | split_step ];
    try accept_leaf.
  all: intros; auto.
Qed.

End AttemptAccepts.

Section AttemptSuccess.
Import PyStr Py Spec Main.
Variables (this : nat) (proxy_config : Rotator.proxy) (e : attempt_env).

Ltac success_leaf :=
  cbv beta iota zeta delta
      [fst snd trace live browser attempts success login_success];
  intros;
  repeat match goal with a : unit |- _ => destruct a end;
  subst;
  first
    [ discriminate
    | congruence
    | split; [first [assumption | reflexivity]|];
      match goal with
      | Hacc : _ -> ?ls = true -> accepted_content e |- _ =>
        destruct ls; simpl in *;
        [ apply Hacc; reflexivity
        | repeat match goal with
                 | Hi : false = false -> _ |- _ => specialize (Hi eq_refl)
                 end;
          congruence ]
      end ].

Lemma attempt_launched_accepts (s : st) :
  launch_completes e ->
  success (snd (attempt this proxy_config e s)) = true -> success s = false ->
  Detector.is_shopee_blocking (block_page e) = false /\ accepted_content e.
Proof.
  intros (H1 & H2 & H3 & H4). destruct s as [t lv br n su ls].
  unfold attempt, launch_browser_with_proxy. rewrite H1, H2, H3, H4. exec.
  repeat first
    [ match goal with
      | |- context [language_dialog e ?s0] =>
        destruct (language_dialog_post e s0) as (? & -> & _);
        cbv beta iota zeta delta [trace live browser attempts success login_success];
        exec
      | |- context [first_present (google_button_count e) ?sels ?s0] =>
        destruct (first_present_post (google_button_count e) sels s0)
          as [[? ->]|[? ->]];
        exec
      | |- context [login_block this e ?s0] =>
        let H := fresh "Hsub" in
        let Hacc := fresh "Hacc" in
        pose proof (login_block_post this e s0 eq_refl) as H;
        pose proof (login_block_accept this e s0 eq_refl) as Hacc;
        destruct (login_block this e s0) as [[[]|?|?|] [? ? ? ? ? ?]];
        cbv beta iota zeta delta
            [fst snd trace live browser attempts success login_success] in Hacc;
        learn H
      | |- context [finish e ?s0] =>
        let H := fresh "Hsub" in
        pose proof (finish_post this e s0 eq_refl) as H;
        destruct (finish e s0) as [[?|?|?|] [? ? ? ? ? ?]];
        learn H
      | |- context [on_exception e ?x ?s0] =>
        let H := fresh "Hsub" in
        pose proof (on_exception_post e x this s0 eq_refl) as H;
        destruct (on_exception e x s0) as [[?|?|?|] [? ? ? ? ? ?]];
        learn H
      end
    | split_step ].
  all: success_leaf.
Qed.

End AttemptSuccess.

Section AttemptSuccessAny.
Import PyStr Py Spec Main.
Variables (this : nat) (proxy_config : Rotator.proxy) (e : attempt_env).

(** An iteration whose browser launch raised leaves [success] alone. *)
Lemma attempt_unlaunched (s : st) :
  ~ launch_completes e ->
  success (snd (attempt this proxy_config e s)) = success s.
Proof.
  intros Hno.
  destruct (step e LaunchPersistentContext) as [x1|] eqn:H1;
    [|destruct (step e NewPage) as [x2|] eqn:H2;
      [|destruct (step e AddInitScript) as [x3|] eqn:H3;
        [|destruct (step e StealthAsync) as [x4|] eqn:H4]]].
  5: { destruct Hno. by repeat split. }
  all: destruct s as [t lv [b|] n su ls];
    unfold attempt, launch_browser_with_proxy; rewrite ?H1, ?H2, ?H3, ?H4; exec.
  all: match goal with
       | |- context [on_exception e ?x (St ?t' ?lv' (Some ?b') ?n' ?su' ?ls')] =>
         let H := fresh "Hsub" in
         pose proof (on_exception_post e x b' (St t' lv' (Some b') n' su' ls') eq_refl) as H;
         destruct (on_exception e x (St t' lv' (Some b') n' su' ls'))
           as [[?|?|?|] [? ? ? ? ? ?]];
         learn H
       | |- context [on_exception e ?x (St ?t' ?lv' None ?n' ?su' ?ls')] =>
         let H := fresh "Hsub" in
         pose proof (on_exception_unbound e x (St t' lv' None n' su' ls') eq_refl) as H;
         destruct (on_exception e x (St t' lv' None n' su' ls'))
           as [? [? ? ? ? ? ?]];
         learn H
       end.
  all: reflexivity.
Qed.

Lemma launch_completes_dec : launch_completes e \/ ~ launch_completes e.
Proof.
  unfold launch_completes.
  destruct (step e LaunchPersistentContext), (step e NewPage),
    (step e AddInitScript), (step e StealthAsync);
    first [ left; by repeat split | right; intros (? & ? & ? & ?); discriminate ].
Qed.

(** What a success rests on.  An iteration sets [success] only when its
    browser was launched, the detector did not report a block, a challenge
    marker was on the page after the login, and the page read after the
    captcha wait showed no captcha error text, no app-only error text and
    at least 200 characters once stripped. *)
Theorem attempt_success_requirements (s : st) :
  success s = false ->
  success (snd (attempt this proxy_config e s)) = true ->
  launch_completes e
  /\ Detector.is_shopee_blocking (block_page e) = false
  /\ first_present_guarded (captcha_count e) captcha_selectors = true
  /\ accepted_content e.
Proof.
  intros Hs Hsu.
  destruct launch_completes_dec as [Hl|Hl];
    [|rewrite (attempt_unlaunched s Hl) in Hsu; congruence].
  destruct (attempt_launched_accepts this proxy_config e s Hl Hsu Hs) as [Hb Hacc].
  split; [exact Hl|]. split; [exact Hb|]. split; [|exact Hacc].
  destruct (first_present_guarded _ _) eqn:Hm; [reflexivity|].
  destruct (attempt_any this proxy_config e s) as (_ & _ & Hq).
  destruct (Hq Hm) as [Hsame _]. congruence.
Qed.

End AttemptSuccessAny.

Section AttemptSuccessWitness.
Import PyStr Py Spec Main.

Lemma attempt_success_requirements_witness :
  accepted_content (smooth_attempt 1 (replicate 500 97) (replicate 500 98)).
Proof.
  destruct (attempt_success_requirements 1 some_proxy
              (smooth_attempt 1 (replicate 500 97) (replicate 500 98)) initial)
    as (_ & _ & _ & H).
  - reflexivity.
  - vm_compute. reflexivity.
  - exact H.
Defined.

End AttemptSuccessWitness.

(** ** The wait for the captcha, and what it decides *)

Section CaptchaClaims.
Import PyStr Py Spec.

(** [api.py]: a request that comes as far as the captcha wait has one of
    two ends left. *)
Lemma reaches_captcha_wait_faults (e : Api.env) (page_content : str) :
  reaches_captcha_wait e page_content ->
  launch_fault e = None
  /\ captcha_failed e = any_in Api.captcha_error_texts page_content
  /\ body_fault e
     = if any_in Api.captcha_error_texts page_content
       then first_raised [Api.step e Api.CloseCaptchaFailed]
       else first_raised [Api.step e Api.WaitProduct; Api.step e Api.CloseScraped].
Proof.
  intros (Hl & Hg & Hs & Hm & Hw & Hc).
  split; [by apply launched_launch_fault|].
  unfold body_fault, body_calls, captcha_failed.
  rewrite Hg, Hs, Hm, Hw, Hc. split; [reflexivity|].
  by destruct (any_in Api.captcha_error_texts page_content).
Qed.

Lemma post_scrape_captcha_error (e : Api.env) (page_content : str) :
  reaches_captcha_wait e page_content ->
  any_in Api.captcha_error_texts page_content = true ->
  (forall r, Api.post_scrape e = Api.Json r ->
             Api.success r = false /\ Api.data r = None)
  /\ (Api.step e Api.CloseCaptchaFailed = None ->
      Api.post_scrape e
      = Api.Json (Api.Response false None
                    (Some (lit "Captcha failed - received error page")))).
Proof.
  intros He Hany. destruct (reaches_captcha_wait_faults e page_content He)
    as (Hl & Hf & Hb).
  rewrite Hany in Hf, Hb. rewrite post_scrape_by_first_fault.
  unfold answer_by_first_fault. rewrite Hl, Hb, Hf.
  destruct (Api.step e Api.CloseCaptchaFailed) as [x|]; simpl first_raised; cbv iota.
  - split; [|discriminate].
    destruct (Api.step e (handler_close x)); [discriminate|].
    destruct (exn_class_of x); intros r [= <-]; by split.
  - split; [|reflexivity]. intros r [= <-]. by split.
Qed.

Lemma post_scrape_captcha_solved (e : Api.env) (page_content : str) :
  reaches_captcha_wait e page_content ->
  any_in Api.captcha_error_texts page_content = false ->
  Api.post_scrape e
  <> Api.Json (Api.Response false None
                 (Some (lit "Captcha failed - received error page")))
  /\ (Api.step e Api.WaitProduct = None -> Api.step e Api.CloseScraped = None ->
      Api.post_scrape e
      = Api.Json (Api.Response true (Some (Api.scrape_product_data e))
                    (Some (lit "Product data scraped successfully")))).
Proof.
  intros He Hany. destruct (reaches_captcha_wait_faults e page_content He)
    as (Hl & Hf & Hb).
  rewrite Hany in Hf, Hb. rewrite post_scrape_by_first_fault.
  unfold answer_by_first_fault. rewrite Hl, Hb, Hf. split.
  - destruct (first_raised _) as [x|]; [|discriminate].
    destruct (Api.step e (handler_close x)); [discriminate|].
    destruct (exn_class_of x); intros H; injection H as H;
      vm_compute in H; discriminate H.
  - intros -> ->. reflexivity.
Qed.

(** [main.py]: whatever else happens in the iteration, a page with a
    captcha error text after the wait never ends in [success]. *)
Lemma attempt_captcha_error (this : nat) (p : Rotator.proxy)
    (e : Main.attempt_env) (s : st) (page_content : str) :
  Main.content_after_captcha e = Ok page_content ->
  any_in Main.captcha_error_texts page_content = true ->
  success s = false ->
  success (snd (Main.attempt this p e s)) = false.
Proof.
  intros Hc Hany Hs.
  destruct (success (snd (Main.attempt this p e s))) eqn:Hsu; [|reflexivity].
  destruct (launch_completes_dec e) as [Hl|Hl];
    [|rewrite (attempt_unlaunched this p e s Hl) in Hsu; congruence].
  destruct (attempt_launched_accepts this p e s Hl Hsu Hs)
    as (_ & c & Hc' & Herr & _).
  congruence.
Qed.

(** C9: once the wait is over, the attempt of [main.py] is classified by
    the page content read after the wait alone.  With one of the
    configured error strings in it the attempt is a captcha error:
    [login_success] is cleared, "Captcha failed - received error page" is
    printed, no product is extracted, [success] is not touched, the
    iteration does not go on to the product page (it ends by [continue]
    with its browser context closed when the debug file, the screenshot
    and [browser.close()] work, by their exception otherwise), and the
    iteration as a whole never sets [success].  With none of them it is a
    captcha success: [login_success] stays set, "Captcha solved
    successfully" is printed and the iteration goes on with that page
    content.  [login_success] is cleared exactly in the first case, and in
    both the four-minute wait was run.  The [/scrape] endpoint of
    [api.py], with the same strings, answers "Captcha failed" in the first
    case only: there it never returns the product, and it answers "Captcha
    failed" when the [browser.close()] before that [return] works; in the
    second case it returns the scraped product when the wait for the
    product page and the [browser.close()] before the [return] work. *)
Theorem captcha_wait_classification (page_content : str) :
  (forall this e s,
     Main.step e Main.WriteCaptchaSuccess = None ->
     Main.step e Main.WaitCaptcha = None ->
     Main.content_after_captcha e = Ok page_content ->
     let after := Main.captcha_branch this e s in
     In captcha_wait (trace (snd after))
     /\ (login_success (snd after) = false
         <-> exists t, In t Main.captcha_error_texts /\ substring t page_content)
     /\ ((exists t, In t Main.captcha_error_texts /\ substring t page_content) ->
         captcha_verdict_of (trace (snd after)) = Some CaptchaError
         /\ (forall c, fst after <> Normal c)
         /\ success (snd after) = success s
         /\ (In (EvExtract this) (trace (snd after)) ->
             In (EvExtract this) (trace s))
         /\ (browser s = Some this ->
             Main.step e Main.WriteCaptchaError = None ->
             Main.step e Main.ScreenshotCaptchaError = None ->
             Main.step e Main.CloseCaptchaError = None ->
             fst after = Continued
             /\ live (snd after) = filter (fun x => x <> this) (live s)))
     /\ ((~ exists t, In t Main.captcha_error_texts /\ substring t page_content) ->
         captcha_verdict_of (trace (snd after)) = Some CaptchaSuccess
         /\ login_success (snd after) = true
         /\ fst after <> Continued
         /\ success (snd after) = success s
         /\ live (snd after) = live s
         /\ (Main.step e Main.WaitProduct = None ->
             fst after = Normal page_content)))
  /\ (forall this p e s,
        Main.content_after_captcha e = Ok page_content ->
        (exists t, In t Main.captcha_error_texts /\ substring t page_content) ->
        success s = false ->
        success (snd (Main.attempt this p e s)) = false)
  /\ (forall e,
        reaches_captcha_wait e page_content ->
        (Api.post_scrape e
         = Api.Json (Api.Response false None
                       (Some (lit "Captcha failed - received error page")))
         -> exists t, In t Api.captcha_error_texts /\ substring t page_content)
        /\ ((exists t, In t Api.captcha_error_texts /\ substring t page_content) ->
            (forall r, Api.post_scrape e = Api.Json r ->
                       Api.success r = false /\ Api.data r = None)
            /\ (Api.step e Api.CloseCaptchaFailed = None ->
                Api.post_scrape e
                = Api.Json (Api.Response false None
                              (Some (lit "Captcha failed - received error page")))))
        /\ ((~ exists t, In t Api.captcha_error_texts /\ substring t page_content) ->
            Api.step e Api.WaitProduct = None ->
            Api.step e Api.CloseScraped = None ->
            Api.post_scrape e
            = Api.Json (Api.Response true (Some (Api.scrape_product_data e))
                          (Some (lit "Product data scraped successfully"))))).
Proof.
  split; [|split].
  - intros this e s H1 H2 H3 after. subst after.
    rewrite <-any_in_spec.
    destruct (any_in Main.captcha_error_texts page_content) eqn:Hany.
    + destruct (captcha_branch_error this e s page_content H1 H2 H3 Hany)
        as (Hw & Hls & Hv & Hn & Hsu & Hx & Hc).
      split; [exact Hw|]. split; [by split|].
      split; [|intros Hno; by destruct Hno].
      intros _. split; [exact Hv|]. split; [exact Hn|]. split; [exact Hsu|].
      split; [exact Hx | exact Hc].
    + destruct (captcha_branch_solved this e s page_content H1 H2 H3 Hany)
        as (Hw & Hls & Hv & Hn & Hsu & Hlv & Hc).
      split; [exact Hw|].
      split; [split; [rewrite Hls|]; discriminate|].
      split; [discriminate|].
      intros _. split; [exact Hv|]. split; [exact Hls|]. split; [exact Hn|].
      split; [exact Hsu|]. split; [exact Hlv | exact Hc].
  - intros this p e s Hc Hany%any_in_spec Hs.
    exact (attempt_captcha_error this p e s page_content Hc Hany Hs).
  - intros e He. rewrite <-any_in_spec.
    destruct (any_in Api.captcha_error_texts page_content) eqn:Hany.
    + destruct (post_scrape_captcha_error e page_content He Hany) as [Hr Hf].
      split; [done|]. split; [|intros Hno; by destruct Hno].
      intros _. split; [exact Hr | exact Hf].
    + destruct (post_scrape_captcha_solved e page_content He Hany) as [Hn Hok].
      split; [intros H; by destruct Hn|]. split; [discriminate|].
      intros _. exact Hok.
Qed.

Lemma captcha_wait_classification_witness :
  login_success
    (snd (Main.captcha_branch 1
            (smooth_attempt 1 [] (lit "<h1>Page cannot be displayed</h1>"))
            Main.initial))
  = false
  /\ login_success
       (snd (Main.captcha_branch 1
               (smooth_attempt 1 [] (lit "<h1>Product</h1>")) Main.initial))
     = true.
Proof.
  split.
  - destruct (proj1 (captcha_wait_classification
                       (lit "<h1>Page cannot be displayed</h1>"))
                1%nat
                (smooth_attempt 1 [] (lit "<h1>Page cannot be displayed</h1>"))
                Main.initial eq_refl eq_refl eq_refl)
      as (_ & Hiff & _).
    apply Hiff. exists (lit "Page cannot be displayed"). split.
    + vm_compute. tauto.
    + apply contains_spec. vm_compute. reflexivity.
  - destruct (proj1 (captcha_wait_classification (lit "<h1>Product</h1>"))
                1%nat (smooth_attempt 1 [] (lit "<h1>Product</h1>"))
                Main.initial eq_refl eq_refl eq_refl)
      as (_ & _ & _ & Hsolved).
    destruct Hsolved as (_ & Hls & _); [|exact Hls].
    apply any_in_false_spec. vm_compute. reflexivity.
Defined.

End CaptchaClaims.

(** ** What a reported success rests on *)

Section MainSuccess.
Import PyStr Py Spec Main.

Lemma while_loop_success_grounds (envs : nat -> attempt_env) (fuel : nat)
    (rot rot' : Rotator.ProxyRotator) (s s' : st) (o : outcome unit unit) :
  while_loop fuel envs rot s = Some (o, rot', s') ->
  success s = false -> success s' = true ->
  exists k,
    (attempts s < k <= max_attempts_before_break)%nat
    /\ launch_completes (envs k)
    /\ Detector.is_shopee_blocking (block_page (envs k)) = false
    /\ first_present_guarded (captcha_count (envs k)) captcha_selectors = true
    /\ accepted_content (envs k).
Proof.
  revert rot s. induction fuel as [|fuel IH]; intros rot s Hrun Hs Hs'.
  - simpl in Hrun. destruct (negb (success s) && _); [done|].
    injection Hrun as _ _ <-. congruence.
  - rewrite while_loop_step in Hrun.
    destruct (negb (success s) && (attempts s <? max_attempts_before_break)%nat)
      eqn:Hcond; [|injection Hrun as _ _ <-; congruence].
    apply andb_true_iff in Hcond as [_ Hlt]. apply Nat.ltb_lt in Hlt.
    cbv zeta in Hrun.
    destruct (Rotator.get_random_proxy rot _) as [[[p|]|x] rot1];
      [|injection Hrun as _ _ <-; simpl in Hs'; congruence
       |injection Hrun as _ _ <-; congruence].
    rewrite announced_attempt in Hrun.
    set (e := envs (S (attempts s))) in *.
    set (s1 := St _ _ _ _ _ _) in Hrun.
    assert (success s1 = false) as Hs1 by exact Hs.
    assert (attempts s1 = S (attempts s)) as Hn1 by reflexivity.
    destruct (attempt_any (S (attempts s)) p e s1) as (Ha & _ & Hq).
    destruct (success (snd (attempt (S (attempts s)) p e s1))) eqn:Hsu.
    + exists (S (attempts s)). split; [lia|]. fold e.
      destruct (launch_completes_dec e) as [Hl|Hl];
        [|rewrite (attempt_unlaunched _ p e s1 Hl) in Hsu; congruence].
      destruct (attempt_launched_accepts _ p e s1 Hl Hsu Hs1) as [Hb Hacc].
      split; [exact Hl|]. split; [exact Hb|]. split; [|exact Hacc].
      destruct (first_present_guarded _ _) eqn:Hm; [reflexivity|].
      destruct (Hq Hm) as [Hsame _]. congruence.
    + destruct (attempt (S (attempts s)) p e s1) as [[[]|x|r|] s2];
        simpl in Ha, Hsu;
        try (injection Hrun as _ _ <-; congruence);
        destruct (IH rot1 s2 Hrun Hsu Hs') as (k & Hk & Hg);
        exists k; (split; [lia | exact Hg]).
Qed.

(** [main] ends with [success] set only if in one of its at most ten
    attempts the browser was launched, the detector did not report a
    block, a challenge marker was on the page after the login, and the page
    read after the captcha wait showed no captcha error text, no app-only
    error text and at least 200 characters once stripped.  This holds in
    every world, also where awaited calls raise. *)
Theorem main_success_requirements (fuel : nat) (w : main_env) (s' : st) :
  main fuel w = Some s' -> success s' = true ->
  exists k,
    (1 <= k <= max_attempts_before_break)%nat
    /\ launch_completes (attempt_envs w k)
    /\ Detector.is_shopee_blocking (block_page (attempt_envs w k)) = false
    /\ first_present_guarded (captcha_count (attempt_envs w k)) captcha_selectors
       = true
    /\ accepted_content (attempt_envs w k).
Proof.
  unfold main. destruct (Rotator.proxies _) as [|p0 pool].
  { intros [= <-]. discriminate. }
  unfold initial. exec.
  destruct (extension_load w); exec; [intros [= <-]; discriminate|].
  destruct (playwright_start w); exec; [intros [= <-]; discriminate|].
  set (s0 := St _ _ _ _ _ _).
  destruct (while_loop fuel (attempt_envs w) _ s0) as [[[o rot'] s1]|] eqn:Hrun;
    [|discriminate].
  intros Hmain Hsu.
  assert (success s1 = true) as Hs1.
  { destruct s1 as [t1 lv1 br1 n1 su1 ls1].
    destruct o, su1; simpl in Hmain; injection Hmain as <-; exact Hsu. }
  destruct (while_loop_success_grounds _ _ _ _ _ _ _ Hrun eq_refl Hs1)
    as (k & Hk & Hg).
  exists k. split; [simpl in Hk; lia | exact Hg].
Qed.

Lemma main_success_requirements_witness :
  exists k, (1 <= k <= max_attempts_before_break)%nat
            /\ accepted_content (attempt_envs world_third_time_lucky k).
Proof.
  assert (exists s', main 10 world_third_time_lucky = Some s'
                     /\ success s' = true) as (s' & Hrun & Hsu).
  { assert (success <$> main 10 world_third_time_lucky = Some true) as H
      by (vm_compute; reflexivity).
    destruct (main 10 world_third_time_lucky) as [s'|]; [|discriminate H].
    exists s'. split; [reflexivity|]. by injection H. }
  destruct (main_success_requirements 10 world_third_time_lucky s' Hrun Hsu)
    as (k & Hk & _ & _ & _ & Hacc).
  exists k. split; [exact Hk | exact Hacc].
Defined.

End MainSuccess.

(** ** More on the [/scrape] endpoint *)

Section ApiMore.
Import PyStr Py Spec.

Lemma first_text_Some (count : str -> result nat) (text : str -> result str)
    (sels : list str) (t : str) :
  Api.first_text count text sels = Some t
  <-> exists before sel after,
        sels = before ++ sel :: after
        /\ readable count text sel t
        /\ forall sel', sel' ∈ before -> forall t', ~ readable count text sel' t'.
Proof.
  induction sels as [|sel sels IH]; simpl.
  - split; [done|]. intros (b & x & a & H & _). by destruct b.
  - assert (forall P : Prop,
              (forall t', ~ readable count text sel t') ->
              (P <-> exists before sel0 after,
                       sels = before ++ sel0 :: after
                       /\ readable count text sel0 t
                       /\ forall sel', sel' ∈ before ->
                                       forall t', ~ readable count text sel' t') ->
              (P <-> exists before sel0 after,
                       sel :: sels = before ++ sel0 :: after
                       /\ readable count text sel0 t
                       /\ forall sel', sel' ∈ before ->
                                       forall t', ~ readable count text sel' t'))
      as Hskip.
    { intros P Hno HP. rewrite HP. split.
      - intros (b & x & a & -> & Hr & Hb). exists (sel :: b), x, a.
        split; [done|]. split; [done|].
        intros sel' [->|Hin]%elem_of_cons; auto.
      - intros (b & x & a & Heq & Hr & Hb). destruct b as [|y b].
        + simpl in Heq. injection Heq as <- ->. by destruct (Hno t).
        + simpl in Heq. injection Heq as <- ->. exists b, x, a.
          split; [done|]. split; [done|]. intros sel' Hin. apply Hb. by right. }
    destruct (count sel) as [n|x] eqn:Hc.
    + destruct (0 <? n)%nat eqn:Hn.
      * destruct (text sel) as [t0|x] eqn:Ht.
        -- split.
           ++ intros [= ->]. exists [], sel, sels. split; [done|].
              split; [|by intros ? ?%elem_of_nil].
              exists n. by apply Nat.ltb_lt in Hn.
           ++ intros (b & x & a & Heq & Hr & Hb). destruct b as [|y b].
              ** simpl in Heq. injection Heq as <- ->.
                 destruct Hr as (n' & _ & _ & Hr). congruence.
              ** simpl in Heq. injection Heq as <- ->.
                 destruct (Hb sel ltac:(by left) t0).
                 exists n. by apply Nat.ltb_lt in Hn.
        -- apply Hskip; [|exact IH]. intros t' (n' & _ & _ & Hr). congruence.
      * apply Hskip; [|exact IH]. intros t' (n' & Hc' & Hlt & _).
        apply Nat.ltb_ge in Hn. assert (n' = n) by congruence. lia.
    + apply Hskip; [|exact IH]. intros t' (n' & Hc' & _). congruence.
Qed.

(** Each text field of the scraped product is the text of the first
    selector of its list, in the order of the list, that is present and
    whose text can be read: selectors that are absent, or whose [count] or
    [text] raises, are passed over. *)
Theorem scrape_product_data_field (e : Api.env) (f : Api.field) (t : str) :
  field_of f (Api.scrape_product_data e) = Some t
  <-> exists before sel after,
        Api.selectors f = before ++ sel :: after
        /\ readable (Api.field_count e f) (Api.field_text e f) sel t
        /\ forall sel', sel' ∈ before ->
             forall t', ~ readable (Api.field_count e f) (Api.field_text e f) sel' t'.
Proof. destruct f; apply first_text_Some. Qed.

Lemma collect_srcs_inv (src : nat -> result (option str)) (idxs : list nat)
    (acc : list str) :
  NoDup acc ->
  NoDup (snd (Api.collect_srcs src idxs acc))
  /\ forall u, u ∈ snd (Api.collect_srcs src idxs acc) ->
               u ∈ acc \/ (u <> [] /\ exists i, i ∈ idxs /\ src i = Ok (Some u)).
Proof.
  revert acc. induction idxs as [|i idxs IH]; intros acc Hnd; simpl.
  - split; [done|]. by left.
  - assert (forall acc', NoDup acc' ->
              (forall u, u ∈ acc' ->
                         u ∈ acc \/ (u <> [] /\ src i = Ok (Some u))) ->
              NoDup (snd (Api.collect_srcs src idxs acc'))
              /\ forall u, u ∈ snd (Api.collect_srcs src idxs acc') ->
                   u ∈ acc
                   \/ (u <> [] /\ exists j, j ∈ i :: idxs /\ src j = Ok (Some u)))
      as Hrest.
    { intros acc' Hnd' Hacc'. destruct (IH acc' Hnd') as [H1 H2].
      split; [done|]. intros u Hu. destruct (H2 u Hu) as [Hin|(Hne & j & Hj & Hs)].
      - destruct (Hacc' u Hin) as [?|[? ?]]; [by left|].
        right. split; [done|]. exists i. split; [by left | done].
      - right. split; [done|]. exists j. split; [by right | done]. }
    destruct (src i) as [[[|c u]|]|x] eqn:Hs; simpl.
    + apply Hrest; [done|]. by left.
    + destruct (decide ((c :: u) ∈ acc)) as [Hin|Hout].
      * apply Hrest; [done|]. by left.
      * apply Hrest.
        -- apply NoDup_app. split; [done|]. split; [|apply NoDup_singleton].
           intros y Hy ->%list_elem_of_singleton. done.
        -- intros y [Hy| ->%list_elem_of_singleton]%elem_of_app; [by left|].
           right. done.
    + apply Hrest; [done|]. by left.
    + split; [done|]. by left.
Qed.

Lemma first_images_inv (e : Api.env) (sels : list str) (acc urls : list str) :
  Api.first_images e sels acc = Some urls ->
  NoDup acc ->
  NoDup urls
  /\ forall u, u ∈ urls ->
       u ∈ acc
       \/ (u <> [] /\ exists sel i, sel ∈ sels /\ Api.image_src e sel i = Ok (Some u)).
Proof.
  revert acc. induction sels as [|sel sels IH]; intros acc; simpl; [done|].
  assert (Api.first_images e sels acc = Some urls -> NoDup acc ->
          NoDup urls
          /\ forall u, u ∈ urls ->
               u ∈ acc
               \/ (u <> [] /\ exists sel0 i, sel0 ∈ sel :: sels
                                             /\ Api.image_src e sel0 i = Ok (Some u)))
    as Hskip.
  { intros H Hnd. destruct (IH acc H Hnd) as [H1 H2]. split; [done|].
    intros u Hu. destruct (H2 u Hu) as [?|(Hne & s0 & i & Hs0 & Hi)]; [by left|].
    right. split; [done|]. exists s0, i. split; [by right | done]. }
  destruct (Api.image_count e sel) as [n|x]; [|exact Hskip].
  destruct (0 <? n)%nat; [|exact Hskip].
  intros H Hnd.
  destruct (collect_srcs_inv (Api.image_src e sel) (seq 0 n) acc Hnd) as [H1 H2].
  destruct (Api.collect_srcs _ _ acc) as [[|] acc']; simpl in H1, H2.
  - injection H as <-. split; [done|]. intros u Hu.
    destruct (H2 u Hu) as [?|(Hne & i & _ & Hi)]; [by left|].
    right. split; [done|]. exists sel, i. split; [by left | done].
  - destruct (IH acc' H H1) as [H3 H4]. split; [done|]. intros u Hu.
    destruct (H4 u Hu) as [Hin|(Hne & s0 & i & Hs0 & Hi)].
    + destruct (H2 u Hin) as [?|(Hne & i & _ & Hi)]; [by left|].
      right. split; [done|]. exists sel, i. split; [by left | done].
    + right. split; [done|]. exists s0, i. split; [by right | done].
Qed.

(** The image list of the scraped product has no duplicates and no empty
    entry, and each of its URLs is a [src] attribute the page gave for an
    element of one of the image selectors. *)
Theorem scrape_product_data_images (e : Api.env) (urls : list str) :
  Api.image_urls (Api.scrape_product_data e) = Some urls ->
  NoDup urls
  /\ forall u, u ∈ urls ->
       u <> []
       /\ exists sel i, sel ∈ Api.image_selectors
                        /\ Api.image_src e sel i = Ok (Some u).
Proof.
  intros H. destruct (first_images_inv e Api.image_selectors [] urls H) as [H1 H2].
  { apply NoDup_nil_2. }
  split; [exact H1|]. intros u Hu.
  destruct (H2 u Hu) as [Hin|Hok]; [|exact Hok]. by apply elem_of_nil in Hin.
Qed.

Lemma scrape_product_data_images_witness :
  NoDup [lit "https://cf.shopee.tw/file/a.jpg"].
Proof.
  assert (Api.image_urls (Api.scrape_product_data request_with_images)
          = Some [lit "https://cf.shopee.tw/file/a.jpg"]) as H
    by (vm_compute; reflexivity).
  exact (proj1 (scrape_product_data_images request_with_images _ H)).
Defined.

(** A request whose browser was launched and whose [browser.close()]
    calls work opens one browser context and closes it once, whichever way
    the request ends (scraped, captcha failed, timeout or any other
    exception of a driver call); nothing is left open. *)
Theorem scrape_closes_its_browser (e : Api.env) :
  launched e -> closes_work e ->
  live (snd (Api.scrape_shopee_product e Main.initial)) = []
  /\ sessions (trace (snd (Api.scrape_shopee_product e Main.initial)))
     = [Opened 1; Closed 1].
Proof.
  intros (H0 & H1 & H2 & H3 & H4 & H5) (C1 & C2 & C3 & C4).
  unfold Api.scrape_shopee_product, Api.launch_browser_with_proxy, Main.initial.
  rewrite H0, H1, H2, H3, H4, H5, C1, C2, C3, C4.
  exec. repeat split_step; (split; reflexivity).
Qed.

Lemma scrape_closes_its_browser_witness :
  live (snd (Api.scrape_shopee_product request_with_failing_goto Main.initial)) = [].
Proof.
  apply (scrape_closes_its_browser request_with_failing_goto).
  - repeat split; reflexivity.
  - repeat split; reflexivity.
Defined.

(** Without a challenge marker the endpoint never runs the four-minute
    wait, and when the navigation, the two fixed waits and the
    [browser.close()] before the [return] work it answers with the scraped
    product without looking at the page content. *)
Theorem scrape_without_challenge (e : Api.env) :
  first_present_guarded (Api.captcha_count e) Api.captcha_selectors = false ->
  ~ In captcha_wait (trace (snd (Api.scrape_shopee_product e Main.initial)))
  /\ (launched e -> Api.step e Api.Goto = None ->
      Api.step e Api.WaitStabilize = None -> Api.step e Api.WaitProduct = None ->
      Api.step e Api.CloseScraped = None ->
      Api.post_scrape e
      = Api.Json (Api.Response true (Some (Api.scrape_product_data e))
                    (Some (lit "Product data scraped successfully")))).
Proof.
  intros Hm. split.
  - unfold Api.scrape_shopee_product, Api.launch_browser_with_proxy, Main.initial.
    rewrite Hm. exec. repeat split_step; simpl; intros H; in_wait; try done;
      repeat (destruct H as [H|H]; [discriminate H|]); done.
  - intros (H0 & H1 & H2 & H3 & H4 & H5) Hg Hw Hp Hc.
    unfold Api.post_scrape, Api.scrape_shopee_product, Api.launch_browser_with_proxy,
      Main.initial.
    rewrite H0, H1, H2, H3, H4, H5, Hg, Hw, Hp, Hc, Hm. reflexivity.
Qed.

Lemma scrape_without_challenge_witness :
  ~ In captcha_wait
      (trace (snd (Api.scrape_shopee_product (smooth_request 0 []) Main.initial))).
Proof.
  apply (scrape_without_challenge (smooth_request 0 [])).
  vm_compute. reflexivity.
Defined.

End ApiMore.
